(** * TeamMakerV2: a shallow embedding of [src/App.tsx]

    The application keeps two collections, [players] and [teams], in React
    state.  Handlers replace them through functional updaters, a memoised
    projector groups the players per team, and two effects mirror the
    collections into cookies.  This file embeds the data model, the handlers,
    the projector, the persistence path, the theme and what the render
    hands to the columns, and proves the properties the specification
    states about them, and further properties the code shows. *)

From Stdlib Require Import String Ascii NArith ZArith Lia.
From stdpp Require Import gmap list sorting pretty.

Set Default Proof Using "Type".

(** ** JavaScript strings

    A JavaScript string is a finite sequence of UTF-16 code units.  It is
    embedded as the list of its code units; [js] gives the code units of an
    ASCII literal of the source. *)

Abbreviation jsstring := (list N).

Definition js (s : string) : jsstring :=
  N_of_ascii <$> list_ascii_of_string s.
Arguments js s%_string : simpl never.

(** [!s] on a string: the empty string is the only falsy string. *)
Definition truthy (s : jsstring) : bool :=
  match s with
  | [] => false
  | _ :: _ => true
  end.

(** The code units [String.prototype.trim] strips: ECMAScript's WhiteSpace
    (TAB, VT, FF, SP, NBSP, ZWNBSP and the Unicode space separators) and
    LineTerminator (LF, CR, LS, PS). *)
Definition isWhiteSpace (c : N) : bool :=
  match c with
  | 0x9 | 0xA | 0xB | 0xC | 0xD | 0x20 | 0xA0 | 0x1680
  | 0x2000 | 0x2001 | 0x2002 | 0x2003 | 0x2004 | 0x2005
  | 0x2006 | 0x2007 | 0x2008 | 0x2009 | 0x200A
  | 0x2028 | 0x2029 | 0x202F | 0x205F | 0x3000 | 0xFEFF => true
  | _ => false
  end%N.

Fixpoint trimStart (s : jsstring) : jsstring :=
  match s with
  | [] => []
  | c :: s' => if isWhiteSpace c then trimStart s' else s
  end.

Definition trimEnd (s : jsstring) : jsstring := rev (trimStart (rev s)).

Definition trim (s : jsstring) : jsstring := trimEnd (trimStart s).

(** ** Data model *)

Module Player.
Record t : Type := mk
  { id : jsstring;
    name : jsstring;
    color : jsstring;
    teamId : option jsstring }.

#[global] Instance eq_dec : EqDecision t.
Proof. solve_decision. Defined.

(** [{ ...player, teamId }] *)
Definition with_teamId (p : t) (tid : option jsstring) : t :=
  mk (id p) (name p) (color p) tid.

(** [{ ...player, name: newName }] *)
Definition with_name (p : t) (newName : jsstring) : t :=
  mk (id p) newName (color p) (teamId p).
End Player.

Module Team.
Record t : Type := mk
  { id : jsstring;
    name : jsstring;
    accent : jsstring }.

#[global] Instance eq_dec : EqDecision t.
Proof. solve_decision. Defined.

(** [{ ...team, name: newName }] *)
Definition with_name (tm : t) (newName : jsstring) : t :=
  mk (id tm) newName (accent tm).
End Team.

Definition palette : list jsstring :=
  [ js "#ff7b7b"; js "#ffd36b"; js "#9ae66e"; js "#6fd1ff";
    js "#caa0ff"; js "#ffa6c9"; js "#8de4ff"; js "#ffe066" ].

(** [palette[n % palette.length]].  The index is always in range, so the
    [undefined] an out-of-range read would give never arises; the default
    below is unreachable. *)
Definition paletteColor (n : nat) : jsstring :=
  default [] (palette !! (n mod length palette)).

Definition initialTeams : list Team.t :=
  [ Team.mk (js "alpha") (js "Team Alpha") (js "#ffb347");
    Team.mk (js "bravo") (js "Team Bravo") (js "#6dd5ed") ].

Definition seedNames : list jsstring :=
  [ js "Astra"; js "Blitz"; js "Cipher"; js "Draco"; js "Echo"; js "Flux";
    js "Gemini"; js "Halo"; js "Ion"; js "Jinx"; js "Kairo"; js "Luna";
    js "Metro" ].

(** ** The application state and its handlers

    [makeId] draws from a random source ([crypto.randomUUID] or
    [Math.random]).  The source is a parameter: [rnd k] is what the [k]-th
    call of [makeId] in the session returns, and the state counts the calls
    made so far. *)

Section App.

Variable rnd : nat → jsstring.

Definition makeId (calls : nat) : jsstring * nat := (rnd calls, S calls).

(** The module-level [seededPlayers]: one [makeId] call per seed name. *)
Definition seededPlayers : list Player.t :=
  imap (λ index name,
          Player.mk (fst (makeId index)) name (paletteColor index) None)
       seedNames.

Record AppState : Type := mkState
  { players : list Player.t;
    teams : list Team.t;
    playerName : jsstring;
    teamName : jsstring;
    hoveredZone : option jsstring;
    idCalls : nat }.

(** The state after the first render with no usable cookie. *)
Definition seedState : AppState :=
  mkState seededPlayers initialTeams [] [] None (length seedNames).

Definition setPlayers (f : list Player.t → list Player.t) (st : AppState)
  : AppState :=
  mkState (f (players st)) (teams st) (playerName st) (teamName st)
          (hoveredZone st) (idCalls st).

Definition setTeams (f : list Team.t → list Team.t) (st : AppState)
  : AppState :=
  mkState (players st) (f (teams st)) (playerName st) (teamName st)
          (hoveredZone st) (idCalls st).

Definition setPlayerName (s : jsstring) (st : AppState) : AppState :=
  mkState (players st) (teams st) s (teamName st)
          (hoveredZone st) (idCalls st).

Definition setTeamName (s : jsstring) (st : AppState) : AppState :=
  mkState (players st) (teams st) (playerName st) s
          (hoveredZone st) (idCalls st).

Definition setHoveredZone (f : option jsstring → option jsstring)
  (st : AppState) : AppState :=
  mkState (players st) (teams st) (playerName st) (teamName st)
          (f (hoveredZone st)) (idCalls st).

Definition setIdCalls (n : nat) (st : AppState) : AppState :=
  mkState (players st) (teams st) (playerName st) (teamName st)
          (hoveredZone st) n.

Definition handleReset (confirmed : bool) (st : AppState) : AppState :=
  if confirmed
  then setTeams (λ _, initialTeams) (setPlayers (λ _, seededPlayers) st)
  else st.

Definition handleCreatePlayer (st : AppState) : AppState :=
  let trimmed := trim (playerName st) in
  if negb (truthy trimmed) then st
  else
    let '(newId, calls) := makeId (idCalls st) in
    setPlayerName []
      (setIdCalls calls
         (setPlayers
            (λ prev, prev ++ [Player.mk newId trimmed
                                (paletteColor (length prev)) None])
            st)).

Definition handleCreateTeam (st : AppState) : AppState :=
  let trimmed := trim (teamName st) in
  if negb (truthy trimmed) then st
  else
    let '(newId, calls) := makeId (idCalls st) in
    setTeamName []
      (setIdCalls calls
         (setTeams
            (λ prev, prev ++ [Team.mk newId trimmed
                                (paletteColor (length prev))])
            st)).

Definition handleDrop (playerId : jsstring) (teamId : option jsstring)
  (st : AppState) : AppState :=
  setHoveredZone (λ _, None)
    (setPlayers
       (fmap (λ player,
          if decide (Player.id player = playerId)
          then Player.with_teamId player teamId else player))
       st).

Definition handleRemovePlayer (playerId : jsstring) (st : AppState)
  : AppState :=
  setPlayers
    (filter (λ player, Player.id player ≠ playerId))
    st.

Definition handleUpdatePlayerName (playerId newName : jsstring)
  (st : AppState) : AppState :=
  setPlayers
    (fmap (λ player,
       if decide (Player.id player = playerId)
       then Player.with_name player newName else player))
    st.

Definition handleRemoveTeam (teamId : jsstring) (st : AppState) : AppState :=
  setPlayers
    (fmap (λ player,
       if decide (Player.teamId player = Some teamId)
       then Player.with_teamId player None else player))
    (setTeams
       (filter (λ team, Team.id team ≠ teamId))
       st).

Definition handleUpdateTeamName (teamId newName : jsstring)
  (st : AppState) : AppState :=
  setTeams
    (fmap (λ team,
       if decide (Team.id team = teamId)
       then Team.with_name team newName else team))
    st.

(** *** Drag and drop

    A [DataTransfer] carries data per format; [getData] answers the empty
    string for a format that was never set. *)

Definition DataTransfer : Type := list (jsstring * jsstring).

Fixpoint getData (dt : DataTransfer) (format : jsstring) : jsstring :=
  match dt with
  | [] => []
  | (f, d) :: dt' => if decide (f = format) then d else getData dt' format
  end.

Definition setData (format data : jsstring) (dt : DataTransfer)
  : DataTransfer :=
  (format, data) :: dt.

Definition startDrag (playerId : jsstring) (dt : DataTransfer)
  : DataTransfer :=
  setData (js "playerId") playerId dt.

Definition benchKey : jsstring := js "bench".

(** [makeZoneHandlers(zoneKey, teamId).onDrop] *)
Definition onDrop (teamId : option jsstring) (dt : DataTransfer)
  (st : AppState) : AppState :=
  let playerId := getData dt (js "playerId") in
  if truthy playerId then handleDrop playerId teamId st else st.

Definition onDragEnter (zoneKey : jsstring) (st : AppState) : AppState :=
  setHoveredZone (λ _, Some zoneKey) st.

Definition onDragLeave (zoneKey : jsstring) (st : AppState) : AppState :=
  setHoveredZone
    (λ current, if decide (current = Some zoneKey) then None else current)
    st.

(** The drop zones the render creates, in column order, each with the
    arguments [makeZoneHandlers] receives: the bench first, then one zone
    per team of the current collection. *)
Definition zones (st : AppState) : list (jsstring * option jsstring) :=
  (benchKey, None)
    :: ((λ team, (Team.id team, Some (Team.id team))) <$> teams st).

(** [Nametag.handleSubmit] / [TeamColumn.handleSubmit]: the rename is
    forwarded only when the edited text trims to a non-empty string. *)
Definition submitPlayerRename (playerId editName : jsstring)
  (st : AppState) : AppState :=
  if truthy (trim editName)
  then handleUpdatePlayerName playerId (trim editName) st
  else st.

Definition submitTeamRename (teamId editName : jsstring)
  (st : AppState) : AppState :=
  if truthy (trim editName)
  then handleUpdateTeamName teamId (trim editName) st
  else st.

(** *** User events

    One constructor per control of the page.  A zone is named by its
    column index in the current render. *)

Inductive Event : Type :=
| TypePlayerName (text : jsstring)
| SubmitPlayerForm
| TypeTeamName (text : jsstring)
| SubmitTeamForm
| DragEnter (zone : nat)
| DragLeave (zone : nat)
| Drop (zone : nat) (dt : DataTransfer)
| ClickRemovePlayer (playerId : jsstring)
| SubmitPlayerRename (playerId editName : jsstring)
| ClickRemoveTeam (teamId : jsstring)
| SubmitTeamRename (teamId editName : jsstring)
| ClickReset (confirmed : bool).

(** An event aimed at a column that is not rendered reaches no handler. *)
Definition onZone (zone : nat)
  (h : jsstring → option jsstring → AppState → AppState)
  (st : AppState) : AppState :=
  match zones st !! zone with
  | Some (zoneKey, teamId) => h zoneKey teamId st
  | None => st
  end.

Definition dispatch (st : AppState) (ev : Event) : AppState :=
  match ev with
  | TypePlayerName text => setPlayerName text st
  | SubmitPlayerForm => handleCreatePlayer st
  | TypeTeamName text => setTeamName text st
  | SubmitTeamForm => handleCreateTeam st
  | DragEnter zone => onZone zone (λ zoneKey _, onDragEnter zoneKey) st
  | DragLeave zone => onZone zone (λ zoneKey _, onDragLeave zoneKey) st
  | Drop zone dt => onZone zone (λ _ teamId, onDrop teamId dt) st
  | ClickRemovePlayer playerId => handleRemovePlayer playerId st
  | SubmitPlayerRename playerId editName =>
      submitPlayerRename playerId editName st
  | ClickRemoveTeam teamId => handleRemoveTeam teamId st
  | SubmitTeamRename teamId editName => submitTeamRename teamId editName st
  | ClickReset confirmed => handleReset confirmed st
  end.

Definition run (st : AppState) (evs : list Event) : AppState :=
  fold_left dispatch evs st.

(** The operations of the specification, as the user performs them. *)
Definition createPlayer (name : jsstring) (st : AppState) : AppState :=
  handleCreatePlayer (setPlayerName name st).

Definition createTeam (name : jsstring) (st : AppState) : AppState :=
  handleCreateTeam (setTeamName name st).

End App.

(** ** Abrupt completions

    A JavaScript computation returns normally or throws.  The three errors
    the embedded code can raise are told apart. *)

Inductive JsError : Type := TypeError | SyntaxError | URIError.

Inductive Completion (A : Type) : Type :=
| Normal (a : A)
| Throw (e : JsError).
Arguments Normal {A} a.
Arguments Throw {A} e.

#[global] Instance Completion_ret : MRet Completion := @Normal.
#[global] Instance Completion_bind : MBind Completion :=
  λ A B f c, match c with Normal a => f a | Throw e => Throw e end.

(** [l.forEach(x => ...)] with a body that may throw. *)
Fixpoint forEachM {A S : Type} (body : S → A → Completion S)
  (l : list A) (s : S) : Completion S :=
  match l with
  | [] => Normal s
  | x :: l' => s' ← body s x; forEachM body l' s'
  end.

(** ** The roster projector

    [teamPlayers] is an object literal, so besides its own properties (the
    buckets) it has a prototype: [Object.prototype] at first, and whatever
    an assignment to the key ["__proto__"] installs afterwards.  A read
    [teamPlayers[key]] of a key that is not an own property is answered by
    the prototype chain. *)

Record TeamPlayers : Type := mkTeamPlayers
  { own : gmap jsstring (list Player.t);
    proto : option (list Player.t) }.

(** What a property read can produce. *)
Inductive Property : Type :=
| OwnBucket (a : list Player.t)
| ProtoBucket (a : list Player.t)
| InheritedNumber (n : nat)
| InheritedObject
| Undefined.

(** The string-keyed properties of [Object.prototype]; all are functions,
    except the accessor ["__proto__"]. *)
Definition objectPrototypeKeys : list jsstring :=
  [ js "constructor"; js "hasOwnProperty"; js "isPrototypeOf";
    js "propertyIsEnumerable"; js "toLocaleString"; js "toString";
    js "valueOf"; js "__defineGetter__"; js "__defineSetter__";
    js "__lookupGetter__"; js "__lookupSetter__"; js "__proto__" ].

(** The string-keyed properties of [Array.prototype] (ECMAScript 2023);
    all are functions.  They are consulted only once an array has been
    installed as the prototype of [teamPlayers]. *)
Definition arrayPrototypeKeys : list jsstring :=
  [ js "at"; js "concat"; js "constructor"; js "copyWithin"; js "entries";
    js "every"; js "fill"; js "filter"; js "find"; js "findIndex";
    js "findLast"; js "findLastIndex"; js "flat"; js "flatMap";
    js "forEach"; js "includes"; js "indexOf"; js "join"; js "keys";
    js "lastIndexOf"; js "map"; js "pop"; js "push"; js "reduce";
    js "reduceRight"; js "reverse"; js "shift"; js "slice"; js "some";
    js "sort"; js "splice"; js "toLocaleString"; js "toReversed";
    js "toSorted"; js "toSpliced"; js "toString"; js "unshift";
    js "values"; js "with" ].

(** The decimal digits of an array index, as a property key. *)
Definition indexKey (i : nat) : jsstring := js (pretty i).

Definition protoKey : jsstring := js "__proto__".

(** [teamPlayers[key]] *)
Definition getProperty (o : TeamPlayers) (key : jsstring) : Property :=
  match own o !! key with
  | Some a => OwnBucket a
  | None =>
      match proto o with
      | None =>
          if bool_decide (key ∈ objectPrototypeKeys)
          then InheritedObject else Undefined
      | Some a =>
          if bool_decide (key = protoKey) then ProtoBucket a
          else if bool_decide (key = js "length")
          then InheritedNumber (length a)
          else if bool_decide (key ∈ indexKey <$> seq 0 (length a))
          then InheritedObject
          else if bool_decide
                    (key ∈ arrayPrototypeKeys ++ objectPrototypeKeys)
          then InheritedObject
          else Undefined
      end
  end.

(** [!value] *)
Definition falsy (v : Property) : bool :=
  match v with
  | Undefined | InheritedNumber 0 => true
  | _ => false
  end.

(** [teamPlayers[key] = []].  The key ["__proto__"] reaches the setter of
    [Object.prototype] and replaces the prototype; any other key becomes
    (or overwrites) an own property. *)
Definition assignEmpty (key : jsstring) (o : TeamPlayers) : TeamPlayers :=
  if bool_decide (key = protoKey)
  then mkTeamPlayers (own o) (Some [])
  else mkTeamPlayers (<[key := []]> (own o)) (proto o).

(** [teamPlayers[key].push(player)]: only an array has [push]. *)
Definition pushTo (key : jsstring) (player : Player.t) (o : TeamPlayers)
  : Completion TeamPlayers :=
  match getProperty o key with
  | OwnBucket a =>
      Normal (mkTeamPlayers (<[key := a ++ [player]]> (own o)) (proto o))
  | ProtoBucket a => Normal (mkTeamPlayers (own o) (Some (a ++ [player])))
  | InheritedNumber _ | InheritedObject | Undefined => Throw TypeError
  end.

(** [player.teamId ?? 'bench'] *)
Definition bucketOf (player : Player.t) : jsstring :=
  default benchKey (Player.teamId player).

(** The body of [players.forEach]. *)
Definition placePlayer (o : TeamPlayers) (player : Player.t)
  : Completion TeamPlayers :=
  let bucket := bucketOf player in
  let o' := if falsy (getProperty o bucket) then assignEmpty bucket o else o in
  pushTo bucket player o'.

Section Roster.

(** [String.prototype.localeCompare] under the host's default locale: a
    negative, zero or positive number. *)
Variable localeCompare : jsstring → jsstring → Z.

(** [(a, b) => a.name.localeCompare(b.name)] *)
Definition byName (a b : Player.t) : Z :=
  localeCompare (Player.name a) (Player.name b).

(** [Array.prototype.sort] is stable: for a consistent comparator its
    result is the one sorted arrangement that keeps equal elements in their
    original order, which insertion from the right computes. *)
Fixpoint insertSorted (cmp : Player.t → Player.t → Z) (x : Player.t)
  (l : list Player.t) : list Player.t :=
  match l with
  | [] => [x]
  | y :: l' =>
      if (cmp x y <=? 0)%Z then x :: l else y :: insertSorted cmp x l'
  end.

Definition sort (cmp : Player.t → Player.t → Z) (l : list Player.t)
  : list Player.t :=
  foldr (insertSorted cmp) [] l.

(** [Object.values(teamPlayers).forEach(list => list.sort(...))]: the own
    buckets are sorted in place; an array installed as prototype is not an
    own value. *)
Definition sortBuckets (o : TeamPlayers) : TeamPlayers :=
  mkTeamPlayers (sort byName <$> own o) (proto o).

Definition roster (players : list Player.t) (teams : list Team.t)
  : Completion TeamPlayers :=
  let teamPlayers := mkTeamPlayers {[ benchKey := [] ]} None in
  let teamPlayers :=
    foldl (λ o team, assignEmpty (Team.id team) o) teamPlayers teams in
  teamPlayers ← forEachM placePlayer players teamPlayers;
  Normal (sortBuckets teamPlayers).

End Roster.

(** ** String primitives the persistence path uses *)

(** [s.startsWith(sep)] *)
Fixpoint startsWith (sep s : jsstring) : bool :=
  match sep, s with
  | [], _ => true
  | _ :: _, [] => false
  | a :: sep', b :: s' => bool_decide (a = b) && startsWith sep' s'
  end.

(** [s.split(sep)] for a separator string: the pieces between the
    occurrences of [sep], found left to right without overlap.  [skip]
    counts the code units of a matched separator still to pass over and
    [cur] holds the current piece, reversed. *)
Fixpoint splitFrom (sep : jsstring) (skip : nat) (cur s : jsstring)
  : list jsstring :=
  match s with
  | [] => [reverse cur]
  | c :: s' =>
      match skip with
      | S k => splitFrom sep k cur s'
      | O =>
          if startsWith sep s
          then reverse cur :: splitFrom sep (length sep - 1) [] s'
          else splitFrom sep 0 (c :: cur) s'
      end
  end.

Definition split (sep s : jsstring) : list jsstring :=
  match sep with
  | [] => (λ c, [c]) <$> s
  | _ :: _ => splitFrom sep 0 [] s
  end.

(** [pieces.join(sep)] *)
Fixpoint joinWith (sep : jsstring) (pieces : list jsstring) : jsstring :=
  match pieces with
  | [] => []
  | [piece] => piece
  | piece :: pieces' => piece ++ sep ++ joinWith sep pieces'
  end.

(** ** What [document.cookie] lists

    The name-value pairs of the cookies the page can read, in the order
    [document.cookie] lists them.  The browser's store behind the list
    follows further down. *)

Definition CookieJar : Type := list (jsstring * jsstring).

(** Reading [document.cookie]. *)
Definition cookieString (jar : CookieJar) : jsstring :=
  joinWith (js "; ") ((λ nv, nv.1 ++ js "=" ++ nv.2) <$> jar).

Fixpoint lookupCookie (name : jsstring) (jar : CookieJar)
  : option jsstring :=
  match jar with
  | [] => None
  | (n, v) :: jar' =>
      if bool_decide (n = name) then Some v else lookupCookie name jar'
  end.

(** The code units before the first [stop], and what follows it. *)
Fixpoint breakAt (stop : N) (s : jsstring) : jsstring * option jsstring :=
  match s with
  | [] => ([], None)
  | c :: s' =>
      if bool_decide (c = stop) then ([], Some s')
      else let '(before, after) := breakAt stop s' in (c :: before, after)
  end.

Definition isWsp (c : N) : bool := bool_decide (c = 0x20%N ∨ c = 0x9%N).

Fixpoint dropWsp (s : jsstring) : jsstring :=
  match s with
  | [] => []
  | c :: s' => if isWsp c then dropWsp s' else s
  end.

Definition stripWsp (s : jsstring) : jsstring :=
  reverse (dropWsp (reverse (dropWsp s))).

(** ** [encodeURIComponent] and [decodeURIComponent] *)

Definition inRange (lo hi c : N) : bool := ((lo <=? c) && (c <=? hi))%N.

Definition isHighSurrogate (c : N) : bool := inRange 0xD800 0xDBFF c.
Definition isLowSurrogate (c : N) : bool := inRange 0xDC00 0xDFFF c.

(** The code point of a surrogate pair. *)
Definition pairCodePoint (hi lo : N) : N :=
  (0x10000 + (hi - 0xD800) * 0x400 + (lo - 0xDC00))%N.

(** The UTF-16 code units of a code point. *)
Definition utf16Encode (cp : N) : jsstring :=
  if (cp <? 0x10000)%N then [cp]
  else [ (0xD800 + (cp - 0x10000) / 0x400)%N;
         (0xDC00 + (cp - 0x10000) mod 0x400)%N ].

(** The UTF-8 octets of a code point. *)
Definition utf8Encode (cp : N) : list N :=
  if (cp <? 0x80)%N then [cp]
  else if (cp <? 0x800)%N then
    [ (0xC0 + cp / 0x40)%N; (0x80 + cp mod 0x40)%N ]
  else if (cp <? 0x10000)%N then
    [ (0xE0 + cp / 0x1000)%N; (0x80 + (cp / 0x40) mod 0x40)%N;
      (0x80 + cp mod 0x40)%N ]
  else
    [ (0xF0 + cp / 0x40000)%N; (0x80 + (cp / 0x1000) mod 0x40)%N;
      (0x80 + (cp / 0x40) mod 0x40)%N; (0x80 + cp mod 0x40)%N ].

Definition hexDigitUpper (d : N) : N :=
  if (d <? 10)%N then (0x30 + d)%N else (0x41 + (d - 10))%N.

Definition hexDigitLower (d : N) : N :=
  if (d <? 10)%N then (0x30 + d)%N else (0x61 + (d - 10))%N.

Definition hexValue (c : N) : option N :=
  if inRange 0x30 0x39 c then Some (c - 0x30)%N
  else if inRange 0x41 0x46 c then Some (c - 0x41 + 10)%N
  else if inRange 0x61 0x66 c then Some (c - 0x61 + 10)%N
  else None.

(** [%XX] for one octet. *)
Definition percentEncode (octet : N) : jsstring :=
  [ 0x25%N; hexDigitUpper (octet / 16); hexDigitUpper (octet mod 16) ].

(** The characters [encodeURIComponent] leaves alone: letters, digits and
    [- _ . ! ~ * ' ( )]. *)
Definition uriUnreserved (c : N) : bool :=
  inRange 0x41 0x5A c || inRange 0x61 0x7A c || inRange 0x30 0x39 c
  || bool_decide
       (c ∈ [0x2D; 0x5F; 0x2E; 0x21; 0x7E; 0x2A; 0x27; 0x28; 0x29]%N).

Definition escapeCodePoint (cp : N) : jsstring :=
  mjoin (percentEncode <$> utf8Encode cp).

Fixpoint encodeURIComponent (s : jsstring) : Completion jsstring :=
  match s with
  | [] => Normal []
  | c :: s' =>
      if uriUnreserved c then
        r ← encodeURIComponent s'; Normal (c :: r)
      else if isHighSurrogate c then
        match s' with
        | lo :: s'' =>
            if isLowSurrogate lo then
              r ← encodeURIComponent s'';
              Normal (escapeCodePoint (pairCodePoint c lo) ++ r)
            else Throw URIError
        | [] => Throw URIError
        end
      else if isLowSurrogate c then Throw URIError
      else
        r ← encodeURIComponent s'; Normal (escapeCodePoint c ++ r)
  end.

(** Decoding runs in two passes over the text: the escapes are turned into
    octets, other code units are kept; then each run of octets is read as
    UTF-8. *)
Inductive UriToken : Type :=
| Literal (c : N)
| Octet (b : N).

Fixpoint unescapeOctets (s : jsstring) : Completion (list UriToken) :=
  match s with
  | [] => Normal []
  | c :: s' =>
      if bool_decide (c = 0x25%N) then
        match s' with
        | h1 :: h2 :: s'' =>
            match hexValue h1, hexValue h2 with
            | Some d1, Some d2 =>
                r ← unescapeOctets s''; Normal (Octet (d1 * 16 + d2) :: r)
            | _, _ => Throw URIError
            end
        | _ => Throw URIError
        end
      else
        r ← unescapeOctets s'; Normal (Literal c :: r)
  end.

Definition isContinuation (b : N) : bool := inRange 0x80 0xBF b.

(** A decoded value is accepted when it is the shortest encoding of a code
    point that is no surrogate. *)
Definition validScalar (least cp : N) : bool :=
  ((least <=? cp) && (cp <=? 0x10FFFF))%N
  && negb (inRange 0xD800 0xDFFF cp).

Fixpoint utf8Decode (ts : list UriToken) : Completion jsstring :=
  match ts with
  | [] => Normal []
  | Literal c :: ts' => r ← utf8Decode ts'; Normal (c :: r)
  | Octet b :: ts' =>
      if (b <? 0x80)%N then r ← utf8Decode ts'; Normal (b :: r)
      else if inRange 0xC0 0xDF b then
        match ts' with
        | Octet b1 :: ts'' =>
            let cp := ((b - 0xC0) * 0x40 + (b1 - 0x80))%N in
            if isContinuation b1 && validScalar 0x80 cp
            then r ← utf8Decode ts''; Normal (utf16Encode cp ++ r)
            else Throw URIError
        | _ => Throw URIError
        end
      else if inRange 0xE0 0xEF b then
        match ts' with
        | Octet b1 :: Octet b2 :: ts'' =>
            let cp := ((b - 0xE0) * 0x1000 + (b1 - 0x80) * 0x40
                       + (b2 - 0x80))%N in
            if isContinuation b1 && isContinuation b2
               && validScalar 0x800 cp
            then r ← utf8Decode ts''; Normal (utf16Encode cp ++ r)
            else Throw URIError
        | _ => Throw URIError
        end
      else if inRange 0xF0 0xF7 b then
        match ts' with
        | Octet b1 :: Octet b2 :: Octet b3 :: ts'' =>
            let cp := ((b - 0xF0) * 0x40000 + (b1 - 0x80) * 0x1000
                       + (b2 - 0x80) * 0x40 + (b3 - 0x80))%N in
            if isContinuation b1 && isContinuation b2 && isContinuation b3
               && validScalar 0x10000 cp
            then r ← utf8Decode ts''; Normal (utf16Encode cp ++ r)
            else Throw URIError
        | _ => Throw URIError
        end
      else Throw URIError
  end.

Definition decodeURIComponent (s : jsstring) : Completion jsstring :=
  ts ← unescapeOctets s; utf8Decode ts.

(** ** [getCookie]

    The page runs in a browser, so [document] is defined and the guard on
    [typeof document] is passed. *)

Definition getCookie (documentCookie name : jsstring)
  : Completion (option jsstring) :=
  let value := js "; " ++ documentCookie in
  let parts := split (js "; " ++ name ++ js "=") value in
  if bool_decide (length parts = 2) then
    let val := hd [] (split (js ";") (List.last parts [])) in
    if truthy val then
      decoded ← decodeURIComponent val; Normal (Some decoded)
    else Normal None
  else Normal None.

(** ** JSON

    The values [JSON.parse] builds.  A number is kept as the literal that
    denotes it.  An object lists its properties in creation order. *)

#[warnings="-register-all"]
Inductive Json : Type :=
| JNull
| JBool (b : bool)
| JNumber (literal : jsstring)
| JString (s : jsstring)
| JArray (items : list Json)
| JObject (fields : list (jsstring * Json)).

(** *** [JSON.stringify] on the declared types

    The serializer is the one of ECMAScript 2019 and later, which escapes
    unpaired surrogates. *)

(** [\uXXXX] with lower-case digits. *)
Definition unicodeEscape (c : N) : jsstring :=
  [ 0x5C; 0x75; hexDigitLower (c / 4096); hexDigitLower ((c / 256) mod 16);
    hexDigitLower ((c / 16) mod 16); hexDigitLower (c mod 16) ]%N.

(** The two-character escapes of QuoteJSONString. *)
Definition shortEscape (c : N) : option N :=
  if (c =? 0x8)%N then Some 0x62%N
  else if (c =? 0x9)%N then Some 0x74%N
  else if (c =? 0xA)%N then Some 0x6E%N
  else if (c =? 0xC)%N then Some 0x66%N
  else if (c =? 0xD)%N then Some 0x72%N
  else if (c =? 0x22)%N then Some 0x22%N
  else if (c =? 0x5C)%N then Some 0x5C%N
  else None.

(** The body of QuoteJSONString: the string is read by code points; control
    characters and unpaired surrogates are escaped, a surrogate pair and
    every other code unit are copied. *)
Fixpoint escapeJSON (s : jsstring) : jsstring :=
  match s with
  | [] => []
  | c :: s1 =>
      match shortEscape c with
      | Some e => 0x5C%N :: e :: escapeJSON s1
      | None =>
          if (c <? 0x20)%N then unicodeEscape c ++ escapeJSON s1
          else if isHighSurrogate c then
            match s1 with
            | lo :: s2 =>
                if isLowSurrogate lo then c :: lo :: escapeJSON s2
                else unicodeEscape c ++ escapeJSON s1
            | [] => unicodeEscape c
            end
          else if isLowSurrogate c then unicodeEscape c ++ escapeJSON s1
          else c :: escapeJSON s1
      end
  end.

Definition quoteJSONString (s : jsstring) : jsstring :=
  [0x22%N] ++ escapeJSON s ++ [0x22%N].

Definition serializeObject (fields : list (jsstring * jsstring)) : jsstring :=
  js "{"
  ++ joinWith (js ",")
       ((λ kv, quoteJSONString kv.1 ++ js ":" ++ kv.2) <$> fields)
  ++ js "}".

Definition serializeArray (items : list jsstring) : jsstring :=
  js "[" ++ joinWith (js ",") items ++ js "]".

Definition stringifyNullable (v : option jsstring) : jsstring :=
  match v with
  | None => js "null"
  | Some s => quoteJSONString s
  end.

Definition stringifyPlayer (p : Player.t) : jsstring :=
  serializeObject
    [ (js "id", quoteJSONString (Player.id p));
      (js "name", quoteJSONString (Player.name p));
      (js "color", quoteJSONString (Player.color p));
      (js "teamId", stringifyNullable (Player.teamId p)) ].

Definition stringifyTeam (tm : Team.t) : jsstring :=
  serializeObject
    [ (js "id", quoteJSONString (Team.id tm));
      (js "name", quoteJSONString (Team.name tm));
      (js "accent", quoteJSONString (Team.accent tm)) ].

(** [JSON.stringify(players)] and [JSON.stringify(teams)] *)
Definition stringifyPlayers (ps : list Player.t) : jsstring :=
  serializeArray (stringifyPlayer <$> ps).

Definition stringifyTeams (tms : list Team.t) : jsstring :=
  serializeArray (stringifyTeam <$> tms).

(** The JSON values the declared types denote. *)
Definition nullableJson (v : option jsstring) : Json :=
  match v with
  | None => JNull
  | Some s => JString s
  end.

Definition playerJson (p : Player.t) : Json :=
  JObject [ (js "id", JString (Player.id p));
            (js "name", JString (Player.name p));
            (js "color", JString (Player.color p));
            (js "teamId", nullableJson (Player.teamId p)) ].

Definition teamJson (tm : Team.t) : Json :=
  JObject [ (js "id", JString (Team.id tm));
            (js "name", JString (Team.name tm));
            (js "accent", JString (Team.accent tm)) ].

Definition playersJson (ps : list Player.t) : Json :=
  JArray (playerJson <$> ps).

Definition teamsJson (tms : list Team.t) : Json := JArray (teamJson <$> tms).

(** *** [JSON.parse] *)

Definition isJsonWhitespace (c : N) : bool :=
  bool_decide (c ∈ [0x9; 0xA; 0xD; 0x20]%N).

Fixpoint skipWhitespace (s : jsstring) : jsstring :=
  match s with
  | [] => []
  | c :: s1 => if isJsonWhitespace c then skipWhitespace s1 else s
  end.

Definition hex4 (h1 h2 h3 h4 : N) : option N :=
  d1 ← hexValue h1; d2 ← hexValue h2;
  d3 ← hexValue h3; d4 ← hexValue h4;
  Some (((d1 * 16 + d2) * 16 + d3) * 16 + d4)%N.

(** What a backslash followed by [e] stands for, [u] apart. *)
Definition unescapeShort (e : N) : option N :=
  if (e =? 0x22)%N then Some 0x22%N
  else if (e =? 0x5C)%N then Some 0x5C%N
  else if (e =? 0x2F)%N then Some 0x2F%N
  else if (e =? 0x62)%N then Some 0x8%N
  else if (e =? 0x66)%N then Some 0xC%N
  else if (e =? 0x6E)%N then Some 0xA%N
  else if (e =? 0x72)%N then Some 0xD%N
  else if (e =? 0x74)%N then Some 0x9%N
  else None.

(** A string literal after its opening quote: the string and the text that
    follows the closing quote. *)
Fixpoint parseStringBody (s : jsstring) : Completion (jsstring * jsstring) :=
  match s with
  | [] => Throw SyntaxError
  | c :: s1 =>
      if (c =? 0x22)%N then Normal ([], s1)
      else if (c =? 0x5C)%N then
        match s1 with
        | [] => Throw SyntaxError
        | e :: s2 =>
            if (e =? 0x75)%N then
              match s2 with
              | h1 :: h2 :: h3 :: h4 :: s3 =>
                  match hex4 h1 h2 h3 h4 with
                  | Some u => r ← parseStringBody s3; Normal (u :: r.1, r.2)
                  | None => Throw SyntaxError
                  end
              | _ => Throw SyntaxError
              end
            else
              match unescapeShort e with
              | Some u => r ← parseStringBody s2; Normal (u :: r.1, r.2)
              | None => Throw SyntaxError
              end
        end
      else if (c <? 0x20)%N then Throw SyntaxError
      else r ← parseStringBody s1; Normal (c :: r.1, r.2)
  end.

Definition isDigit (c : N) : bool := inRange 0x30 0x39 c.

Fixpoint spanDigits (s : jsstring) : jsstring * jsstring :=
  match s with
  | [] => ([], [])
  | c :: s1 =>
      if isDigit c
      then let '(digits, rest) := spanDigits s1 in (c :: digits, rest)
      else ([], s)
  end.

(** At least one digit. *)
Definition parseDigits (s : jsstring) : Completion (jsstring * jsstring) :=
  match spanDigits s with
  | ([], _) => Throw SyntaxError
  | (digits, rest) => Normal (digits, rest)
  end.

(** A number literal: an optional minus, an integer part without leading
    zero, an optional fraction and an optional exponent. *)
Definition parseNumber (s : jsstring) : Completion (jsstring * jsstring) :=
  let '(sign, s) :=
    match s with
    | c :: s1 => if (c =? 0x2D)%N then ([c], s1) else ([], s)
    | [] => ([], s)
    end in
  int ← match s with
         | c :: s1 =>
             if (c =? 0x30)%N then Normal ([c], s1)
             else if isDigit c then parseDigits s
             else Throw SyntaxError
         | [] => Throw SyntaxError
         end;
  frac ← match int.2 with
          | c :: s1 =>
              if (c =? 0x2E)%N
              then d ← parseDigits s1; Normal (c :: d.1, d.2)
              else Normal ([], int.2)
          | [] => Normal ([], int.2)
          end;
  exp ← match frac.2 with
         | c :: s1 =>
             if (c =? 0x65)%N || (c =? 0x45)%N then
               let '(esign, s2) :=
                 match s1 with
                 | g :: t =>
                     if (g =? 0x2B)%N || (g =? 0x2D)%N
                     then ([g], t) else ([], s1)
                 | [] => ([], s1)
                 end in
               d ← parseDigits s2; Normal (c :: esign ++ d.1, d.2)
             else Normal ([], frac.2)
         | [] => Normal ([], frac.2)
         end;
  Normal (sign ++ int.1 ++ frac.1 ++ exp.1, exp.2).

(** Defining a property: an existing key keeps its place and takes the new
    value, a new key goes last. *)
Fixpoint setField (key : jsstring) (v : Json)
  (fields : list (jsstring * Json)) : list (jsstring * Json) :=
  match fields with
  | [] => [(key, v)]
  | (k, w) :: fields1 =>
      if bool_decide (k = key) then (k, v) :: fields1
      else (k, w) :: setField key v fields1
  end.

(** Recursive descent.  Every call passes a smaller [fuel]; [JSON_parse]
    supplies more than any text can use. *)
Fixpoint parseValue (fuel : nat) (s : jsstring)
  : Completion (Json * jsstring) :=
  match fuel with
  | O => Throw SyntaxError
  | S fuel1 =>
      match skipWhitespace s with
      | [] => Throw SyntaxError
      | c :: s1 =>
          if (c =? 0x22)%N then
            r ← parseStringBody s1; Normal (JString r.1, r.2)
          else if (c =? 0x5B)%N then
            match skipWhitespace s1 with
            | d :: s2 =>
                if (d =? 0x5D)%N then Normal (JArray [], s2)
                else parseElements fuel1 (d :: s2) []
            | [] => Throw SyntaxError
            end
          else if (c =? 0x7B)%N then
            match skipWhitespace s1 with
            | d :: s2 =>
                if (d =? 0x7D)%N then Normal (JObject [], s2)
                else parseMembers fuel1 (d :: s2) []
            | [] => Throw SyntaxError
            end
          else if startsWith (js "true") (c :: s1)
          then Normal (JBool true, drop 4 (c :: s1))
          else if startsWith (js "false") (c :: s1)
          then Normal (JBool false, drop 5 (c :: s1))
          else if startsWith (js "null") (c :: s1)
          then Normal (JNull, drop 4 (c :: s1))
          else if (c =? 0x2D)%N || isDigit c then
            r ← parseNumber (c :: s1); Normal (JNumber r.1, r.2)
          else Throw SyntaxError
      end
  end

with parseElements (fuel : nat) (s : jsstring) (items : list Json)
  : Completion (Json * jsstring) :=
  match fuel with
  | O => Throw SyntaxError
  | S fuel1 =>
      r ← parseValue fuel1 s;
      match skipWhitespace r.2 with
      | c :: s1 =>
          if (c =? 0x2C)%N then parseElements fuel1 s1 (items ++ [r.1])
          else if (c =? 0x5D)%N then Normal (JArray (items ++ [r.1]), s1)
          else Throw SyntaxError
      | [] => Throw SyntaxError
      end
  end

with parseMembers (fuel : nat) (s : jsstring)
  (fields : list (jsstring * Json)) : Completion (Json * jsstring) :=
  match fuel with
  | O => Throw SyntaxError
  | S fuel1 =>
      match skipWhitespace s with
      | q :: s1 =>
          if (q =? 0x22)%N then
            key ← parseStringBody s1;
            match skipWhitespace key.2 with
            | colon :: s2 =>
                if (colon =? 0x3A)%N then
                  r ← parseValue fuel1 s2;
                  let fields1 := setField key.1 r.1 fields in
                  match skipWhitespace r.2 with
                  | c :: s3 =>
                      if (c =? 0x2C)%N then parseMembers fuel1 s3 fields1
                      else if (c =? 0x7D)%N
                      then Normal (JObject fields1, s3)
                      else Throw SyntaxError
                  | [] => Throw SyntaxError
                  end
                else Throw SyntaxError
            | [] => Throw SyntaxError
            end
          else Throw SyntaxError
      | [] => Throw SyntaxError
      end
  end.

Definition JSON_parse (text : jsstring) : Completion Json :=
  r ← parseValue (2 * length text + 2) text;
  match skipWhitespace r.2 with
  | [] => Normal r.1
  | _ :: _ => Throw SyntaxError
  end.

Arguments JSON_parse : simpl never.
Arguments decodeURIComponent : simpl never.
Arguments encodeURIComponent : simpl never.

(** ** The cookies the browser holds

    [document.cookie] reads and writes the cookie store of the browser.
    The model follows RFC 6265 (sections 5.1.4 and 5.2 to 5.4) and, for the
    size a cookie may have, its revision 6265bis.  A cookie is known by its
    name, its domain and its path together: an assignment replaces the
    cookie of the same name, domain and path, or else adds one, so the
    store can hold several cookies of one name.  A cookie whose name and
    value together exceed 4096 octets is not stored.  A cookie that was
    set with [HttpOnly] is not listed, and an assignment by a script does
    not replace it.  [document.cookie] lists the cookies whose path
    matches the path of the page, those with longer paths first.

    Left to the browser, and outside the model: how cookies expire as
    time passes (the page writes with a [max-age] of a year), which
    cookies are evicted once a site holds too many, the date of an
    [Expires] attribute, and whether a [Domain] attribute names a domain
    the page may set cookies for (it is taken to).  The page is taken to
    come from a secure origin with cookies enabled, where a cookie set
    with [Secure] is like any other, and to be the only writer of the
    store while it runs. *)

Module Cookie.
(** [domain] is [None] for a host-only cookie, one set without a [Domain]
    attribute. *)
Record t : Type := mk
  { name : jsstring;
    value : jsstring;
    domain : option jsstring;
    path : jsstring;
    httpOnly : bool }.
End Cookie.

(** The cookies the browser holds whose domain matches the host of the
    page, in the order [document.cookie] lists them, and the path of the
    page: [location.pathname] is ["/"] followed by [pathTail]. *)
Record CookieStore : Type := mkStore
  { pathTail : jsstring;
    held : list Cookie.t }.

Definition requestPath (store : CookieStore) : jsstring :=
  0x2F%N :: pathTail store.

(** The code units before the last [stop], when there is one. *)
Fixpoint beforeLast (stop : N) (s : jsstring) : option jsstring :=
  match s with
  | [] => None
  | c :: s' =>
      match beforeLast stop s' with
      | Some before => Some (c :: before)
      | None => if bool_decide (c = stop) then Some [] else None
      end
  end.

(** The default path of a cookie (section 5.1.4): the path of the page up
    to its last [/], or ["/"] when that is the leading one. *)
Definition defaultPath (store : CookieStore) : jsstring :=
  match beforeLast 0x2F (pathTail store) with
  | Some directory => 0x2F%N :: directory
  | None => js "/"
  end.

(** Whether the path of a request matches the path of a cookie (section
    5.1.4): they are equal, or the cookie's path is a prefix that ends in
    [/] or is followed by [/]. *)
Definition pathMatch (request cookiePath : jsstring) : bool :=
  startsWith cookiePath request
  && (bool_decide (length cookiePath = length request)
      || bool_decide (last cookiePath = Some 0x2F%N)
      || bool_decide (request !! length cookiePath = Some 0x2F%N)).

(** Whether a script of a page at the path [request] sees a cookie. *)
Definition visible (request : jsstring) (cookie : Cookie.t) : bool :=
  negb (Cookie.httpOnly cookie) && pathMatch request (Cookie.path cookie).

Definition cookiePair (cookie : Cookie.t) : jsstring * jsstring :=
  (Cookie.name cookie, Cookie.value cookie).

Definition listedAt (request : jsstring) (cookies : list Cookie.t)
  : CookieJar :=
  cookiePair <$> filter (λ cookie, visible request cookie = true) cookies.

(** Reading [document.cookie]: the pairs of the cookies a script of the
    page sees. *)
Definition listed (store : CookieStore) : CookieJar :=
  listedAt (requestPath store) (held store).

(** The length of a string in UTF-8 octets; an unpaired surrogate is
    written as U+FFFD. *)
Fixpoint octetLength (s : jsstring) : nat :=
  match s with
  | [] => 0
  | c :: s1 =>
      if isHighSurrogate c then
        match s1 with
        | lo :: s2 =>
            if isLowSurrogate lo then 4 + octetLength s2
            else 3 + octetLength s1
        | [] => 3
        end
      else if isLowSurrogate c then 3 + octetLength s1
      else length (utf8Encode c) + octetLength s1
  end.

(** *** The attributes of a cookie string (section 5.2) *)

Record CookieAttributes : Type := mkAttributes
  { attrDomain : option jsstring;
    attrPath : option jsstring;
    attrExpired : bool;
    attrHttpOnly : bool }.

Definition noAttributes : CookieAttributes :=
  mkAttributes None None false false.

Definition lowerCase (c : N) : N :=
  if inRange 0x41 0x5A c then (c + 0x20)%N else c.

(** The value of [Max-Age]: digits, possibly after a [-]; the cookie
    expires at once when the number is not positive. *)
Definition maxAgeExpired (v : jsstring) : option bool :=
  match v with
  | [] => None
  | c :: digits =>
      if bool_decide (c = 0x2D%N) then
        if forallb isDigit digits then Some true else None
      else if forallb isDigit v
           then Some (forallb (λ d, bool_decide (d = 0x30%N)) v)
           else None
  end.

(** The value of [Domain] without a leading dot, in lower case. *)
Definition cookieDomain (v : jsstring) : jsstring :=
  lowerCase <$> match v with
                | c :: v' => if bool_decide (c = 0x2E%N) then v' else v
                | [] => []
                end.

(** One attribute, read into what the earlier ones gave: the name is
    matched without regard to case, a later attribute overrides an
    earlier one of the same name, and an unknown name is passed over.  A
    [Path] that does not start with [/] stands for the default path; an
    empty [Domain] and a [Max-Age] that is no number are passed over. *)
Definition readAttribute (attrs : CookieAttributes) (piece : jsstring)
  : CookieAttributes :=
  let attrName := lowerCase <$> stripWsp (breakAt 0x3D piece).1 in
  let attrValue := stripWsp (default [] (breakAt 0x3D piece).2) in
  if bool_decide (attrName = js "path") then
    mkAttributes (attrDomain attrs)
      (if startsWith (js "/") attrValue then Some attrValue else None)
      (attrExpired attrs) (attrHttpOnly attrs)
  else if bool_decide (attrName = js "domain") then
    if truthy attrValue then
      mkAttributes
        (if truthy (cookieDomain attrValue)
         then Some (cookieDomain attrValue) else None)
        (attrPath attrs) (attrExpired attrs) (attrHttpOnly attrs)
    else attrs
  else if bool_decide (attrName = js "max-age") then
    match maxAgeExpired attrValue with
    | Some expired =>
        mkAttributes (attrDomain attrs) (attrPath attrs) expired
          (attrHttpOnly attrs)
    | None => attrs
    end
  else if bool_decide (attrName = js "httponly") then
    mkAttributes (attrDomain attrs) (attrPath attrs) (attrExpired attrs) true
  else attrs.

Definition readAttributes (unparsed : option jsstring) : CookieAttributes :=
  match unparsed with
  | Some text => foldl readAttribute noAttributes (split (js ";") text)
  | None => noAttributes
  end.

(** *** Storing a cookie (section 5.3) *)

Definition sameKey (a b : Cookie.t) : bool :=
  bool_decide (Cookie.name a = Cookie.name b ∧
               Cookie.domain a = Cookie.domain b ∧
               Cookie.path a = Cookie.path b).

(** The cookie of the same name, domain and path replaced, when there is
    one: the new cookie takes the place, and with it the creation time,
    of the old one.  An old cookie that was set with [HttpOnly] stays as
    it is. *)
Fixpoint replaceCookie (cookie : Cookie.t) (cookies : list Cookie.t)
  : option (list Cookie.t) :=
  match cookies with
  | [] => None
  | old :: cookies' =>
      if sameKey old cookie then
        Some (if Cookie.httpOnly old then cookies else cookie :: cookies')
      else (old ::.) <$> replaceCookie cookie cookies'
  end.

(** The place of a new cookie in the order of [document.cookie] (section
    5.4): behind the cookies whose path is at least as long as its own,
    all of which are older. *)
Fixpoint insertCookie (cookie : Cookie.t) (cookies : list Cookie.t)
  : list Cookie.t :=
  match cookies with
  | [] => [cookie]
  | old :: cookies' =>
      if length (Cookie.path old) <? length (Cookie.path cookie)
      then cookie :: cookies
      else old :: insertCookie cookie cookies'
  end.

Definition storeCookie (cookie : Cookie.t) (store : CookieStore)
  : CookieStore :=
  mkStore (pathTail store)
    (match replaceCookie cookie (held store) with
     | Some cookies => cookies
     | None => insertCookie cookie (held store)
     end).

(** A cookie that arrives expired removes the cookie of its key. *)
Definition removeCookie (cookie : Cookie.t) (store : CookieStore)
  : CookieStore :=
  mkStore (pathTail store)
    (filter (λ old, sameKey old cookie = false ∨ Cookie.httpOnly old = true)
       (held store)).

(** Assigning [document.cookie = text].  The name-value pair ends at the
    first [;], the name at the first [=]; both are stripped of surrounding
    spaces and tabs.  The assignment is ignored when the pair has no [=]
    or an empty name, when name and value exceed 4096 octets, and when the
    text asks for [HttpOnly], which a script cannot set. *)
Definition setCookie (text : jsstring) (store : CookieStore) : CookieStore :=
  let pair := (breakAt 0x3B text).1 in
  let attrs := readAttributes (breakAt 0x3B text).2 in
  match breakAt 0x3D pair with
  | (name, Some value) =>
      if truthy (stripWsp name) then
        if 4096 <? octetLength (stripWsp name) + octetLength (stripWsp value)
        then store
        else if attrHttpOnly attrs then store
        else
          let cookie :=
            Cookie.mk (stripWsp name) (stripWsp value) (attrDomain attrs)
              (default (defaultPath store) (attrPath attrs)) false in
          if attrExpired attrs then removeCookie cookie store
          else storeCookie cookie store
      else store
  | (_, None) => store
  end.

(** ** Loading and saving the collections *)

(** The initializer shared by both [useState] calls: the saved text, when
    there is one and it parses, else the fallback.  The call of
    [getCookie] stands outside the [try]. *)
Definition initialCollection (slot : jsstring) (fallback : Json)
  (jar : CookieJar) : Completion Json :=
  saved ← getCookie (cookieString jar) slot;
  match saved with
  | Some text =>
      if truthy text then
        match JSON_parse text with
        | Normal v => Normal v
        | Throw _ => Normal fallback
        end
      else Normal fallback
  | None => Normal fallback
  end.

Definition initialPlayers (rnd : nat → jsstring) (jar : CookieJar)
  : Completion Json :=
  initialCollection (js "players") (playersJson (seededPlayers rnd)) jar.

Definition initialTeamsState (jar : CookieJar) : Completion Json :=
  initialCollection (js "teams") (teamsJson initialTeams) jar.

(** The two persistence effects. *)
Definition persist (slot text : jsstring) (store : CookieStore)
  : Completion CookieStore :=
  encoded ← encodeURIComponent text;
  Normal (setCookie (slot ++ js "=" ++ encoded
                       ++ js "; path=/; max-age=31536000") store).

Definition persistPlayers (ps : list Player.t) (store : CookieStore)
  : Completion CookieStore :=
  persist (js "players") (stringifyPlayers ps) store.

Definition persistTeams (tms : list Team.t) (store : CookieStore)
  : Completion CookieStore :=
  persist (js "teams") (stringifyTeams tms) store.

(** The shape the declared type [Player[]] asks of a value: an array of
    objects with string [id], [name], [color] and a string or [null]
    [teamId].  The initializers do not check it. *)
Fixpoint fieldOf (key : jsstring) (fields : list (jsstring * Json))
  : option Json :=
  match fields with
  | [] => None
  | (k, v) :: fields1 =>
      if bool_decide (k = key) then Some v else fieldOf key fields1
  end.

Definition asString (v : Json) : option jsstring :=
  match v with
  | JString s => Some s
  | _ => None
  end.

Definition asNullable (v : Json) : option (option jsstring) :=
  match v with
  | JNull => Some None
  | JString s => Some (Some s)
  | _ => None
  end.

Definition asPlayer (v : Json) : option Player.t :=
  match v with
  | JObject fields =>
      id ← fieldOf (js "id") fields ≫= asString;
      name ← fieldOf (js "name") fields ≫= asString;
      color ← fieldOf (js "color") fields ≫= asString;
      teamId ← fieldOf (js "teamId") fields ≫= asNullable;
      Some (Player.mk id name color teamId)
  | _ => None
  end.

Definition asPlayers (v : Json) : option (list Player.t) :=
  match v with
  | JArray items => mapM asPlayer items
  | _ => None
  end.

Definition asTeam (v : Json) : option Team.t :=
  match v with
  | JObject fields =>
      id ← fieldOf (js "id") fields ≫= asString;
      name ← fieldOf (js "name") fields ≫= asString;
      accent ← fieldOf (js "accent") fields ≫= asString;
      Some (Team.mk id name accent)
  | _ => None
  end.

Definition asTeams (v : Json) : option (list Team.t) :=
  match v with
  | JArray items => mapM asTeam items
  | _ => None
  end.

(** ** The theme

    [darkMode] is read from the cookie text by a substring search, applied
    to the class list of the root element, and written back by
    [toggleDarkMode]. *)

(** [s.includes(needle)] *)
Fixpoint includes (needle s : jsstring) : bool :=
  startsWith needle s
  || match s with
     | [] => false
     | _ :: s' => includes needle s'
     end.

(** The part of [document] the page touches: the cookies and the class
    tokens of [document.documentElement]. *)
Module Document.
Record t : Type := mk
  { cookie : CookieStore;
    classList : list jsstring }.
End Document.

(** [classList.add(token)]: a token already present is not added again. *)
Definition classListAdd (token : jsstring) (tokens : list jsstring)
  : list jsstring :=
  if bool_decide (token ∈ tokens) then tokens else tokens ++ [token].

(** [classList.remove(token)] *)
Definition classListRemove (token : jsstring) (tokens : list jsstring)
  : list jsstring :=
  filter (λ t, t ≠ token) tokens.

(** The initializer of [darkMode]. *)
Definition initialDarkMode (doc : Document.t) : bool :=
  includes (js "theme=dark") (cookieString (listed (Document.cookie doc))).

(** The body of the [useMemo] that depends on [darkMode]. *)
Definition applyTheme (darkMode : bool) (doc : Document.t) : Document.t :=
  Document.mk (Document.cookie doc)
    (if darkMode then classListAdd (js "dark") (Document.classList doc)
     else classListRemove (js "dark") (Document.classList doc)).

(** The updater [toggleDarkMode] hands to [setDarkMode]: the next value,
    and the document after its two writes. *)
Definition toggleDarkMode (prev : bool) (doc : Document.t)
  : bool * Document.t :=
  let next := negb prev in
  if next then
    (next,
     Document.mk
       (setCookie (js "theme=dark; path=/; max-age=31536000")
          (Document.cookie doc))
       (classListAdd (js "dark") (Document.classList doc)))
  else
    (next,
     Document.mk
       (setCookie (js "theme=light; path=/; max-age=31536000")
          (Document.cookie doc))
       (classListRemove (js "dark") (Document.classList doc))).

(** The theme across renders: the state [darkMode] and the document. *)
Record ThemeState : Type := mkTheme
  { darkMode : bool;
    document : Document.t }.

(** The first render: the initializer, then the [useMemo]. *)
Definition mountTheme (doc : Document.t) : ThemeState :=
  let dark := initialDarkMode doc in
  mkTheme dark (applyTheme dark doc).

(** A click on the theme button: the updater, then the [useMemo] of the
    render that follows. *)
Definition clickToggle (t : ThemeState) : ThemeState :=
  let '(next, doc) := toggleDarkMode (darkMode t) (document t) in
  mkTheme next (applyTheme next doc).

(** ** What the render hands to the columns *)

Module TeamColumn.
(** The props of a column that carry data: [children] is the hint shown
    under an empty bench. *)
Record t : Type := mk
  { title : jsstring;
    subtitle : jsstring;
    accent : jsstring;
    players : list Player.t;
    hovered : bool;
    children : bool }.
End TeamColumn.

(** [roster[key] ?? []] as [TeamColumn] uses it: the column maps over the
    value, and only an array has [map]. *)
Definition playersProp (r : TeamPlayers) (key : jsstring)
  : Completion (list Player.t) :=
  match getProperty r key with
  | OwnBucket a | ProtoBucket a => Normal a
  | Undefined => Normal []
  | InheritedNumber _ | InheritedObject => Throw TypeError
  end.

(** A count inside a template literal. *)
Definition numberText (n : nat) : jsstring := js (pretty n).

Section Board.

Variable localeCompare : jsstring → jsstring → Z.

Definition benchColumn (r : TeamPlayers) (st : AppState)
  : Completion TeamColumn.t :=
  ps ← playersProp r benchKey;
  Normal (TeamColumn.mk (js "Free Players") (js "Drag into any team")
            (js "#c5c6ce") ps
            (bool_decide (hoveredZone st = Some benchKey))
            (bool_decide (length ps = 0))).

Definition teamColumn (r : TeamPlayers) (st : AppState) (team : Team.t)
  : Completion TeamColumn.t :=
  ps ← playersProp r (Team.id team);
  Normal (TeamColumn.mk (Team.name team)
            (numberText (length ps) ++ js " player(s)")
            (Team.accent team) ps
            (bool_decide (hoveredZone st = Some (Team.id team)))
            false).

(** The columns of the board, left to right. *)
Definition board (st : AppState) : Completion (list TeamColumn.t) :=
  r ← roster localeCompare (players st) (teams st);
  bench ← benchColumn r st;
  columns ← mapM (teamColumn r st) (teams st);
  Normal (bench :: columns).

End Board.

(** The text of the live region. *)
Definition liveRegion (st : AppState) : jsstring :=
  numberText (length (players st)) ++ js " players across "
  ++ numberText (length (teams st)) ++ js " team(s)".

(** ** The page with its persistence effects

    A render computes the board; once it is committed React runs each
    effect whose dependency is a new array.  A handler that calls a setter
    builds a new array even when the contents stay the same, so whether an
    effect runs is an input of the step; it always runs when the
    collection changed.  A render that throws commits nothing, and no
    effect runs. *)

Record Page : Type := mkPage
  { appState : AppState;
    cookies : CookieStore }.

Definition runEffects (playersChanged teamsChanged : bool) (st : AppState)
  (store : CookieStore) : Completion CookieStore :=
  store1 ← (if playersChanged then persistPlayers (players st) store
            else Normal store);
  if teamsChanged then persistTeams (teams st) store1 else Normal store1.

Section Session.

Variable localeCompare : jsstring → jsstring → Z.
Variable rnd : nat → jsstring.

(** A render and the effects that follow it. *)
Definition commit (playersChanged teamsChanged : bool) (st : AppState)
  (store : CookieStore) : Completion Page :=
  board localeCompare st;;
  store' ← runEffects playersChanged teamsChanged st store;
  Normal (mkPage st store').

(** The first render: both effects run. *)
Definition mountPage (st : AppState) (store : CookieStore)
  : Completion Page :=
  commit true true st store.

Definition pageEvent (p : Page) (step : Event * bool * bool)
  : Completion Page :=
  let '(ev, playersChanged, teamsChanged) := step in
  commit playersChanged teamsChanged (dispatch rnd (appState p) ev)
    (cookies p).

Definition session (p : Page) (steps : list (Event * bool * bool))
  : Completion Page :=
  forEachM pageEvent steps p.

End Session.

(** ** Vocabulary of the specification *)

(** Every player's [teamId] is [null] or the id of a team of the current
    collection. *)
Definition referentialIntegrity (st : AppState) : Prop :=
  ∀ p, p ∈ players st →
    Player.teamId p = None ∨
    ∃ tm, tm ∈ teams st ∧ Player.teamId p = Some (Team.id tm).

(** A name the creation forms and the rename inputs reject. *)
Definition whitespaceOnly (s : jsstring) : Prop :=
  Forall (λ c, isWhiteSpace c = true) s.

(** The events whose handlers never call [setTeams]. *)
Definition keepsTeams (ev : Event) : Prop :=
  match ev with
  | SubmitTeamForm | ClickRemoveTeam _ | SubmitTeamRename _ _
  | ClickReset _ => False
  | _ => True
  end.

(** The positions at which two player lists of equal length differ. *)
Definition changedPlayers (before after : list Player.t)
  : list (Player.t * Player.t) :=
  filter (λ pp, pp.1 ≠ pp.2) (zip before after).

(** A random source for the worked examples: the [k]-th id is ["id-"]
    followed by [k] letters [x]. *)
Definition sampleRnd (k : nat) : jsstring := js "id-" ++ replicate k 0x78%N.

(** A comparator is consistent when its sign is antisymmetric and the
    order it induces is transitive, as ECMAScript requires of the function
    handed to [sort], and ECMA-402 of [localeCompare]. *)
Definition consistentComparator (cmp : jsstring → jsstring → Z) : Prop :=
  (∀ a b, (cmp a b < 0)%Z ↔ (0 < cmp b a)%Z) ∧
  (∀ a b c, (cmp a b ≤ 0)%Z → (cmp b c ≤ 0)%Z → (cmp a c ≤ 0)%Z).

(** Ascending by name under a comparator. *)
Definition nameOrder (cmp : jsstring → jsstring → Z) (a b : Player.t)
  : Prop :=
  (cmp (Player.name a) (Player.name b) ≤ 0)%Z.

(** No team id and no bucket key of a player (its [teamId], or ["bench"])
    is the name of a property that [teamPlayers] inherits from
    [Object.prototype]. *)
Definition plainKeys (players : list Player.t) (teams : list Team.t)
  : Prop :=
  Forall (λ tm, Team.id tm ∉ objectPrototypeKeys) teams ∧
  Forall (λ p, bucketOf p ∉ objectPrototypeKeys) players.

#[global] Instance plainKeys_dec players teams :
  Decision (plainKeys players teams).
Proof. unfold plainKeys. apply _. Defined.

(** The buckets before any player is placed, and the placement of one
    player, when no key is an inherited name. *)
Definition emptyBuckets (teams : list Team.t)
  : gmap jsstring (list Player.t) :=
  foldl (λ m team, <[Team.id team := []]> m) {[ benchKey := [] ]} teams.

Definition appendToBucket (m : gmap jsstring (list Player.t))
  (p : Player.t) : gmap jsstring (list Player.t) :=
  <[bucketOf p := default [] (m !! bucketOf p) ++ [p]]> m.

(** All the players of a grouping, bucket after bucket. *)
Definition allBuckets (m : gmap jsstring (list Player.t)) : list Player.t :=
  concat (snd <$> map_to_list m).

(** A player list that breaks referential integrity with the name of an
    inherited property. *)
Definition strayPlayers : list Player.t :=
  [ Player.mk (js "p1") (js "Nova") (js "#ff7b7b") (Some (js "constructor")) ].

(** A listing with one cookie per name; no [;] in a name or a value and
    no [=] in a name, as the parser of the browser leaves them. *)
Definition wfPair (nv : jsstring * jsstring) : Prop :=
  (0x3B%N ∉ fst nv) ∧ (0x3D%N ∉ fst nv) ∧ 0x3B%N ∉ snd nv.

Definition wfJar (jar : CookieJar) : Prop :=
  NoDup (jar.*1) ∧ Forall wfPair jar.

#[global] Instance wfJar_dec jar : Decision (wfJar jar).
Proof. unfold wfJar, wfPair. apply _. Defined.

(** The text [getCookie] splits: every cookie preceded by ["; "]. *)
Definition entryText (nv : jsstring * jsstring) : jsstring :=
  js "; " ++ nv.1 ++ js "=" ++ nv.2.

Definition entriesText (jar : CookieJar) : jsstring :=
  mjoin (entryText <$> jar).

(** Three listings a page can find: a number in the players slot, an
    array of objects without fields, and a value that is not URI-encoded
    text. *)
Definition numberJar : CookieJar := [(js "players", js "42")].
Definition bareObjectsJar : CookieJar := [(js "players", js "%5B%7B%7D%5D")].
Definition malformedJar : CookieJar := [(js "players", js "%")].

(** A listing with the theme cookie only. *)
Definition themeJar : CookieJar := [(js "theme", js "dark")].

(** Strings made of 16-bit code units. *)
Definition codeUnits (s : jsstring) : Prop :=
  Forall (λ c, (c < 0x10000)%N) s.

(** Strings in which every surrogate is half of a pair. *)
Fixpoint wellFormed (s : jsstring) : bool :=
  match s with
  | [] => true
  | c :: s1 =>
      if isHighSurrogate c then
        match s1 with
        | lo :: s2 => isLowSurrogate lo && wellFormed s2
        | [] => false
        end
      else negb (isLowSurrogate c) && wellFormed s1
  end.

(** Texts a serializer may emit: 16-bit code units, surrogates paired. *)
Definition emittable (s : jsstring) : Prop :=
  codeUnits s ∧ wellFormed s = true.

#[global] Instance emittable_dec s : Decision (emittable s).
Proof. unfold emittable, codeUnits. apply _. Defined.

(** A text [vt] that parses to [vj] whatever follows it, given [need] units
    of fuel. *)
Definition parsesAs (need : nat) (vt : jsstring) (vj : Json) : Prop :=
  ∀ fuel rest, parseValue (need + fuel) (vt ++ rest) = Normal (vj, rest).

(** A cookie name as the two effects write it: not empty, without [;],
    [=], space or tab. *)
Definition slotName (slot : jsstring) : Prop :=
  slot ≠ [] ∧ (0x3B%N ∉ slot) ∧ (0x3D%N ∉ slot) ∧
  Forall (λ c, isWsp c = false) slot.

(** The code units a cookie value may hold unchanged: no [;], no space and
    no tab. *)
Definition cookieSafe (c : N) : Prop := c ≠ 0x3B%N ∧ isWsp c = false.

Definition validPlayer (p : Player.t) : Prop :=
  codeUnits (Player.id p) ∧ codeUnits (Player.name p) ∧
  codeUnits (Player.color p) ∧
  match Player.teamId p with Some tid => codeUnits tid | None => True end.

Definition validTeam (tm : Team.t) : Prop :=
  codeUnits (Team.id tm) ∧ codeUnits (Team.name tm) ∧
  codeUnits (Team.accent tm).

(** Every id of the state was returned by an earlier [makeId] call of the
    session. *)
Definition idsDrawn (rnd : nat → jsstring) (st : AppState) : Prop :=
  length seedNames ≤ idCalls st ∧
  ∀ p, p ∈ players st → ∃ k, k < idCalls st ∧ Player.id p = rnd k.

(** The names in a bucket of a grouping, in order. *)
Definition bucketNames (o : TeamPlayers) (key : jsstring)
  : option (list jsstring) :=
  match own o !! key with
  | Some l => Some (Player.name <$> l)
  | None => None
  end.

#[global] Instance validPlayer_dec p : Decision (validPlayer p).
Proof.
  unfold validPlayer, codeUnits. destruct (Player.teamId p); apply _.
Defined.

#[global] Instance validTeam_dec tm : Decision (validTeam tm).
Proof. unfold validTeam, codeUnits. apply _. Defined.

(** A player whose strings need every kind of escape: a quote, a
    backslash, a control character, an unpaired surrogate, a surrogate
    pair, a letter outside ASCII, and the cookie delimiters. *)
Definition awkwardPlayers : list Player.t :=
  [ Player.mk [0x22; 0x5C; 0x8; 0x1F; 0xD800; 0xD83D; 0xDE00; 0xE9]%N
      (js " a;b=c ") (js "#fff") (Some (js "t1"));
    Player.mk (js "p2") [] (js "%") None ].

(** A listing whose players cookie decodes to text that is not JSON. *)
Definition corruptJar : CookieJar := [(js "players", js "%7B")].

(** A sample collation: code-unit order. *)
Fixpoint codeUnitCompare (a b : jsstring) : Z :=
  match a, b with
  | [], [] => 0
  | [], _ :: _ => -1
  | _ :: _, [] => 1
  | x :: a', y :: b' =>
      match N.compare x y with
      | Lt => -1
      | Gt => 1
      | Eq => codeUnitCompare a' b'
      end
  end.

(** The seed state after Astra and Blitz were dragged onto Team Alpha. *)
Definition sampleState : AppState :=
  run sampleRnd (seedState sampleRnd)
    [ Drop 1 (startDrag (sampleRnd 0) []);
      Drop 1 (startDrag (sampleRnd 1) []) ].

(** A successful parse consumes input, and any fuel above twice the
    consumed length gives the same result. *)
Definition fuelFree (fuel : nat) : Prop :=
  (∀ s v r, parseValue fuel s = Normal (v, r) →
     length r < length s ∧
     ∀ more, 2 * (length s - length r) ≤ more →
       parseValue more s = Normal (v, r)) ∧
  (∀ s items v r, parseElements fuel s items = Normal (v, r) →
     length r < length s ∧
     ∀ more, 2 * (length s - length r) + 1 ≤ more →
       parseElements more s items = Normal (v, r)) ∧
  (∀ s fields v r, parseMembers fuel s fields = Normal (v, r) →
     length r < length s ∧
     ∀ more, 2 * (length s - length r) + 1 ≤ more →
       parseMembers more s fields = Normal (v, r)).

(** ** Further vocabulary *)

(** A random source that never repeats itself and never returns the id of
    a seed team. *)
Definition freshSource (rnd : nat → jsstring) : Prop :=
  Inj (=) (=) rnd ∧ ∀ k, rnd k ∉ Team.id <$> initialTeams.

(** An id one of the first [calls] draws returned. *)
Definition drawn (rnd : nat → jsstring) (calls : nat) (i : jsstring) : Prop :=
  ∃ k, k < calls ∧ i = rnd k.

(** The ids of the state: distinct within each collection, the players'
    drawn from the source, the teams' drawn from it or those of the seed
    teams. *)
Definition idsFromSource (rnd : nat → jsstring) (st : AppState) : Prop :=
  length seedNames ≤ idCalls st ∧
  NoDup (Player.id <$> players st) ∧
  NoDup (Team.id <$> teams st) ∧
  Forall (drawn rnd (idCalls st)) (Player.id <$> players st) ∧
  Forall (λ i, i ∈ Team.id <$> initialTeams ∨ drawn rnd (idCalls st) i)
    (Team.id <$> teams st).

(** A name as the forms let it through: not empty, nothing to trim. *)
Definition trimmedName (s : jsstring) : Prop := s ≠ [] ∧ trim s = s.

Definition namesTrimmed (st : AppState) : Prop :=
  Forall (λ p, trimmedName (Player.name p)) (players st) ∧
  Forall (λ tm, trimmedName (Team.name tm)) (teams st).

#[global] Instance trimmedName_dec s : Decision (trimmedName s).
Proof. unfold trimmedName. apply _. Defined.

(** The text of one cookie inside [document.cookie]. *)
Definition cookieText (nv : jsstring * jsstring) : jsstring :=
  nv.1 ++ js "=" ++ nv.2.

(** No cookie other than [theme] holds the text the theme is looked up
    by. *)
Definition themeUnshadowed (jar : CookieJar) : Prop :=
  Forall (λ nv, nv.1 ≠ js "theme" →
                includes (js "theme=dark") (cookieText nv) = false) jar.

#[global] Instance themeUnshadowed_dec jar : Decision (themeUnshadowed jar).
Proof. unfold themeUnshadowed. apply _. Defined.

(** The code units [encodeURIComponent] can write that a cookie value
    holds unchanged and that are no [=]. *)
Definition encodedUnit (c : N) : Prop := cookieSafe c ∧ c ≠ 0x3D%N.

(** The players grouped under a key, in the order the projector leaves
    them. *)
Definition bucketFor (localeCompare : jsstring → jsstring → Z)
  (st : AppState) (key : jsstring) : list Player.t :=
  sort (byName localeCompare) (filter (λ p, bucketOf p = key) (players st)).

(** The keys of the columns the board renders. *)
Definition columnKeys (st : AppState) : list jsstring :=
  benchKey :: (Team.id <$> teams st).

(** The cookies of a listing that carry a given name. *)
Definition cookiesNamed (name : jsstring) (jar : list (jsstring * jsstring))
  : list (jsstring * jsstring) :=
  filter (λ nv, nv.1 = name) jar.

(** The strings of a state, of an event and of the random source are
    sequences of 16-bit code units. *)
Definition validState (st : AppState) : Prop :=
  Forall validPlayer (players st) ∧ Forall validTeam (teams st) ∧
  codeUnits (playerName st) ∧ codeUnits (teamName st).

Definition validEvent (ev : Event) : Prop :=
  match ev with
  | TypePlayerName text | TypeTeamName text => codeUnits text
  | SubmitPlayerRename _ editName | SubmitTeamRename _ editName =>
      codeUnits editName
  | _ => True
  end.

Definition validSource (rnd : nat → jsstring) : Prop :=
  ∀ k, codeUnits (rnd k).

(** A random source that never returns the name of a property inherited
    from [Object.prototype]. *)
Definition plainSource (rnd : nat → jsstring) : Prop :=
  ∀ k, rnd k ∉ objectPrototypeKeys.

(** Each effect runs at least when its collection changed. *)
Fixpoint effectsSound (rnd : nat → jsstring) (st : AppState)
  (steps : list (Event * bool * bool)) : Prop :=
  match steps with
  | [] => True
  | (ev, playersChanged, teamsChanged) :: steps' =>
      let st' := dispatch rnd st ev in
      (players st' ≠ players st → playersChanged = true) ∧
      (teams st' ≠ teams st → teamsChanged = true) ∧
      effectsSound rnd st' steps'
  end.

(** The cookie the page writes for a name and a value: host-only, on the
    path ["/"]. *)
Definition rootCookie (name value : jsstring) : Cookie.t :=
  Cookie.mk name value None (js "/") false.

(** Every cookie of the store called [name] is one the page's write
    replaces: host-only, on the path ["/"], and not set with [HttpOnly]. *)
Definition ownSlot (name : jsstring) (store : CookieStore) : Prop :=
  Forall (λ cookie,
            Cookie.name cookie = name →
            Cookie.domain cookie = None ∧ Cookie.path cookie = js "/" ∧
            Cookie.httpOnly cookie = false) (held store).

#[global] Instance ownSlot_dec name store : Decision (ownSlot name store).
Proof. unfold ownSlot. apply _. Defined.

Definition cookieKey (cookie : Cookie.t)
  : jsstring * option jsstring * jsstring :=
  (Cookie.name cookie, Cookie.domain cookie, Cookie.path cookie).

(** A store as a browser keeps it: no two cookies of the same name, domain
    and path; no cookie without a name; names and values as the parser
    leaves them; every path starts with [/]. *)
Definition wfCookie (cookie : Cookie.t) : Prop :=
  Cookie.name cookie ≠ [] ∧
  wfPair (Cookie.name cookie, Cookie.value cookie) ∧
  startsWith (js "/") (Cookie.path cookie) = true.

Definition wfStore (store : CookieStore) : Prop :=
  NoDup (cookieKey <$> held store) ∧ Forall wfCookie (held store).

#[global] Instance wfStore_dec store : Decision (wfStore store).
Proof. unfold wfStore, wfCookie, wfPair. apply _. Defined.

(** The cookie an effect writes for [text] under [slot] has a size the
    browser stores. *)
Definition storable (slot text : jsstring) : Prop :=
  ∃ encoded,
    encodeURIComponent text = Normal encoded ∧
    octetLength slot + octetLength encoded ≤ 4096.

(** A listing after a cookie was written over the cookie of its name, or
    behind the others when the name is new: what the page's write does to
    the listing of a store that holds the name as the page's own. *)
Fixpoint withCookie (name value : jsstring) (jar : CookieJar) : CookieJar :=
  match jar with
  | [] => [(name, value)]
  | (n, v) :: jar' =>
      if bool_decide (n = name) then (name, value) :: jar'
      else (n, v) :: withCookie name value jar'
  end.

(** The store of a page at ["/"] that holds the given pairs as cookies the
    page wrote. *)
Definition rootStore (jar : CookieJar) : CookieStore :=
  mkStore [] ((λ nv, rootCookie nv.1 nv.2) <$> jar).

(** The store agrees with the state: the browser keeps it well formed, the
    two slots are the page's own, and each collection whose cookie is of a
    size the browser stores is listed, encoded, under its slot and under
    no other cookie of that name. *)
Definition inSync (p : Page) : Prop :=
  wfStore (cookies p) ∧
  ownSlot (js "players") (cookies p) ∧
  ownSlot (js "teams") (cookies p) ∧
  (∀ encoded,
     encodeURIComponent (stringifyPlayers (players (appState p)))
     = Normal encoded →
     octetLength (js "players") + octetLength encoded ≤ 4096 →
     cookiesNamed (js "players") (listed (cookies p))
     = [(js "players", encoded)]) ∧
  (∀ encoded,
     encodeURIComponent (stringifyTeams (teams (appState p)))
     = Normal encoded →
     octetLength (js "teams") + octetLength encoded ≤ 4096 →
     cookiesNamed (js "teams") (listed (cookies p))
     = [(js "teams", encoded)]).

(** Players whose names the comparator does not tell apart from the name
    of [z]. *)
Definition sameName (cmp : jsstring → jsstring → Z) (z p : Player.t)
  : Prop :=
  cmp (Player.name p) (Player.name z) = 0%Z.

#[global] Instance sameName_dec cmp z p : Decision (sameName cmp z p).
Proof. unfold sameName. apply _. Defined.

(** Sample inputs: a document with the theme cookie, one with a cookie
    that shadows it, a listing with two cookies called [players], and a
    state with a player whose team is gone. *)
Definition themeDocument : Document.t :=
  Document.mk (rootStore themeJar) [js "app"].

Definition shadowedDocument : Document.t :=
  Document.mk
    (rootStore [(js "mytheme", js "darker"); (js "theme", js "light")]) [].

(** The store of a page at ["/app/index.html"] that holds a [theme]
    cookie set for the path ["/app"], beside a cookie the page wrote. *)
Definition twoPathsStore : CookieStore :=
  mkStore (js "app/index.html")
    [ Cookie.mk (js "theme") (js "dark") None (js "/app") false;
      rootCookie (js "lang") (js "en") ].

Definition twoPathsJar : CookieJar :=
  [(js "players", js "%5B%5D"); (js "teams", js "%5B%5D");
   (js "players", js "42")].

Definition danglingState : AppState :=
  mkState
    [ Player.mk (js "p1") (js "Nova") (js "#ff7b7b") (Some (js "ghost"));
      Player.mk (js "p2") (js "Astra") (js "#ffd36b") None ]
    initialTeams [] [] None 13.

(** A short session: a player is created, then Team Alpha is removed. *)
Definition sampleSteps : list (Event * bool * bool) :=
  [ (TypePlayerName (js " Solaris "), false, false);
    (SubmitPlayerForm, true, false);
    (ClickRemoveTeam (js "alpha"), true, true) ].

(** A random source that repeats itself: its fourteenth draw returns what
    the first one did. *)
Definition echoSource (k : nat) : jsstring := sampleRnd (k mod 13).

(** Sixty players: more than a cookie of 4096 octets holds. *)
Definition crowd : list Player.t :=
  (λ i, Player.mk (sampleRnd i) (js "Nova") (js "#ff7b7b") None)
    <$> seq 0 60.

(** The seed board after both teams were removed. *)
Definition teamlessState : AppState :=
  run sampleRnd (seedState sampleRnd)
    [ClickRemoveTeam (js "alpha"); ClickRemoveTeam (js "bravo")].

(** Three unassigned players, two of them with the same name. *)
Definition twinPlayers : list Player.t :=
  [ Player.mk (js "p1") (js "Nova") (js "#ff7b7b") None;
    Player.mk (js "p2") (js "Astra") (js "#ffd36b") None;
    Player.mk (js "p3") (js "Nova") (js "#9ae66e") None ].

(* ===================================================================== *)
(** * Properties *)
(* ===================================================================== *)

(** ** Trimming *)

Lemma trimStart_whitespaceOnly s : whitespaceOnly s → trimStart s = [].
Proof.
  induction 1 as [|c s Hc _ IH]; simpl; [done|]. by rewrite Hc.
Qed.

Lemma trim_whitespaceOnly s : whitespaceOnly s → trim s = [].
Proof.
  intros Hs. unfold trim. by rewrite (trimStart_whitespaceOnly s Hs).
Qed.

Lemma truthy_true_iff s : truthy s = true ↔ s ≠ [].
Proof. by destruct s. Qed.

Lemma truthy_false_iff s : truthy s = false ↔ s = [].
Proof. by destruct s. Qed.

(** ** Frame lemmas for the handlers *)

Section Handlers.

Variable rnd : nat → jsstring.


Lemma handleCreatePlayer_reject st :
  trim (playerName st) = [] → handleCreatePlayer rnd st = st.
Proof. intros H. unfold handleCreatePlayer. by rewrite H. Qed.

Lemma handleCreateTeam_reject st :
  trim (teamName st) = [] → handleCreateTeam rnd st = st.
Proof. intros H. unfold handleCreateTeam. by rewrite H. Qed.

Lemma handleCreatePlayer_accept st :
  trim (playerName st) ≠ [] →
  handleCreatePlayer rnd st =
    mkState (players st ++
               [Player.mk (rnd (idCalls st)) (trim (playerName st))
                  (paletteColor (length (players st))) None])
            (teams st) [] (teamName st) (hoveredZone st) (S (idCalls st)).
Proof.
  intros H. unfold handleCreatePlayer.
  apply truthy_true_iff in H. by rewrite H.
Qed.

Lemma handleCreateTeam_accept st :
  trim (teamName st) ≠ [] →
  handleCreateTeam rnd st =
    mkState (players st)
            (teams st ++
               [Team.mk (rnd (idCalls st)) (trim (teamName st))
                  (paletteColor (length (teams st)))])
            (playerName st) [] (hoveredZone st) (S (idCalls st)).
Proof.
  intros H. unfold handleCreateTeam.
  apply truthy_true_iff in H. by rewrite H.
Qed.

Lemma zones_lookup st zone zoneKey teamId :
  zones st !! zone = Some (zoneKey, teamId) →
  teamId = None ∨ ∃ tm, tm ∈ teams st ∧ teamId = Some (Team.id tm).
Proof.
  unfold zones. destruct zone as [|i]; simpl.
  - intros [= _ <-]. by left.
  - rewrite list_lookup_fmap. destruct (teams st !! i) as [tm|] eqn:Htm;
      simpl; [|done].
    intros [= _ <-]. right. exists tm. split; [|done].
    apply list_elem_of_lookup. eauto.
Qed.

Lemma dispatch_keepsTeams st ev :
  keepsTeams ev → teams (dispatch rnd st ev) = teams st.
Proof.
  destruct ev; simpl; try done; intros _.
  - unfold handleCreatePlayer. simpl.
    by destruct (truthy (trim (playerName st))).
  - unfold onZone. by destruct (zones st !! zone) as [[??]|].
  - unfold onZone. by destruct (zones st !! zone) as [[??]|].
  - unfold onZone, onDrop. destruct (zones st !! zone) as [[??]|]; [|done].
    by destruct (truthy _).
  - unfold submitPlayerRename. by destruct (truthy _).
Qed.

Lemma run_cons st ev evs :
  run rnd st (ev :: evs) = run rnd (dispatch rnd st ev) evs.
Proof. reflexivity. Qed.

Lemma run_keepsTeams st evs :
  Forall keepsTeams evs → teams (run rnd st evs) = teams st.
Proof.
  intros H. revert st. induction H as [|ev evs Hev _ IH]; intros st; [done|].
  rewrite run_cons, IH. by apply dispatch_keepsTeams.
Qed.

(** *** Referential integrity is preserved by every handler *)

Lemma integrity_seed : referentialIntegrity (seedState rnd).
Proof.
  intros p Hp. left. simpl in Hp.
  apply list_elem_of_lookup in Hp as [i Hi].
  unfold seededPlayers in Hi. rewrite list_lookup_imap in Hi.
  destruct (seedNames !! i); simpl in Hi; [|done]. by injection Hi as <-.
Qed.

Lemma integrity_handleDrop st playerId teamId :
  (teamId = None ∨ ∃ tm, tm ∈ teams st ∧ teamId = Some (Team.id tm)) →
  referentialIntegrity st →
  referentialIntegrity (handleDrop playerId teamId st).
Proof.
  intros Htarget Hst p Hp. simpl in Hp.
  apply list_elem_of_fmap in Hp as (q & -> & Hq).
  case_decide; [exact Htarget | by apply Hst].
Qed.

Lemma integrity_handleRemoveTeam st teamId :
  referentialIntegrity st →
  referentialIntegrity (handleRemoveTeam teamId st).
Proof.
  intros Hst p Hp. simpl in Hp.
  apply list_elem_of_fmap in Hp as (q & -> & Hq).
  case_decide as Hassigned; [by left|].
  destruct (Hst q Hq) as [Hnone | (tm & Htm & Hsome)]; [by left|].
  right. exists tm. split; [|done]. simpl.
  apply list_elem_of_filter. split; [|done].
  intros Heq. apply Hassigned. by rewrite Hsome, Heq.
Qed.

Lemma integrity_dispatch st ev :
  referentialIntegrity st → referentialIntegrity (dispatch rnd st ev).
Proof.
  intros Hst. destruct ev; simpl; try exact Hst.
  - (* SubmitPlayerForm *)
    destruct (decide (trim (playerName st) = [])) as [He|Hne].
    { by rewrite handleCreatePlayer_reject. }
    rewrite handleCreatePlayer_accept by done.
    intros p Hp. simpl in Hp. apply elem_of_app in Hp as [Hp|Hp].
    + by apply Hst.
    + apply list_elem_of_singleton in Hp as ->. by left.
  - (* SubmitTeamForm *)
    destruct (decide (trim (teamName st) = [])) as [He|Hne].
    { by rewrite handleCreateTeam_reject. }
    rewrite handleCreateTeam_accept by done.
    intros p Hp. simpl in Hp.
    destruct (Hst p Hp) as [Hnone | (tm & Htm & Hsome)]; [by left|].
    right. exists tm. split; [|done]. simpl.
    apply elem_of_app. by left.
  - (* DragEnter *)
    unfold onZone. by destruct (zones st !! zone) as [[??]|].
  - (* DragLeave *)
    unfold onZone. by destruct (zones st !! zone) as [[??]|].
  - (* Drop *)
    unfold onZone. destruct (zones st !! zone) as [[zoneKey teamId]|] eqn:Hz;
      [|done].
    unfold onDrop. destruct (truthy _); [|done].
    apply integrity_handleDrop; [|done]. by eapply zones_lookup.
  - (* ClickRemovePlayer *)
    intros p Hp. simpl in Hp. apply list_elem_of_filter in Hp as [_ Hp].
    by apply Hst.
  - (* SubmitPlayerRename *)
    unfold submitPlayerRename. destruct (truthy _); [|done].
    intros p Hp. simpl in Hp.
    apply list_elem_of_fmap in Hp as (q & -> & Hq).
    destruct (Hst q Hq) as [Hnone | Hsome]; case_decide; simpl; auto.
  - (* ClickRemoveTeam *)
    by apply integrity_handleRemoveTeam.
  - (* SubmitTeamRename *)
    unfold submitTeamRename. destruct (truthy _); [|done].
    intros p Hp. simpl in Hp.
    destruct (Hst p Hp) as [Hnone | (tm & Htm & Hsome)]; [by left|].
    right. simpl.
    exists (if decide (Team.id tm = teamId)
            then Team.with_name tm (trim editName) else tm).
    split.
    + apply list_elem_of_fmap. by exists tm.
    + by case_decide.
  - (* ClickReset *)
    destruct confirmed; [|done].
    intros p Hp. by apply integrity_seed.
Qed.

(** C1.  Starting from the seed state, after every sequence of events of
    the page (creating, renaming and removing players and teams, and
    dropping a dragged player on a rendered zone), every player's
    [teamId] is [null] or the id of a team of the current collection. *)
Theorem referential_integrity_invariant (evs : list Event) :
  referentialIntegrity (run rnd (seedState rnd) evs).
Proof.
  generalize integrity_seed.
  generalize (seedState rnd). induction evs as [|ev evs IH]; intros st Hst.
  - exact Hst.
  - rewrite run_cons. apply IH. by apply integrity_dispatch.
Qed.

(** *** Removing a team *)

Lemma changedPlayers_fmap (P : Player.t → Prop) `{!∀ p, Decision (P p)}
    (f : Player.t → Player.t) (l : list Player.t) :
  (∀ p, P p → p ≠ f p) →
  (∀ p, ¬ P p → f p = p) →
  length (changedPlayers l (f <$> l)) = length (filter P l).
Proof.
  intros Hyes Hno. unfold changedPlayers.
  induction l as [|p l IH]; [done|].
  cbn [fmap list_fmap zip zip_with]. rewrite !filter_cons. simpl.
  destruct (decide (P p)) as [HP|HP].
  - rewrite decide_True by by apply Hyes. simpl. by f_equal.
  - rewrite decide_False; [done|]. rewrite Hno by done. by intros [].
Qed.

Lemma filter_keeps_all {A} (P : A → Prop) `{!∀ x, Decision (P x)}
    (l : list A) :
  (∀ x, x ∈ l → P x) → filter P l = l.
Proof.
  induction l as [|x l IH]; intros Hall; [done|].
  rewrite filter_cons_True by (apply Hall; left).
  f_equal. apply IH. intros y Hy. apply Hall. by right.
Qed.

Lemma filter_remove_unique (tm : Team.t) (before after : list Team.t) :
  (∀ t, t ∈ before ++ after → Team.id t ≠ Team.id tm) →
  filter (λ team, Team.id team ≠ Team.id tm) (before ++ tm :: after)
  = before ++ after.
Proof.
  intros Huniq. rewrite filter_app, filter_cons, decide_False by naive_solver.
  rewrite <- filter_app. by apply filter_keeps_all.
Qed.

(** C2.  [handleRemoveTeam] on the id of a team of the collection (ids
    being unique) takes exactly that team out and, in the same resulting
    state, clears [teamId] on the players assigned to it: the player list
    keeps its length and order, every player keeps [id], [name] and
    [color], [teamId] becomes [null] where it named the team and is kept
    elsewhere, and the players that changed are as many as were
    assigned. *)
Theorem remove_team_cascade (st : AppState) (tm : Team.t)
    (before after : list Team.t) :
  teams st = before ++ tm :: after →
  (∀ t, t ∈ before ++ after → Team.id t ≠ Team.id tm) →
  let st' := handleRemoveTeam (Team.id tm) st in
  let assigned :=
    filter (λ p, Player.teamId p = Some (Team.id tm)) (players st) in
  teams st' = before ++ after ∧
  length (players st') = length (players st) ∧
  (∀ i p, players st !! i = Some p →
     ∃ p', players st' !! i = Some p' ∧
           Player.id p' = Player.id p ∧
           Player.name p' = Player.name p ∧
           Player.color p' = Player.color p ∧
           Player.teamId p' =
             (if decide (Player.teamId p = Some (Team.id tm))
              then None else Player.teamId p) ∧
           (Player.teamId p ≠ Some (Team.id tm) → p' = p)) ∧
  length (changedPlayers (players st) (players st')) = length assigned.
Proof.
  intros Hteams Huniq st' assigned. subst st' assigned. simpl.
  split; [|split; [|split]].
  - rewrite Hteams. by apply filter_remove_unique.
  - by rewrite length_fmap.
  - intros i p Hi. rewrite list_lookup_fmap, Hi. simpl.
    eexists. split; [done|]. by case_decide.
  - apply (changedPlayers_fmap
             (λ p, Player.teamId p = Some (Team.id tm))).
    + intros p HP. rewrite decide_True by done.
      intros Heq. rewrite Heq in HP. done.
    + intros p HP. by rewrite decide_False.
Qed.

(** *** Creating players and teams *)

(** C5.  With a name that trims to a non-empty string, [handleCreatePlayer]
    appends one player after the existing ones: its id is the value the
    next [makeId] call returns, its name the trimmed input, its [teamId]
    [null] and its color the palette entry at the previous length modulo
    eight.  The team collection is kept.  The handler does not compare the
    id with the ids in use: the id is new as far as the random source is,
    that is, when the source never repeats itself the id differs from
    every value [makeId] returned before, hence from the id of every
    player when those ids were all drawn from the source. *)
Theorem create_player_appends (st : AppState) (name : jsstring) :
  trim name ≠ [] →
  let st' := createPlayer rnd name st in
  ∃ created,
    players st' = players st ++ [created] ∧
    Player.id created = fst (makeId rnd (idCalls st)) ∧
    idCalls st' = snd (makeId rnd (idCalls st)) ∧
    Player.name created = trim name ∧
    Player.teamId created = None ∧
    palette !! (length (players st) mod 8) = Some (Player.color created) ∧
    teams st' = teams st ∧
    (Inj (=) (=) rnd →
     (∀ i, drawn rnd (idCalls st) i → Player.id created ≠ i) ∧
     (Forall (drawn rnd (idCalls st)) (Player.id <$> players st) →
      Player.id created ∉ Player.id <$> players st)).
Proof.
  intros Hname st'. subst st'. unfold createPlayer.
  rewrite handleCreatePlayer_accept by done. simpl.
  eexists. split; [done|]. do 5 (split; [try done|]).
  { simpl. unfold paletteColor.
    change (length palette) with 8.
    assert (length (players st) mod 8 < length palette) as Hlt.
    { change (length palette) with 8. apply Nat.mod_upper_bound. lia. }
    apply lookup_lt_is_Some in Hlt as [c Hc]. by rewrite Hc. }
  split; [done|]. simpl. intros Hinj.
  assert (∀ i, drawn rnd (idCalls st) i → rnd (idCalls st) ≠ i) as Hfresh.
  { intros i (k & Hk & ->) Heq. apply Hinj in Heq. lia. }
  split; [exact Hfresh|]. intros Hdrawn Hin.
  apply (Hfresh (rnd (idCalls st))); [|done].
  by apply (proj1 (Forall_forall _ _) Hdrawn).
Qed.

(** C6.  Submitting either creation form with an empty or whitespace-only
    name changes neither collection. *)
Theorem create_blank_name_noop (st : AppState) (name : jsstring) :
  whitespaceOnly name →
  players (createPlayer rnd name st) = players st ∧
  teams (createPlayer rnd name st) = teams st ∧
  players (createTeam rnd name st) = players st ∧
  teams (createTeam rnd name st) = teams st.
Proof.
  intros Hblank. apply trim_whitespaceOnly in Hblank.
  unfold createPlayer, createTeam.
  rewrite handleCreatePlayer_reject, handleCreateTeam_reject by done.
  done.
Qed.

(** *** Moving a player by drag and drop *)

Lemma getData_startDrag playerId dt :
  getData (startDrag playerId dt) (js "playerId") = playerId.
Proof. unfold startDrag, setData, getData. by case_decide. Qed.

(** C7.  A drop on a rendered zone whose payload carries a player id sets
    [teamId] to the zone's team ([null] for the bench) on the players with
    that id; names, colors, ids, the other players, the order of the list
    and the teams are kept.  A drop whose payload carries no player id
    leaves the state as it was. *)
Theorem drop_moves_player (st : AppState) (zone : nat)
    (zoneKey : jsstring) (target : option jsstring)
    (dt noId : DataTransfer) :
  zones st !! zone = Some (zoneKey, target) →
  getData dt (js "playerId") ≠ [] →
  getData noId (js "playerId") = [] →
  let carried := getData dt (js "playerId") in
  let st' := dispatch rnd st (Drop zone dt) in
  teams st' = teams st ∧
  length (players st') = length (players st) ∧
  (∀ i p, players st !! i = Some p →
     players st' !! i =
       Some (if decide (Player.id p = carried)
             then Player.mk (Player.id p) (Player.name p) (Player.color p)
                    target
             else p)) ∧
  dispatch rnd st (Drop zone noId) = st.
Proof.
  intros Hzone Hcarried HnoId carried st'. subst carried st'. simpl.
  unfold onZone, onDrop. rewrite Hzone, HnoId. simpl.
  apply truthy_true_iff in Hcarried. rewrite Hcarried. simpl.
  split; [done|]. split; [by rewrite length_fmap|]. split; [|done].
  intros i p Hi. rewrite list_lookup_fmap, Hi. simpl. by case_decide.
Qed.

(** *** Renaming *)

(** C8.  Committing a rename whose text trims to a non-empty string
    replaces the name of the players with that id by the trimmed text and
    keeps their id, color and [teamId], the other players, the order and
    the teams.  Committing a whitespace-only text changes nothing, for a
    player and for a team alike. *)
Theorem rename_player_frame (st : AppState)
    (playerId teamId editName blank : jsstring) :
  trim editName ≠ [] →
  whitespaceOnly blank →
  let st' := submitPlayerRename playerId editName st in
  teams st' = teams st ∧
  length (players st') = length (players st) ∧
  (∀ i p, players st !! i = Some p →
     players st' !! i =
       Some (if decide (Player.id p = playerId)
             then Player.mk (Player.id p) (trim editName) (Player.color p)
                    (Player.teamId p)
             else p)) ∧
  submitPlayerRename playerId blank st = st ∧
  submitTeamRename teamId blank st = st.
Proof.
  intros Hname Hblank st'. subst st'.
  apply trim_whitespaceOnly in Hblank.
  unfold submitPlayerRename, submitTeamRename. rewrite Hblank. simpl.
  apply truthy_true_iff in Hname. rewrite Hname. simpl.
  split; [done|]. split; [by rewrite length_fmap|]. split; [|done].
  intros i p Hi. rewrite list_lookup_fmap, Hi. simpl. by case_decide.
Qed.

(** *** Creating a team and removing it again *)

(** C9.  Create a team under a name that trims to a non-empty string, let
    any events that do not touch the team collection follow (drops onto
    the new column among them), then remove the created team.  If the id
    drawn for it was not already the id of a team, the team collection is
    back to what it was before the creation, every player that was
    assigned to the created team has [teamId] [null], and no player refers
    to it any more. *)
Theorem create_then_remove_team (st : AppState) (name : jsstring)
    (evs : list Event) :
  trim name ≠ [] →
  (∀ tm, tm ∈ teams st → Team.id tm ≠ rnd (idCalls st)) →
  Forall keepsTeams evs →
  let fresh := rnd (idCalls st) in
  let mid := run rnd (createTeam rnd name st) evs in
  let st' := handleRemoveTeam fresh mid in
  (∃ created,
     teams mid = teams st ++ [created] ∧ Team.id created = fresh) ∧
  teams st' = teams st ∧
  (∀ i p, players mid !! i = Some p → Player.teamId p = Some fresh →
     players st' !! i =
       Some (Player.mk (Player.id p) (Player.name p) (Player.color p) None)) ∧
  (∀ p, p ∈ players st' → Player.teamId p ≠ Some fresh).
Proof.
  intros Hname Hfresh Hevs fresh mid st'.
  assert (teams mid =
            teams st ++ [Team.mk fresh (trim name)
                           (paletteColor (length (teams st)))]) as Hmid.
  { subst mid. rewrite run_keepsTeams by done.
    unfold createTeam. by rewrite handleCreateTeam_accept. }
  split; [by eexists|]. subst st'. simpl. split; [|split].
  - rewrite Hmid, filter_app, filter_cons_False, filter_nil, app_nil_r
      by (simpl; auto).
    by apply filter_keeps_all.
  - intros i p Hi Hp. rewrite list_lookup_fmap, Hi. simpl.
    by rewrite decide_True.
  - intros p Hp. apply list_elem_of_fmap in Hp as (q & -> & Hq).
    by case_decide.
Qed.

End Handlers.

(** ** The handlers on the seed roster *)

(** C5 speaks of a fresh id without a condition.  Where the random source
    returns a value a second time, the created player gets the id of a
    player that is already there: after the thirteen draws of the seed,
    the next draw of [echoSource] is the first one again, the id of
    Astra. *)
Lemma create_player_id_collides :
  NoDup (Player.id <$> players (seedState echoSource)) ∧
  trim (js "Solaris") ≠ [] ∧
  ∃ created,
    players (createPlayer echoSource (js "Solaris") (seedState echoSource))
    = players (seedState echoSource) ++ [created] ∧
    players (seedState echoSource) !! 0
    = Some (Player.mk (Player.id created) (js "Astra") (js "#ff7b7b") None) ∧
    Player.id created ∈ Player.id <$> players (seedState echoSource).
Proof.
  split; [apply (bool_decide_unpack _); by vm_compute|].
  split; [by vm_compute|].
  eexists. split; [by vm_compute|]. split; [by vm_compute|].
  apply (bool_decide_unpack _). by vm_compute.
Qed.

Lemma remove_team_cascade_witness :
  teams (handleRemoveTeam (js "alpha") sampleState)
  = [Team.mk (js "bravo") (js "Team Bravo") (js "#6dd5ed")] ∧
  length (changedPlayers (players sampleState)
            (players (handleRemoveTeam (js "alpha") sampleState))) = 2.
Proof.
  destruct (remove_team_cascade sampleState
              (Team.mk (js "alpha") (js "Team Alpha") (js "#ffb347"))
              [] [Team.mk (js "bravo") (js "Team Bravo") (js "#6dd5ed")])
    as (Hteams & _ & _ & Hcount).
  - reflexivity.
  - intros t Ht. apply list_elem_of_singleton in Ht as ->.
    vm_compute. discriminate.
  - split; [exact Hteams | exact Hcount].
Defined.

Lemma create_blank_name_noop_witness :
  players (createPlayer sampleRnd (js "   ") (seedState sampleRnd))
  = seededPlayers sampleRnd ∧
  teams (createTeam sampleRnd (js "   ") (seedState sampleRnd))
  = initialTeams.
Proof.
  destruct (create_blank_name_noop sampleRnd (seedState sampleRnd) (js "   "))
    as (Hp & _ & _ & Ht).
  - repeat constructor.
  - split; [exact Hp | exact Ht].
Defined.

Lemma drop_moves_player_witness :
  players (dispatch sampleRnd (seedState sampleRnd)
             (Drop 2 (startDrag (sampleRnd 0) []))) !! 0
  = Some (Player.mk (sampleRnd 0) (js "Astra") (js "#ff7b7b")
            (Some (js "bravo"))) ∧
  dispatch sampleRnd (seedState sampleRnd) (Drop 2 []) = seedState sampleRnd.
Proof.
  destruct (drop_moves_player sampleRnd (seedState sampleRnd) 2
              (js "bravo") (Some (js "bravo"))
              (startDrag (sampleRnd 0) []) [])
    as (_ & _ & Hmoved & Hnoop).
  - reflexivity.
  - vm_compute. discriminate.
  - reflexivity.
  - split; [|exact Hnoop]. exact (Hmoved 0 _ eq_refl).
Defined.

Lemma rename_player_frame_witness :
  players (submitPlayerRename (sampleRnd 0) (js " Nova ")
             (seedState sampleRnd)) !! 0
  = Some (Player.mk (sampleRnd 0) (js "Nova") (js "#ff7b7b") None) ∧
  submitPlayerRename (sampleRnd 0) (js "  ") (seedState sampleRnd)
  = seedState sampleRnd.
Proof.
  destruct (rename_player_frame (seedState sampleRnd) (sampleRnd 0)
              (js "alpha") (js " Nova ") (js "  "))
    as (_ & _ & Hrenamed & Hplayer & _).
  - vm_compute. discriminate.
  - repeat constructor.
  - split; [|exact Hplayer]. exact (Hrenamed 0 _ eq_refl).
Defined.

Lemma create_then_remove_team_witness :
  teams (handleRemoveTeam (sampleRnd 13)
           (run sampleRnd
              (createTeam sampleRnd (js "Vanguard") (seedState sampleRnd))
              [Drop 3 (startDrag (sampleRnd 0) [])]))
  = initialTeams.
Proof.
  destruct (create_then_remove_team sampleRnd (seedState sampleRnd)
              (js "Vanguard") [Drop 3 (startDrag (sampleRnd 0) [])])
    as (_ & Hteams & _).
  - vm_compute. discriminate.
  - intros tm Htm. simpl in Htm.
    apply elem_of_cons in Htm as [->|Htm];
      [|apply list_elem_of_singleton in Htm as ->];
      vm_compute; discriminate.
  - repeat constructor.
  - exact Hteams.
Defined.

(** ** The roster projector *)

Section Sorting.

Variable cmp : Player.t → Player.t → Z.

Lemma insertSorted_Permutation x l : insertSorted cmp x l ≡ₚ x :: l.
Proof.
  induction l as [|y l IH]; simpl; [done|].
  destruct (cmp x y <=? 0)%Z; [done|]. rewrite IH. apply Permutation_swap.
Qed.

Lemma sort_Permutation l : sort cmp l ≡ₚ l.
Proof.
  induction l as [|x l IH]; simpl; [done|].
  rewrite insertSorted_Permutation. by f_equiv.
Qed.

Lemma elem_of_sort x l : x ∈ sort cmp l ↔ x ∈ l.
Proof. by rewrite sort_Permutation. Qed.

Lemma insertSorted_Sorted x l :
  (∀ a b, (0 < cmp a b)%Z → (cmp b a ≤ 0)%Z) →
  Sorted (λ a b, (cmp a b ≤ 0)%Z) l →
  Sorted (λ a b, (cmp a b ≤ 0)%Z) (insertSorted cmp x l).
Proof.
  intros Htotal. induction 1 as [|y l Hl IH Hhd]; simpl.
  - by repeat constructor.
  - destruct (Z.leb_spec (cmp x y) 0) as [Hle|Hgt].
    + constructor; [by constructor|]. by constructor.
    + constructor; [exact IH|].
      destruct Hhd as [|z l Hyz]; simpl.
      * constructor. by apply Htotal.
      * destruct (cmp x z <=? 0)%Z; constructor; [by apply Htotal | done].
  Qed.

Lemma sort_Sorted l :
  (∀ a b, (0 < cmp a b)%Z → (cmp b a ≤ 0)%Z) →
  Sorted (λ a b, (cmp a b ≤ 0)%Z) (sort cmp l).
Proof.
  intros Htotal. induction l as [|x l IH]; simpl; [constructor|].
  by apply insertSorted_Sorted.
Qed.

End Sorting.

Lemma consistentComparator_total cmp :
  consistentComparator cmp → ∀ a b, (0 < cmp a b)%Z → (cmp b a ≤ 0)%Z.
Proof. intros [Hanti _] a b Hab. apply Hanti in Hab. lia. Qed.

(** *** Grouping *)

Lemma protoKey_inherited : protoKey ∈ objectPrototypeKeys.
Proof. apply (bool_decide_unpack _). by vm_compute. Qed.

Lemma benchKey_plain : benchKey ∉ objectPrototypeKeys.
Proof. apply (bool_decide_unpack _). by vm_compute. Qed.

Lemma assignEmpty_plain key o :
  key ∉ objectPrototypeKeys →
  assignEmpty key o = mkTeamPlayers (<[key := []]> (own o)) (proto o).
Proof.
  intros Hkey. unfold assignEmpty. rewrite bool_decide_eq_false_2; [done|].
  intros ->. apply Hkey, protoKey_inherited.
Qed.

Lemma getProperty_own o key a :
  own o !! key = Some a → getProperty o key = OwnBucket a.
Proof. intros Hkey. unfold getProperty. by rewrite Hkey. Qed.

Lemma getProperty_plain_missing o key :
  own o !! key = None → proto o = None → key ∉ objectPrototypeKeys →
  getProperty o key = Undefined.
Proof.
  intros Hkey Hproto Hplain. unfold getProperty.
  by rewrite Hkey, Hproto, bool_decide_eq_false_2.
Qed.

Lemma placePlayer_plain m p :
  bucketOf p ∉ objectPrototypeKeys →
  placePlayer (mkTeamPlayers m None) p
  = Normal (mkTeamPlayers (appendToBucket m p) None).
Proof.
  intros Hkey. unfold placePlayer, appendToBucket.
  destruct (m !! bucketOf p) as [a|] eqn:Hm.
  - rewrite (getProperty_own _ _ a) by done. simpl.
    unfold pushTo. by rewrite (getProperty_own _ _ a).
  - rewrite getProperty_plain_missing by done. simpl.
    rewrite assignEmpty_plain by done. unfold pushTo.
    rewrite (getProperty_own _ _ []) by apply lookup_insert_eq.
    simpl. by rewrite insert_insert_eq.
Qed.

Lemma forEachM_placePlayer_plain (players : list Player.t)
    (m : gmap jsstring (list Player.t)) :
  (∀ p, p ∈ players → bucketOf p ∉ objectPrototypeKeys) →
  forEachM placePlayer players (mkTeamPlayers m None)
  = Normal (mkTeamPlayers (foldl appendToBucket m players) None).
Proof.
  revert m. induction players as [|p players IH]; intros m Hkeys; [done|].
  simpl. rewrite placePlayer_plain by (apply Hkeys; left). simpl.
  apply IH. intros q Hq. apply Hkeys. by right.
Qed.

Lemma foldl_assignEmpty_plain (teams : list Team.t)
    (m : gmap jsstring (list Player.t)) :
  (∀ tm, tm ∈ teams → Team.id tm ∉ objectPrototypeKeys) →
  foldl (λ o team, assignEmpty (Team.id team) o) (mkTeamPlayers m None) teams
  = mkTeamPlayers (foldl (λ m team, <[Team.id team := []]> m) m teams) None.
Proof.
  revert m. induction teams as [|tm teams IH]; intros m Hkeys; [done|].
  simpl. rewrite assignEmpty_plain by (apply Hkeys; left). simpl.
  apply IH. intros q Hq. apply Hkeys. by right.
Qed.

Lemma foldl_insert_empty_lookup (teams : list Team.t)
    (m : gmap jsstring (list Player.t)) (k : jsstring) :
  foldl (λ m team, <[Team.id team := []]> m) m teams !! k
  = if bool_decide (k ∈ Team.id <$> teams) then Some [] else m !! k.
Proof.
  revert m. induction teams as [|tm teams IH]; intros m; [done|].
  cbn [foldl]. rewrite IH, fmap_cons.
  destruct (decide (k ∈ Team.id <$> teams)) as [Hin|Hnin].
  - rewrite !bool_decide_eq_true_2; [done | by right | done].
  - rewrite (bool_decide_eq_false_2 _ Hnin).
    destruct (decide (k = Team.id tm)) as [->|Hne].
    + rewrite lookup_insert_eq, bool_decide_eq_true_2; [done | by left].
    + rewrite lookup_insert_ne by done.
      rewrite bool_decide_eq_false_2; [done|].
      by intros [?|?]%elem_of_cons.
Qed.

Lemma emptyBuckets_lookup (teams : list Team.t) (k : jsstring) :
  emptyBuckets teams !! k
  = if bool_decide (k = benchKey ∨ k ∈ Team.id <$> teams)
    then Some [] else None.
Proof.
  unfold emptyBuckets. rewrite foldl_insert_empty_lookup.
  destruct (decide (k ∈ Team.id <$> teams)) as [Hin|Hnin].
  - rewrite !bool_decide_eq_true_2; auto.
  - rewrite (bool_decide_eq_false_2 _ Hnin).
    destruct (decide (k = benchKey)) as [->|Hne].
    + rewrite lookup_singleton_eq, bool_decide_eq_true_2; auto.
    + rewrite lookup_singleton_ne by done.
      rewrite bool_decide_eq_false_2; [done|]. by intros [?|?].
Qed.

Lemma foldl_appendToBucket_lookup (players : list Player.t)
    (m : gmap jsstring (list Player.t)) (k : jsstring) :
  foldl appendToBucket m players !! k
  = match m !! k, filter (λ p, bucketOf p = k) players with
    | None, [] => None
    | o, l => Some (default [] o ++ l)
    end.
Proof.
  revert m. induction players as [|p players IH]; intros m.
  - simpl. destruct (m !! k); simpl; [by rewrite app_nil_r | done].
  - cbn [foldl]. rewrite IH, filter_cons. unfold appendToBucket.
    destruct (decide (bucketOf p = k)) as [<-|Hne].
    + rewrite lookup_insert_eq. simpl. rewrite <- app_assoc.
      by destruct (m !! bucketOf p).
    + by rewrite lookup_insert_ne.
Qed.

(** *** The buckets together hold the players *)

Lemma allBuckets_insert m k l :
  allBuckets (<[k := l]> m) ≡ₚ l ++ allBuckets (delete k m).
Proof.
  unfold allBuckets. rewrite <- (insert_delete_eq m).
  by rewrite map_to_list_insert by apply lookup_delete_eq.
Qed.

Lemma allBuckets_lookup m k l :
  m !! k = Some l → allBuckets m ≡ₚ l ++ allBuckets (delete k m).
Proof.
  intros Hk. unfold allBuckets.
  by rewrite <- (map_to_list_delete m k l Hk).
Qed.

Lemma allBuckets_appendToBucket m p :
  allBuckets (appendToBucket m p) ≡ₚ p :: allBuckets m.
Proof.
  unfold appendToBucket. rewrite allBuckets_insert.
  destruct (m !! bucketOf p) as [l|] eqn:Hm; simpl.
  - rewrite (allBuckets_lookup m _ l Hm), <- app_assoc.
    symmetry. apply Permutation_middle.
  - by rewrite delete_id.
Qed.

Lemma allBuckets_foldl (players : list Player.t)
    (m : gmap jsstring (list Player.t)) :
  allBuckets (foldl appendToBucket m players) ≡ₚ players ++ allBuckets m.
Proof.
  revert m. induction players as [|p players IH]; intros m; [done|].
  cbn [foldl]. rewrite IH, allBuckets_appendToBucket.
  symmetry. apply Permutation_middle.
Qed.

Lemma allBuckets_fmap (f : list Player.t → list Player.t) m :
  (∀ l, f l ≡ₚ l) → allBuckets (f <$> m) ≡ₚ allBuckets m.
Proof.
  intros Hf. unfold allBuckets. rewrite map_to_list_fmap.
  induction (map_to_list m) as [|[k l] kls IH]; [done|].
  simpl. by rewrite IH, Hf.
Qed.

Lemma allBuckets_emptyBuckets (teams : list Team.t) :
  allBuckets (emptyBuckets teams) = [].
Proof.
  unfold allBuckets.
  assert (∀ kl, kl ∈ map_to_list (emptyBuckets teams) → kl.2 = [])
    as Hall.
  { intros [k l] Hkl. apply elem_of_map_to_list in Hkl.
    rewrite emptyBuckets_lookup in Hkl. by case_bool_decide; simplify_eq. }
  induction (map_to_list (emptyBuckets teams)) as [|[k l] kls IH]; [done|].
  pose proof (Hall (k, l) ltac:(left)) as Hl. simpl in Hl. subst l.
  simpl. apply IH. intros kl Hkl. apply Hall. by right.
Qed.

(** *** The projector on plain keys, and on an inherited one *)

Lemma roster_plain (localeCompare : jsstring → jsstring → Z)
    (players : list Player.t) (teams : list Team.t) :
  plainKeys players teams →
  roster localeCompare players teams
  = Normal (mkTeamPlayers
              (sort (byName localeCompare)
                 <$> foldl appendToBucket (emptyBuckets teams) players)
              None).
Proof.
  intros [Hteams Hplayers]. unfold roster.
  rewrite foldl_assignEmpty_plain by by apply Forall_forall.
  rewrite forEachM_placePlayer_plain; [done|]. by apply Forall_forall.
Qed.

Lemma roster_bucket (localeCompare : jsstring → jsstring → Z)
    (players : list Player.t) (teams : list Team.t) (k : jsstring)
    (l : list Player.t) :
  (sort (byName localeCompare)
     <$> foldl appendToBucket (emptyBuckets teams) players) !! k = Some l →
  l = sort (byName localeCompare) (filter (λ p, bucketOf p = k) players).
Proof.
  rewrite lookup_fmap, foldl_appendToBucket_lookup, emptyBuckets_lookup.
  case_bool_decide; simpl.
  - by intros [= <-].
  - destruct (filter _ players); simpl; [done|]. by intros [= <-].
Qed.

(** X23.  The projector on collections whose keys are plain: it returns,
    its keys include ["bench"] and every team id, every player sits in the
    bucket of its [teamId] (["bench"] for [null]) and in no other, each
    bucket holds exactly the players of its key, the buckets together are
    a permutation of the player list, and each bucket is ascending by
    name. *)
Theorem roster_partition (localeCompare : jsstring → jsstring → Z)
    (players : list Player.t) (teams : list Team.t) :
  consistentComparator localeCompare →
  plainKeys players teams →
  ∃ result,
    roster localeCompare players teams = Normal result ∧
    proto result = None ∧
    (∀ k, k = benchKey ∨ k ∈ Team.id <$> teams →
       is_Some (own result !! k)) ∧
    (∀ p, p ∈ players →
       ∃ l, own result !! bucketOf p = Some l ∧ p ∈ l) ∧
    (∀ k l p, own result !! k = Some l → p ∈ l →
       p ∈ players ∧ bucketOf p = k) ∧
    (∀ k l, own result !! k = Some l →
       l ≡ₚ filter (λ p, bucketOf p = k) players) ∧
    allBuckets (own result) ≡ₚ players ∧
    (∀ k l, own result !! k = Some l → Sorted (nameOrder localeCompare) l).
Proof.
  intros Hcmp Hplain. eexists. split; [by apply roster_plain|]. simpl.
  split; [done|]. split; [|split; [|split; [|split; [|split]]]].
  - intros k Hk.
    rewrite lookup_fmap, foldl_appendToBucket_lookup, emptyBuckets_lookup.
    by rewrite bool_decide_eq_true_2.
  - intros p Hp.
    rewrite lookup_fmap, foldl_appendToBucket_lookup.
    assert (p ∈ filter (λ q, bucketOf q = bucketOf p) players) as Hin
      by by apply list_elem_of_filter.
    destruct (filter _ players) as [|q qs] eqn:Hfilter;
      [by apply elem_of_nil in Hin|].
    destruct (emptyBuckets teams !! bucketOf p);
      (eexists; split; [reflexivity|]); apply elem_of_sort.
    + apply elem_of_app. by right.
    + done.
  - intros k l p Hl Hp. apply roster_bucket in Hl as ->.
    apply elem_of_sort, list_elem_of_filter in Hp as [Hk Hp]. by split.
  - intros k l Hl. apply roster_bucket in Hl as ->. apply sort_Permutation.
  - rewrite allBuckets_fmap by apply sort_Permutation.
    by rewrite allBuckets_foldl, allBuckets_emptyBuckets, app_nil_r.
  - intros k l Hl. apply roster_bucket in Hl as ->.
    apply (sort_Sorted (byName localeCompare)).
    intros a b. apply (consistentComparator_total _ Hcmp).
Qed.

(** C3.  A player whose [teamId] is the name of a property inherited from
    [Object.prototype], and matches no team, is not given a bucket: the read
    [teamPlayers[bucket]] finds the inherited function, the guard skips the
    creation, and [push] on the function throws. *)
Theorem roster_inherited_key_throws
    (localeCompare : jsstring → jsstring → Z) :
  roster localeCompare strayPlayers [] = Throw TypeError.
Proof. reflexivity. Qed.

(** ** Splitting *)

Lemma startsWith_app sep rest : startsWith sep (sep ++ rest) = true.
Proof.
  induction sep as [|c sep IH]; simpl; [done|].
  by rewrite bool_decide_eq_true_2, IH.
Qed.

Lemma startsWith_head c sep d s :
  c ≠ d → startsWith (c :: sep) (d :: s) = false.
Proof. intros Hne. simpl. by rewrite bool_decide_eq_false_2. Qed.

Lemma startsWith_cons c sep s :
  startsWith (c :: sep) (c :: s) = startsWith sep s.
Proof. cbn [startsWith]. by rewrite bool_decide_eq_true_2. Qed.

Lemma splitFrom_cons sep cur c s :
  splitFrom sep 0 cur (c :: s)
  = if startsWith sep (c :: s)
    then reverse cur :: splitFrom sep (length sep - 1) [] s
    else splitFrom sep 0 (c :: cur) s.
Proof. done. Qed.

Lemma splitFrom_skip sep x rest cur :
  splitFrom sep (length x) cur (x ++ rest) = splitFrom sep 0 cur rest.
Proof.
  induction x as [|c x IH]; [done|]. simpl.
  destruct x; simpl in *; [by destruct rest|]. exact IH.
Qed.

Lemma splitFrom_match c sep rest cur :
  splitFrom (c :: sep) 0 cur ((c :: sep) ++ rest)
  = reverse cur :: splitFrom (c :: sep) 0 [] rest.
Proof.
  pose proof (startsWith_app (c :: sep) rest) as Hstart.
  cbn [app] in *. cbn [splitFrom]. rewrite Hstart.
  f_equal. cbn [length]. rewrite Nat.sub_1_r. cbn [Nat.pred].
  apply splitFrom_skip.
Qed.

Lemma splitFrom_no_head c sep x rest cur :
  c ∉ x →
  splitFrom (c :: sep) 0 cur (x ++ rest)
  = splitFrom (c :: sep) 0 (reverse x ++ cur) rest.
Proof.
  revert cur. induction x as [|d x IH]; intros cur Hx; [done|].
  apply not_elem_of_cons in Hx as [Hd Hx].
  cbn [app splitFrom]. rewrite startsWith_head by done.
  rewrite IH by done. by rewrite reverse_cons, <- app_assoc.
Qed.

Lemma splitFrom_nil sep cur : splitFrom sep 0 cur [] = [reverse cur].
Proof. done. Qed.

(** The first piece of a split at [;] is what precedes the first [;]. *)
Lemma hd_split_semicolon v rest :
  0x3B%N ∉ v → rest = [] ∨ (∃ t, rest = 0x3B%N :: t) →
  hd [] (split (js ";") (v ++ rest)) = v.
Proof.
  intros Hv Hrest. change (js ";") with [0x3B%N]. unfold split.
  rewrite splitFrom_no_head by done. rewrite app_nil_r.
  destruct Hrest as [->|[t ->]].
  - simpl. apply reverse_involutive.
  - rewrite (splitFrom_match 0x3B%N [] t). simpl. apply reverse_involutive.
Qed.

(** The text of an empty listing, ["; "], holds no separator of the form
    ["; name="]. *)
Lemma splitFrom_no_head_last name :
  splitFrom (0x3B%N :: 0x20%N :: name ++ js "=") 0 [] [0x3B%N; 0x20%N]
  = [[0x3B%N; 0x20%N]].
Proof.
  rewrite splitFrom_cons, !startsWith_cons.
  assert (startsWith (name ++ js "=") [] = false) as ->
    by by destruct name.
  by rewrite splitFrom_cons, startsWith_head.
Qed.

(** ** [getCookie] against the listed cookies *)

Section GetCookie.

Variable name : jsstring.
Hypothesis name_equals : 0x3D%N ∉ name.

Let sep : jsstring := js "; " ++ name ++ js "=".

Lemma startsWith_other_name n t :
  0x3D%N ∉ n → n ≠ name →
  startsWith (name ++ js "=") (n ++ js "=" ++ t) = false.
Proof using name_equals.
  clear sep. change (js "=") with [0x3D%N].
  revert n name_equals.
  induction name as [|a name' IH]; intros n Hname Hn Hne.
  - destruct n as [|c n]; [done|]. apply not_elem_of_cons in Hn as [Hc _].
    cbn [app startsWith]. by rewrite bool_decide_eq_false_2.
  - apply not_elem_of_cons in Hname as [Ha Hname].
    destruct n as [|c n].
    + cbn [app startsWith]. rewrite bool_decide_eq_false_2; [done|].
      by intros ->.
    + apply not_elem_of_cons in Hn as [Hc Hn]. cbn [app startsWith].
      destruct (decide (a = c)) as [->|Hac].
      * rewrite bool_decide_eq_true_2 by done. cbn [andb].
        apply IH; [done..|]. by intros ->.
      * by rewrite bool_decide_eq_false_2.
Qed.

Lemma splitFrom_other_entry nv rest cur :
  wfPair nv → fst nv ≠ name →
  splitFrom sep 0 cur (entryText nv ++ rest)
  = splitFrom sep 0 (reverse (entryText nv) ++ cur) rest.
Proof using name_equals.
  destruct nv as [n v]. cbn [fst snd]. intros (Hn1 & Hn2 & Hv) Hne.
  cbn [fst snd] in *.
  unfold entryText, sep. cbn [fst snd].
  change (js "; ") with [0x3B%N; 0x20%N].
  rewrite <- !app_assoc. cbn [app].
  rewrite splitFrom_cons, !startsWith_cons, startsWith_other_name by done.
  replace (0x20%N :: n ++ js "=" ++ v ++ rest)
    with ((0x20%N :: n ++ js "=" ++ v) ++ rest)
    by (cbn [app]; by rewrite <- !app_assoc).
  rewrite (splitFrom_no_head 0x3B%N).
  - by rewrite !reverse_cons, <- !app_assoc.
  - rewrite not_elem_of_cons, !not_elem_of_app.
    split; [done|]. split; [done|]. split; [|done].
    by apply (bool_decide_unpack _).
Qed.

Lemma splitFrom_named_entry v rest cur :
  splitFrom sep 0 cur (entryText (name, v) ++ rest)
  = reverse cur :: splitFrom sep 0 [] (v ++ rest).
Proof.
  unfold entryText, sep. cbn [fst snd].
  change (js "; ") with [0x3B%N; 0x20%N].
  replace (([0x3B%N; 0x20%N] ++ name ++ js "=" ++ v) ++ rest)
    with (([0x3B%N; 0x20%N] ++ name ++ js "=") ++ v ++ rest)
    by by rewrite <- !app_assoc.
  apply (splitFrom_match 0x3B%N).
Qed.

Lemma entriesText_head (jar : CookieJar) :
  entriesText jar = [] ∨ ∃ t, entriesText jar = 0x3B%N :: t.
Proof. destruct jar as [|nv jar]; [by left|]. right. by eexists. Qed.

(** Without a cookie called [name], the text splits into one piece. *)
Lemma splitFrom_absent (jar : CookieJar) v cur :
  Forall wfPair jar →
  name ∉ jar.*1 → 0x3B%N ∉ v →
  splitFrom sep 0 cur (v ++ entriesText jar)
  = [reverse cur ++ v ++ entriesText jar].
Proof using name_equals.
  intros Hjar Habsent Hv. unfold sep. change (js "; ") with [0x3B%N; 0x20%N].
  cbn [app]. rewrite splitFrom_no_head by done.
  fold (js "; "). change (0x3B%N :: 0x20%N :: name ++ js "=") with sep.
  rewrite <- (reverse_involutive v) at 2. rewrite app_assoc, <- reverse_app.
  generalize (reverse v ++ cur). clear cur v Hv.
  induction Hjar as [|nv jar (Hn1 & Hn2 & Hv) _ IH]; intros cur.
  - simpl. by rewrite app_nil_r.
  - rewrite fmap_cons in Habsent.
    apply not_elem_of_cons in Habsent as [Hne Hab].
    unfold entriesText. rewrite fmap_cons. cbn [mjoin list_join].
    rewrite splitFrom_other_entry by done.
    fold (entriesText jar). rewrite IH by done.
    by rewrite reverse_app, reverse_involutive, <- app_assoc.
Qed.

Lemma entriesText_app (jar1 jar2 : CookieJar) :
  entriesText (jar1 ++ jar2) = entriesText jar1 ++ entriesText jar2.
Proof. unfold entriesText. by rewrite fmap_app, join_app. Qed.

Lemma entriesText_cons nv (jar : CookieJar) :
  entriesText (nv :: jar) = entryText nv ++ entriesText jar.
Proof. done. Qed.

Lemma splitFrom_others (jar : CookieJar) rest cur :
  Forall wfPair jar →
  name ∉ jar.*1 →
  splitFrom sep 0 cur (entriesText jar ++ rest)
  = splitFrom sep 0 (reverse (entriesText jar) ++ cur) rest.
Proof using name_equals.
  intros Hjar. revert cur.
  induction Hjar as [|nv jar (Hn1 & Hn2 & Hv) _ IH]; intros cur Habsent.
  - done.
  - rewrite fmap_cons in Habsent.
    apply not_elem_of_cons in Habsent as [Hne Hab].
    rewrite entriesText_cons, <- app_assoc.
    rewrite splitFrom_other_entry by done. rewrite IH by done.
    by rewrite reverse_app, <- app_assoc.
Qed.

(** With exactly one cookie called [name], the text splits in two, and the
    second piece starts with the cookie's value. *)
Lemma splitFrom_present (before after : CookieJar) v cur :
  wfJar (before ++ (name, v) :: after) →
  splitFrom sep 0 cur (entriesText (before ++ (name, v) :: after))
  = [reverse cur ++ entriesText before; v ++ entriesText after].
Proof using name_equals.
  intros [Hnodup Hall].
  rewrite fmap_app, fmap_cons in Hnodup. cbn [fst] in Hnodup.
  apply NoDup_app in Hnodup as (_ & Hbefore & Hafter).
  apply NoDup_cons in Hafter as [Hafter _].
  apply Forall_app in Hall as [Hwb Hwa].
  apply Forall_cons in Hwa as [(_ & _ & Hv) Hwa]. cbn [snd] in Hv.
  rewrite entriesText_app, entriesText_cons.
  rewrite splitFrom_others; [|done|].
  - rewrite splitFrom_named_entry, splitFrom_absent by done.
    by rewrite reverse_app, reverse_involutive.
  - intros Hin. apply (Hbefore name Hin). left.
Qed.

(** The text splits into one piece more than there are cookies called
    [name]. *)
Lemma splitFrom_count (jar : CookieJar) (cur : jsstring) :
  Forall wfPair jar →
  length (splitFrom (js "; " ++ name ++ js "=") 0 cur (entriesText jar))
  = S (length (cookiesNamed name jar)).
Proof using name_equals.
  intros Hwf. revert cur. unfold cookiesNamed.
  change (js "; " ++ name ++ js "=") with sep.
  induction Hwf as [|[n v] jar Hnv _ IH]; intros cur; [done|].
  rewrite entriesText_cons, filter_cons. cbn [fst].
  destruct (decide (n = name)) as [->|Hne].
  - rewrite splitFrom_named_entry. cbn [length]. f_equal.
    change sep with (0x3B%N :: 0x20%N :: name ++ js "=") in *.
    rewrite splitFrom_no_head by apply Hnv. apply IH.
  - rewrite splitFrom_other_entry by done. apply IH.
Qed.

(** A listing with one cookie called [name] is that cookie between
    cookies of other names. *)
Lemma cookiesNamed_single (jar : list (jsstring * jsstring)) nv :
  cookiesNamed name jar = [nv] →
  ∃ before after,
    jar = before ++ nv :: after ∧ fst nv = name ∧
    (name ∉ before.*1) ∧ name ∉ after.*1.
Proof.
  clear sep name_equals. unfold cookiesNamed.
  induction jar as [|[n v] jar IH]; [done|].
  rewrite filter_cons. cbn [fst].
  destruct (decide (n = name)) as [->|Hne].
  - intros [= <- Hrest]. exists [], jar. split; [done|]. split; [done|].
    split; [apply not_elem_of_nil|].
    intros (nv & Hname & Hin)%list_elem_of_fmap.
    assert (nv ∈ filter (λ nv, nv.1 = name) jar) as Hfilter
      by by apply list_elem_of_filter.
    rewrite Hrest in Hfilter. by apply elem_of_nil in Hfilter.
  - intros Hrest. destruct (IH Hrest) as (before & after & -> & ? & ? & ?).
    exists ((n, v) :: before), after. split; [done|]. split; [done|].
    split; [|done]. rewrite fmap_cons. apply not_elem_of_cons. by split.
Qed.

Lemma cookiesNamed_nil (jar : list (jsstring * jsstring)) :
  cookiesNamed name jar = [] → name ∉ jar.*1.
Proof.
  clear sep name_equals. unfold cookiesNamed.
  intros Hnone (nv & Hname & Hin)%list_elem_of_fmap.
  assert (nv ∈ filter (λ nv, nv.1 = name) jar) as Hfilter
    by by apply list_elem_of_filter.
  rewrite Hnone in Hfilter. by apply elem_of_nil in Hfilter.
Qed.

Lemma lookupCookie_None (jar : CookieJar) :
  lookupCookie name jar = None → name ∉ jar.*1.
Proof.
  induction jar as [|[n v] jar IH]; cbn [lookupCookie]; intros Hlook.
  - apply not_elem_of_nil.
  - case_bool_decide; [done|].
    rewrite fmap_cons. apply not_elem_of_cons. split; [done|]. by apply IH.
Qed.

Lemma lookupCookie_Some (jar : CookieJar) v :
  lookupCookie name jar = Some v →
  ∃ before after, jar = before ++ (name, v) :: after.
Proof.
  induction jar as [|[n w] jar IH]; cbn [lookupCookie]; intros Hlook; [done|].
  case_bool_decide as Hn.
  - injection Hlook as ->. subst n. by exists [], jar.
  - destruct (IH Hlook) as (before & after & ->).
    by exists ((n, w) :: before), after.
Qed.

Lemma joinWith_cons2 glue x y (l : list jsstring) :
  joinWith glue (x :: y :: l) = x ++ glue ++ joinWith glue (y :: l).
Proof. done. Qed.

Lemma cookieString_entries (jar : CookieJar) :
  jar ≠ [] → js "; " ++ cookieString jar = entriesText jar.
Proof.
  destruct jar as [|nv jar]; [done|]. intros _.
  unfold cookieString. revert nv.
  induction jar as [|nv' jar IH]; intros nv.
  - unfold entriesText, entryText.
    cbn [fmap list_fmap joinWith mjoin list_join]. by rewrite app_nil_r.
  - rewrite entriesText_cons, <- IH, !fmap_cons, joinWith_cons2.
    unfold entryText. by rewrite <- !app_assoc.
Qed.

(** What [getCookie] returns, in terms of the listing: nothing when no
    cookie has the name or its value is empty, else the decoded value. *)
Lemma getCookie_jar (jar : CookieJar) :
  wfJar jar →
  getCookie (cookieString jar) name
  = match lookupCookie name jar with
    | Some v =>
        if truthy v
        then decoded ← decodeURIComponent v; Normal (Some decoded)
        else Normal None
    | None => Normal None
    end.
Proof using name_equals.
  intros Hwf. unfold getCookie.
  assert (split (js "; " ++ name ++ js "=")
          = splitFrom sep 0 []) as -> by done.
  destruct (decide (jar = [])) as [->|Hjar].
  - change (js "; " ++ cookieString []) with ([] ++ [0x3B%N; 0x20%N]).
    unfold sep. change (js "; ") with [0x3B%N; 0x20%N]. cbn [app].
    rewrite (splitFrom_no_head_last name). done.
  - rewrite cookieString_entries by done.
    destruct (lookupCookie name jar) as [v|] eqn:Hlook.
    + destruct (lookupCookie_Some _ _ Hlook) as (before & after & ->).
      rewrite splitFrom_present by done.
      rewrite bool_decide_eq_true_2 by done. cbn [List.last].
      rewrite hd_split_semicolon; [done| |apply entriesText_head].
      destruct Hwf as [_ Hall]. apply Forall_app in Hall as [_ Hall].
      by apply Forall_cons in Hall as [(_ & _ & Hv) _].
    + apply lookupCookie_None in Hlook.
      rewrite <- (app_nil_l (entriesText jar)).
      rewrite splitFrom_absent; [done|apply Hwf|done|apply not_elem_of_nil].
Qed.

(** The same without the condition that names are distinct: what counts is
    how many cookies are called [name]. *)
Lemma getCookie_named (jar : CookieJar) :
  Forall wfPair jar →
  getCookie (cookieString jar) name
  = match cookiesNamed name jar with
    | [(_, v)] =>
        if truthy v
        then decoded ← decodeURIComponent v; Normal (Some decoded)
        else Normal None
    | _ => Normal None
    end.
Proof using name_equals.
  intros Hwf. unfold getCookie.
  assert (split (js "; " ++ name ++ js "=")
          = splitFrom sep 0 []) as -> by done.
  destruct (decide (jar = [])) as [->|Hjar].
  { change (js "; " ++ cookieString []) with ([] ++ [0x3B%N; 0x20%N]).
    unfold sep. change (js "; ") with [0x3B%N; 0x20%N]. cbn [app].
    rewrite (splitFrom_no_head_last name). done. }
  rewrite cookieString_entries by done.
  destruct (cookiesNamed name jar) as [|[n v] [|nv' named]] eqn:Hnamed.
  - apply cookiesNamed_nil in Hnamed.
    rewrite <- (app_nil_l (entriesText jar)).
    rewrite splitFrom_absent; [done..|apply not_elem_of_nil].
  - apply cookiesNamed_single in Hnamed
      as (before & after & -> & Hn & Hbefore & Hafter).
    cbn [fst] in Hn. subst n.
    apply Forall_app in Hwf as [Hwb Hwa].
    apply Forall_cons in Hwa as [(_ & _ & Hv) Hwa]. cbn [snd] in Hv.
    rewrite entriesText_app, entriesText_cons.
    rewrite splitFrom_others by done.
    rewrite splitFrom_named_entry, splitFrom_absent by done.
    rewrite bool_decide_eq_true_2 by done. cbn [List.last].
    change (reverse [] ++ v ++ entriesText after)
      with (v ++ entriesText after).
    rewrite hd_split_semicolon; [done|done|apply entriesText_head].
  - rewrite bool_decide_eq_false_2; [done|].
    unfold sep. rewrite splitFrom_count, Hnamed by done. cbn [length]. lia.
Qed.

End GetCookie.

(** ** Decoding never yields the empty string from a non-empty text *)

Lemma bind_Normal_inv {A B} (c : Completion A) (f : A → Completion B) b :
  c ≫= f = Normal b → ∃ a, c = Normal a ∧ f a = Normal b.
Proof. destruct c as [a|e]; [|done]. intros Hf. by exists a. Qed.

Lemma utf16Encode_nonempty cp : utf16Encode cp ≠ [].
Proof. unfold utf16Encode. by destruct (cp <? 0x10000)%N. Qed.

Lemma unescapeOctets_nonempty s ts :
  s ≠ [] → unescapeOctets s = Normal ts → ts ≠ [].
Proof.
  destruct s as [|c s]; [done|]. intros _. cbn [unescapeOctets].
  repeat case_match; try done;
    intros (r & _ & [= <-])%bind_Normal_inv; done.
Qed.

Lemma utf8Decode_nonempty ts r :
  ts ≠ [] → utf8Decode ts = Normal r → r ≠ [].
Proof.
  destruct ts as [|t ts]; [done|]. intros _. cbn [utf8Decode].
  repeat case_match; try done;
    intros (r' & _ & [= <-])%bind_Normal_inv; try done;
    intros Happ; apply app_eq_nil in Happ as [Happ _];
    by apply utf16Encode_nonempty in Happ.
Qed.

Lemma decodeURIComponent_nonempty s r :
  s ≠ [] → decodeURIComponent s = Normal r → r ≠ [].
Proof.
  intros Hs (ts & Hts & Hr)%bind_Normal_inv.
  eapply utf8Decode_nonempty; [|done]. by eapply unescapeOctets_nonempty.
Qed.

(** ** The initializers against the listed cookies *)

Lemma initialCollection_jar (slot : jsstring) (fallback : Json)
    (jar : CookieJar) :
  0x3D%N ∉ slot → wfJar jar →
  initialCollection slot fallback jar
  = match lookupCookie slot jar with
    | None => Normal fallback
    | Some raw =>
        if truthy raw then
          text ← decodeURIComponent raw;
          match JSON_parse text with
          | Normal v => Normal v
          | Throw _ => Normal fallback
          end
        else Normal fallback
    end.
Proof.
  intros Hslot Hjar. unfold initialCollection.
  rewrite getCookie_jar by done.
  destruct (lookupCookie slot jar) as [raw|]; [|done].
  destruct (truthy raw) eqn:Hraw; [|done].
  destruct (decodeURIComponent raw) as [text|e] eqn:Hdec; [|done].
  cbn. apply truthy_true_iff in Hraw.
  pose proof (decodeURIComponent_nonempty _ _ Hraw Hdec) as Htext.
  apply truthy_true_iff in Htext. by rewrite Htext.
Qed.

Lemma players_slot_plain : 0x3D%N ∉ js "players".
Proof. apply (bool_decide_unpack _). by vm_compute. Qed.

Lemma teams_slot_plain : 0x3D%N ∉ js "teams".
Proof. apply (bool_decide_unpack _). by vm_compute. Qed.

Lemma initialCollection_named (slot : jsstring) (fallback : Json)
    (jar : CookieJar) :
  0x3D%N ∉ slot → Forall wfPair jar →
  initialCollection slot fallback jar
  = match cookiesNamed slot jar with
    | [(_, raw)] =>
        if truthy raw then
          text ← decodeURIComponent raw;
          match JSON_parse text with
          | Normal v => Normal v
          | Throw _ => Normal fallback
          end
        else Normal fallback
    | _ => Normal fallback
    end.
Proof.
  intros Hslot Hjar. unfold initialCollection.
  rewrite getCookie_named by done.
  destruct (cookiesNamed slot jar) as [|[n raw] [|nv' named]]; [done| |done].
  destruct (truthy raw) eqn:Hraw; [|done].
  destruct (decodeURIComponent raw) as [text|e] eqn:Hdec; [|done].
  cbn. apply truthy_true_iff in Hraw.
  pose proof (decodeURIComponent_nonempty _ _ Hraw Hdec) as Htext.
  apply truthy_true_iff in Htext. by rewrite Htext.
Qed.

(** How an initializer comes by the value it returns. *)
Lemma initialCollection_origin (slot : jsstring) (fallback v : Json)
    (jar : CookieJar) :
  0x3D%N ∉ slot → Forall wfPair jar →
  initialCollection slot fallback jar = Normal v →
  (∃ raw text,
     cookiesNamed slot jar = [(slot, raw)] ∧
     decodeURIComponent raw = Normal text ∧
     JSON_parse text = Normal v) ∨
  (v = fallback ∧
   (length (cookiesNamed slot jar) ≠ 1 ∨
    cookiesNamed slot jar = [(slot, [])] ∨
    ∃ raw text e,
      cookiesNamed slot jar = [(slot, raw)] ∧
      decodeURIComponent raw = Normal text ∧
      JSON_parse text = Throw e)).
Proof.
  intros Hslot Hjar. rewrite initialCollection_named by done.
  destruct (cookiesNamed slot jar) as [|[n raw] [|nv' named]] eqn:Hnamed.
  - intros [= <-]. right. split; [done|]. by left.
  - assert (n = slot) as ->.
    { assert ((n, raw) ∈ cookiesNamed slot jar) as Hin
        by (rewrite Hnamed; by left).
      unfold cookiesNamed in Hin.
      by apply list_elem_of_filter in Hin as [? _]. }
    destruct raw as [|c raw]; cbn [truthy].
    { intros [= <-]. right. auto. }
    destruct (decodeURIComponent (c :: raw)) as [text|e] eqn:Hdec; [|done].
    cbn. destruct (JSON_parse text) as [w|e] eqn:Hparse.
    + intros [= <-]. left. by exists (c :: raw), text.
    + intros [= <-]. right. split; [done|]. right. right.
      by exists (c :: raw), text, e.
  - intros [= <-]. right. split; [done|]. left. cbn [length]. lia.
Qed.

(** C10.  The initializers validate nothing: when [document.cookie] lists
    one cookie of the slot, whatever value its text parses to becomes the
    initial collection, for players and for teams; a stored number, or an
    array of objects without any field, is accepted although it is not of
    the shape [Player[]]; and when the initial collection is not the
    parsed text it is the seed, which happens only when the cookie is
    absent or listed more than once, its value is empty, or the text does
    not parse. *)
Theorem load_without_validation (rnd : nat → jsstring) (jar : CookieJar) :
  Forall wfPair jar →
  (∀ raw text v,
     cookiesNamed (js "players") jar = [(js "players", raw)] →
     decodeURIComponent raw = Normal text →
     JSON_parse text = Normal v →
     initialPlayers rnd jar = Normal v) ∧
  (∀ raw text v,
     cookiesNamed (js "teams") jar = [(js "teams", raw)] →
     decodeURIComponent raw = Normal text →
     JSON_parse text = Normal v →
     initialTeamsState jar = Normal v) ∧
  (initialPlayers rnd numberJar = Normal (JNumber (js "42")) ∧
   asPlayers (JNumber (js "42")) = None) ∧
  (initialPlayers rnd bareObjectsJar = Normal (JArray [JObject []]) ∧
   asPlayers (JArray [JObject []]) = None) ∧
  (∀ v, initialPlayers rnd jar = Normal v →
     (∃ raw text,
        cookiesNamed (js "players") jar = [(js "players", raw)] ∧
        decodeURIComponent raw = Normal text ∧
        JSON_parse text = Normal v) ∨
     (v = playersJson (seededPlayers rnd) ∧
      (length (cookiesNamed (js "players") jar) ≠ 1 ∨
       cookiesNamed (js "players") jar = [(js "players", [])] ∨
       ∃ raw text e,
         cookiesNamed (js "players") jar = [(js "players", raw)] ∧
         decodeURIComponent raw = Normal text ∧
         JSON_parse text = Throw e))) ∧
  (∀ v, initialTeamsState jar = Normal v →
     (∃ raw text,
        cookiesNamed (js "teams") jar = [(js "teams", raw)] ∧
        decodeURIComponent raw = Normal text ∧
        JSON_parse text = Normal v) ∨
     (v = teamsJson initialTeams ∧
      (length (cookiesNamed (js "teams") jar) ≠ 1 ∨
       cookiesNamed (js "teams") jar = [(js "teams", [])] ∨
       ∃ raw text e,
         cookiesNamed (js "teams") jar = [(js "teams", raw)] ∧
         decodeURIComponent raw = Normal text ∧
         JSON_parse text = Throw e))).
Proof.
  intros Hjar.
  assert (∀ slot fallback raw text v,
            0x3D%N ∉ slot →
            cookiesNamed slot jar = [(slot, raw)] →
            decodeURIComponent raw = Normal text →
            JSON_parse text = Normal v →
            initialCollection slot fallback jar = Normal v) as Hverbatim.
  { intros slot fallback raw text v Hslot Hnamed Hdec Hparse.
    rewrite initialCollection_named, Hnamed by done.
    destruct raw as [|c raw].
    - injection Hdec as <-. done.
    - cbn [truthy]. rewrite Hdec. cbn. by rewrite Hparse. }
  split; [|split; [|split; [|split; [|split]]]].
  - intros raw text v. apply Hverbatim, players_slot_plain.
  - intros raw text v. apply Hverbatim, teams_slot_plain.
  - by split.
  - by split.
  - intros v. apply initialCollection_origin; [apply players_slot_plain|done].
  - intros v. apply initialCollection_origin; [apply teams_slot_plain|done].
Qed.

(** C10 speaks of the stored text without a condition on the cookies.  Where
    [document.cookie] lists two cookies called [players], as it does when
    they were set for different paths, [getCookie] finds three pieces
    instead of two and returns [null]: each of the two texts parses, the
    slot is neither absent nor empty, and still the initializer takes the
    seed. *)
Lemma load_two_cookies_takes_seed :
  Forall wfPair twoPathsJar ∧
  cookiesNamed (js "players") twoPathsJar
  = [(js "players", js "%5B%5D"); (js "players", js "42")] ∧
  (decodeURIComponent (js "%5B%5D") = Normal (js "[]") ∧
   JSON_parse (js "[]") = Normal (JArray [])) ∧
  (decodeURIComponent (js "42") = Normal (js "42") ∧
   JSON_parse (js "42") = Normal (JNumber (js "42"))) ∧
  initialPlayers sampleRnd twoPathsJar
  = Normal (playersJson (seededPlayers sampleRnd)) ∧
  playersJson (seededPlayers sampleRnd) ≠ JArray [] ∧
  playersJson (seededPlayers sampleRnd) ≠ JNumber (js "42").
Proof.
  split; [apply (bool_decide_unpack _); by vm_compute|].
  split; [by vm_compute|]. split; [split; by vm_compute|].
  split; [split; by vm_compute|]. split; [by vm_compute|].
  split; by vm_compute.
Qed.


(** ** The URI codec *)

Ltac nlia := zify; Z.to_euclidean_division_equations; lia.

(** Case analysis on the comparisons of the goal, closing the branches the
    context rules out. *)
Ltac case_compare :=
  match goal with
  | |- context [(?a <? ?b)%N] => destruct (N.ltb_spec a b); try nlia
  | |- context [(?a <=? ?b)%N] => destruct (N.leb_spec a b); try nlia
  | |- context [(?a =? ?b)%N] => destruct (N.eqb_spec a b); try nlia
  end.

Lemma hexValue_hexDigitUpper d :
  (d < 16)%N → hexValue (hexDigitUpper d) = Some d.
Proof.
  intros Hd. unfold hexValue, hexDigitUpper, inRange.
  repeat (case_compare; cbn [andb]); f_equal; nlia.
Qed.

Lemma hexValue_hexDigitLower d :
  (d < 16)%N → hexValue (hexDigitLower d) = Some d.
Proof.
  intros Hd. unfold hexValue, hexDigitLower, inRange.
  repeat (case_compare; cbn [andb]); f_equal; nlia.
Qed.

Lemma unescapeOctets_cons c s :
  unescapeOctets (c :: s)
  = if bool_decide (c = 0x25%N) then
      match s with
      | h1 :: h2 :: s2 =>
          match hexValue h1, hexValue h2 with
          | Some d1, Some d2 =>
              r ← unescapeOctets s2; Normal (Octet (d1 * 16 + d2) :: r)
          | _, _ => Throw URIError
          end
      | _ => Throw URIError
      end
    else r ← unescapeOctets s; Normal (Literal c :: r).
Proof. done. Qed.

Lemma unescapeOctets_percentEncode b rest :
  (b < 256)%N →
  unescapeOctets (percentEncode b ++ rest)
  = r ← unescapeOctets rest; Normal (Octet b :: r).
Proof.
  intros Hb. unfold percentEncode. cbn [app].
  rewrite unescapeOctets_cons, bool_decide_eq_true_2 by done.
  rewrite !hexValue_hexDigitUpper by nlia.
  by replace (b / 16 * 16 + b mod 16)%N with b by nlia.
Qed.

Lemma decodeURIComponent_literal c s :
  c ≠ 0x25%N →
  decodeURIComponent (c :: s)
  = r ← decodeURIComponent s; Normal (c :: r).
Proof.
  intros Hc. unfold decodeURIComponent.
  rewrite unescapeOctets_cons, bool_decide_eq_false_2 by done.
  by destruct (unescapeOctets s).
Qed.

Lemma utf8Decode_utf8Encode cp ts :
  (cp ≤ 0x10FFFF)%N → (cp < 0xD800 ∨ 0xDFFF < cp)%N →
  utf8Decode ((Octet <$> utf8Encode cp) ++ ts)
  = r ← utf8Decode ts; Normal (utf16Encode cp ++ r).
Proof.
  intros Hmax Hscalar. unfold utf8Encode.
  repeat case_compare; cbn [fmap list_fmap app utf8Decode];
    unfold inRange, isContinuation, validScalar, utf16Encode, inRange;
    repeat (case_compare; cbn [andb negb]);
    destruct (utf8Decode ts); cbn; repeat f_equal; nlia.
Qed.

Lemma unescapeOctets_escapeCodePoint cp rest :
  (cp ≤ 0x10FFFF)%N →
  unescapeOctets (escapeCodePoint cp ++ rest)
  = ts ← unescapeOctets rest; Normal ((Octet <$> utf8Encode cp) ++ ts).
Proof.
  intros Hmax. unfold escapeCodePoint, utf8Encode.
  repeat case_compare; cbn [fmap list_fmap mjoin list_join];
    rewrite <- ?app_assoc, ?app_nil_l, !unescapeOctets_percentEncode by nlia;
    by destruct (unescapeOctets rest).
Qed.

Lemma decodeURIComponent_escapeCodePoint cp rest :
  (cp ≤ 0x10FFFF)%N → (cp < 0xD800 ∨ 0xDFFF < cp)%N →
  decodeURIComponent (escapeCodePoint cp ++ rest)
  = r ← decodeURIComponent rest; Normal (utf16Encode cp ++ r).
Proof.
  intros Hmax Hscalar. unfold decodeURIComponent.
  rewrite unescapeOctets_escapeCodePoint by done.
  destruct (unescapeOctets rest) as [ts|e]; [|done].
  cbn [mbind Completion_bind]. by apply utf8Decode_utf8Encode.
Qed.

Lemma encodeURIComponent_cons c s :
  encodeURIComponent (c :: s)
  = if uriUnreserved c then
      r ← encodeURIComponent s; Normal (c :: r)
    else if isHighSurrogate c then
      match s with
      | lo :: s2 =>
          if isLowSurrogate lo then
            r ← encodeURIComponent s2;
            Normal (escapeCodePoint (pairCodePoint c lo) ++ r)
          else Throw URIError
      | [] => Throw URIError
      end
    else if isLowSurrogate c then Throw URIError
    else r ← encodeURIComponent s; Normal (escapeCodePoint c ++ r).
Proof. done. Qed.

Lemma uriUnreserved_cookieSafe c :
  uriUnreserved c = true → c ≠ 0x25%N ∧ cookieSafe c.
Proof.
  intros Hc. unfold cookieSafe, isWsp. split; [|split].
  - by intros ->.
  - by intros ->.
  - apply bool_decide_eq_false_2. by intros [->| ->].
Qed.

Lemma hexDigitUpper_cookieSafe d : cookieSafe (hexDigitUpper d).
Proof.
  unfold cookieSafe, hexDigitUpper, isWsp. case_compare; split; try nlia;
    apply bool_decide_eq_false_2; intros [?|?]; nlia.
Qed.

Lemma escapeCodePoint_cookieSafe cp : Forall cookieSafe (escapeCodePoint cp).
Proof.
  assert (cookieSafe 0x25%N) as Hpercent.
  { split; [done|]. by apply bool_decide_eq_false_2; intros [?|?]. }
  unfold escapeCodePoint, utf8Encode, percentEncode.
  repeat case_compare; cbn [fmap list_fmap mjoin list_join app];
    repeat constructor; done || apply hexDigitUpper_cookieSafe.
Qed.

Lemma utf16Encode_pair hi lo :
  isHighSurrogate hi = true → isLowSurrogate lo = true →
  utf16Encode (pairCodePoint hi lo) = [hi; lo] ∧
  (pairCodePoint hi lo ≤ 0x10FFFF)%N ∧ (0xDFFF < pairCodePoint hi lo)%N.
Proof.
  unfold isHighSurrogate, isLowSurrogate, inRange, utf16Encode, pairCodePoint.
  rewrite !andb_true_iff, !N.leb_le. intros [??] [??].
  case_compare. split; [|nlia]. f_equal; [|f_equal]; nlia.
Qed.

(** Decoding undoes encoding, and the encoded text can sit in a cookie. *)
Lemma decode_encode_bounded (n : nat) (s e : jsstring) :
  length s ≤ n → codeUnits s →
  encodeURIComponent s = Normal e →
  decodeURIComponent e = Normal s ∧ Forall cookieSafe e.
Proof.
  revert s e. induction n as [|n IH]; intros s e Hlen Hunits Henc.
  { destruct s; [|simpl in Hlen; lia]. by injection Henc as <-. }
  destruct s as [|c s]; [by injection Henc as <-|].
  apply Forall_cons in Hunits as [Hc Hunits].
  cbn [length] in Hlen. rewrite encodeURIComponent_cons in Henc.
  destruct (uriUnreserved c) eqn:Hunreserved.
  { apply bind_Normal_inv in Henc as (r & Hr & [= <-]).
    apply uriUnreserved_cookieSafe in Hunreserved as [Hpercent Hsafe].
    destruct (IH s r) as [Hdec Hall]; [lia|done..|].
    rewrite decodeURIComponent_literal, Hdec by done.
    by split; [|constructor]. }
  destruct (isHighSurrogate c) eqn:Hhigh.
  { destruct s as [|lo s]; [done|].
    destruct (isLowSurrogate lo) eqn:Hlow; [|done].
    apply bind_Normal_inv in Henc as (r & Hr & [= <-]).
    apply Forall_cons in Hunits as [_ Hunits]. cbn [length] in Hlen.
    destruct (IH s r) as [Hdec Hall]; [lia|done..|].
    destruct (utf16Encode_pair c lo Hhigh Hlow) as (Hpair & Hmax & Hmin).
    rewrite decodeURIComponent_escapeCodePoint, Hdec by auto.
    cbn [mbind Completion_bind]. rewrite Hpair. split; [done|].
    apply Forall_app. split; [apply escapeCodePoint_cookieSafe | done]. }
  destruct (isLowSurrogate c) eqn:Hlow; [done|].
  apply bind_Normal_inv in Henc as (r & Hr & [= <-]).
  destruct (IH s r) as [Hdec Hall]; [lia|done..|].
  assert (c < 0xD800 ∨ 0xDFFF < c)%N as Hscalar.
  { revert Hhigh Hlow. unfold isHighSurrogate, isLowSurrogate, inRange.
    repeat case_compare; cbn [andb]; intros; done || nlia. }
  rewrite decodeURIComponent_escapeCodePoint, Hdec by (done || nlia).
  cbn [mbind Completion_bind]. unfold utf16Encode.
  rewrite (proj2 (N.ltb_lt _ _) Hc). split; [done|].
  apply Forall_app. split; [apply escapeCodePoint_cookieSafe | done].
Qed.

Lemma decode_encode (s e : jsstring) :
  codeUnits s → encodeURIComponent s = Normal e →
  decodeURIComponent e = Normal s ∧ Forall cookieSafe e.
Proof. by apply (decode_encode_bounded (length s)). Qed.

Lemma uriUnreserved_ascii c : uriUnreserved c = true → (c < 0x80)%N.
Proof.
  unfold uriUnreserved, inRange.
  rewrite !orb_true_iff, !andb_true_iff, !N.leb_le.
  intros [[[[??]|[??]]|[??]]|Hin]; try nlia.
  apply bool_decide_eq_true in Hin.
  repeat (apply elem_of_cons in Hin as [->|Hin]); try done.
  by apply elem_of_nil in Hin.
Qed.

Lemma ascii_not_surrogate c :
  (c < 0x80)%N → isHighSurrogate c = false ∧ isLowSurrogate c = false.
Proof.
  intros Hc. unfold isHighSurrogate, isLowSurrogate, inRange.
  by repeat case_compare.
Qed.

(** Encoding throws on nothing but an unpaired surrogate. *)
Lemma encode_wellFormed_bounded (n : nat) (s : jsstring) :
  length s ≤ n → wellFormed s = true →
  ∃ e, encodeURIComponent s = Normal e.
Proof.
  revert s. induction n as [|n IH]; intros s Hlen Hwf.
  { destruct s; [by eexists|simpl in Hlen; lia]. }
  destruct s as [|c s]; [by eexists|].
  cbn [length] in Hlen. rewrite encodeURIComponent_cons.
  cbn [wellFormed] in Hwf.
  destruct (uriUnreserved c) eqn:Hunreserved.
  { apply uriUnreserved_ascii, ascii_not_surrogate in Hunreserved as [Hh Hl].
    rewrite Hh, Hl in Hwf. destruct (IH s) as [r Hr]; [lia|done|].
    rewrite Hr. by eexists. }
  destruct (isHighSurrogate c).
  - destruct s as [|lo s]; [done|]. apply andb_true_iff in Hwf as [Hlo Hwf].
    rewrite Hlo. cbn [length] in Hlen.
    destruct (IH s) as [r Hr]; [lia|done|]. rewrite Hr. by eexists.
  - apply andb_true_iff in Hwf as [Hlo Hwf]. apply negb_true_iff in Hlo.
    rewrite Hlo. destruct (IH s) as [r Hr]; [lia|done|]. rewrite Hr.
    by eexists.
Qed.

Lemma encode_wellFormed (s : jsstring) :
  wellFormed s = true → ∃ e, encodeURIComponent s = Normal e.
Proof. by apply (encode_wellFormed_bounded (length s)). Qed.

(** ** JSON strings: parsing undoes quoting *)

Lemma parseStringBody_cons c s :
  parseStringBody (c :: s)
  = if (c =? 0x22)%N then Normal ([], s)
    else if (c =? 0x5C)%N then
      match s with
      | [] => Throw SyntaxError
      | e :: s2 =>
          if (e =? 0x75)%N then
            match s2 with
            | h1 :: h2 :: h3 :: h4 :: s3 =>
                match hex4 h1 h2 h3 h4 with
                | Some u => r ← parseStringBody s3; Normal (u :: r.1, r.2)
                | None => Throw SyntaxError
                end
            | _ => Throw SyntaxError
            end
          else
            match unescapeShort e with
            | Some u => r ← parseStringBody s2; Normal (u :: r.1, r.2)
            | None => Throw SyntaxError
            end
      end
    else if (c <? 0x20)%N then Throw SyntaxError
    else r ← parseStringBody s; Normal (c :: r.1, r.2).
Proof. done. Qed.

Lemma escapeJSON_cons c s :
  escapeJSON (c :: s)
  = match shortEscape c with
    | Some e => 0x5C%N :: e :: escapeJSON s
    | None =>
        if (c <? 0x20)%N then unicodeEscape c ++ escapeJSON s
        else if isHighSurrogate c then
          match s with
          | lo :: s2 =>
              if isLowSurrogate lo then c :: lo :: escapeJSON s2
              else unicodeEscape c ++ escapeJSON s
          | [] => unicodeEscape c
          end
        else if isLowSurrogate c then unicodeEscape c ++ escapeJSON s
        else c :: escapeJSON s
    end.
Proof. by destruct s. Qed.

Lemma shortEscape_Some c e :
  shortEscape c = Some e →
  (e =? 0x75)%N = false ∧ unescapeShort e = Some c.
Proof.
  unfold shortEscape. repeat case_compare; intros [= <-]; by subst.
Qed.

Lemma shortEscape_None c :
  shortEscape c = None → (c =? 0x22)%N = false ∧ (c =? 0x5C)%N = false.
Proof. unfold shortEscape. by repeat case_compare. Qed.

Lemma hex4_unicodeEscape c :
  (c < 0x10000)%N →
  hex4 (hexDigitLower (c / 4096)) (hexDigitLower ((c / 256) mod 16))
       (hexDigitLower ((c / 16) mod 16)) (hexDigitLower (c mod 16))
  = Some c.
Proof.
  intros Hc. unfold hex4. rewrite !hexValue_hexDigitLower by nlia.
  cbn. f_equal. nlia.
Qed.

Lemma parseStringBody_unicodeEscape c t :
  (c < 0x10000)%N →
  parseStringBody (unicodeEscape c ++ t)
  = r ← parseStringBody t; Normal (c :: r.1, r.2).
Proof.
  intros Hc. unfold unicodeEscape. cbn [app].
  rewrite parseStringBody_cons. cbn [N.eqb Pos.eqb].
  by rewrite hex4_unicodeEscape.
Qed.

Lemma parseStringBody_plain c t :
  (c =? 0x22)%N = false → (c =? 0x5C)%N = false → (c <? 0x20)%N = false →
  parseStringBody (c :: t) = r ← parseStringBody t; Normal (c :: r.1, r.2).
Proof. intros H1 H2 H3. by rewrite parseStringBody_cons, H1, H2, H3. Qed.

Lemma surrogate_plain c :
  isHighSurrogate c = true ∨ isLowSurrogate c = true →
  (c =? 0x22)%N = false ∧ (c =? 0x5C)%N = false ∧ (c <? 0x20)%N = false.
Proof.
  unfold isHighSurrogate, isLowSurrogate, inRange.
  rewrite !andb_true_iff, !N.leb_le. intros Hc.
  by repeat case_compare.
Qed.

Lemma parseStringBody_escapeJSON_bounded (n : nat) (s rest : jsstring) :
  length s ≤ n → codeUnits s →
  parseStringBody (escapeJSON s ++ 0x22%N :: rest) = Normal (s, rest).
Proof.
  revert s. induction n as [|n IH]; intros s Hlen Hunits.
  { destruct s; [done|simpl in Hlen; lia]. }
  destruct s as [|c s]; [done|].
  apply Forall_cons in Hunits as [Hc Hunits]. cbn [length] in Hlen.
  assert (parseStringBody (escapeJSON s ++ 0x22%N :: rest) = Normal (s, rest))
    as Hs by (apply IH; [lia|done]).
  rewrite escapeJSON_cons.
  destruct (shortEscape c) as [e|] eqn:Hshort.
  { apply shortEscape_Some in Hshort as [Hu Hback]. cbn [app].
    rewrite parseStringBody_cons. cbn [N.eqb Pos.eqb].
    by rewrite Hu, Hback, Hs. }
  apply shortEscape_None in Hshort as [Hquote Hslash].
  destruct (c <? 0x20)%N eqn:Hcontrol.
  { by rewrite <- app_assoc, parseStringBody_unicodeEscape, Hs. }
  destruct (isHighSurrogate c) eqn:Hhigh.
  { destruct s as [|lo s].
    - by rewrite parseStringBody_unicodeEscape.
    - destruct (isLowSurrogate lo) eqn:Hlow.
      + apply Forall_cons in Hunits as [_ Hunits]. cbn [length] in Hlen.
        destruct (surrogate_plain lo) as (Hl1 & Hl2 & Hl3); [by right|].
        cbn [app]. rewrite !parseStringBody_plain by done.
        by rewrite IH by (lia || done).
      + by rewrite <- app_assoc, parseStringBody_unicodeEscape, Hs. }
  destruct (isLowSurrogate c) eqn:Hlow.
  { by rewrite <- app_assoc, parseStringBody_unicodeEscape, Hs. }
  cbn [app]. by rewrite parseStringBody_plain, Hs.
Qed.

Lemma parseStringBody_escapeJSON (s rest : jsstring) :
  codeUnits s →
  parseStringBody (escapeJSON s ++ 0x22%N :: rest) = Normal (s, rest).
Proof. by apply (parseStringBody_escapeJSON_bounded (length s)). Qed.

(** ** The serialized text is well formed *)

Lemma wellFormed_cons c s :
  wellFormed (c :: s)
  = if isHighSurrogate c then
      match s with
      | lo :: s2 => isLowSurrogate lo && wellFormed s2
      | [] => false
      end
    else negb (isLowSurrogate c) && wellFormed s.
Proof. done. Qed.

Lemma wellFormed_ascii c s :
  (c < 0x80)%N → wellFormed (c :: s) = wellFormed s.
Proof.
  intros [Hh Hl]%ascii_not_surrogate. by rewrite wellFormed_cons, Hh, Hl.
Qed.

Lemma wellFormed_app_bounded (n : nat) (a b : jsstring) :
  length a ≤ n → wellFormed a = true → wellFormed (a ++ b) = wellFormed b.
Proof.
  revert a. induction n as [|n IH]; intros a Hlen Ha.
  { destruct a; [done|simpl in Hlen; lia]. }
  destruct a as [|c a]; [done|]. cbn [length] in Hlen.
  rewrite wellFormed_cons in Ha. cbn [app]. rewrite wellFormed_cons.
  destruct (isHighSurrogate c).
  - destruct a as [|lo a]; [done|]. apply andb_true_iff in Ha as [Hlo Ha].
    cbn [length] in Hlen. cbn [app]. rewrite Hlo. cbn [andb].
    apply IH; [lia|done].
  - apply andb_true_iff in Ha as [Hlo Ha]. rewrite Hlo. cbn [andb].
    apply IH; [lia|done].
Qed.

Lemma wellFormed_app (a b : jsstring) :
  wellFormed a = true → wellFormed b = true → wellFormed (a ++ b) = true.
Proof.
  intros Ha Hb. by rewrite (wellFormed_app_bounded (length a)).
Qed.

Lemma hexDigitLower_ascii d : (d < 16)%N → (hexDigitLower d < 0x80)%N.
Proof. intros Hd. unfold hexDigitLower. case_compare; nlia. Qed.

Lemma wellFormed_unicodeEscape c :
  (c < 0x10000)%N → wellFormed (unicodeEscape c) = true.
Proof.
  intros Hc. unfold unicodeEscape.
  by rewrite !wellFormed_ascii by (done || apply hexDigitLower_ascii; nlia).
Qed.

Lemma shortEscape_ascii c e : shortEscape c = Some e → (e < 0x80)%N.
Proof. unfold shortEscape. repeat case_compare; by intros [= <-]. Qed.

Lemma wellFormed_escapeJSON_bounded (n : nat) (s : jsstring) :
  length s ≤ n → codeUnits s → wellFormed (escapeJSON s) = true.
Proof.
  revert s. induction n as [|n IH]; intros s Hlen Hunits.
  { destruct s; [done|simpl in Hlen; lia]. }
  destruct s as [|c s]; [done|].
  apply Forall_cons in Hunits as [Hc Hunits]. cbn [length] in Hlen.
  assert (wellFormed (escapeJSON s) = true) as Hs by (apply IH; [lia|done]).
  rewrite escapeJSON_cons.
  destruct (shortEscape c) as [e|] eqn:Hshort.
  { apply shortEscape_ascii in Hshort. by rewrite !wellFormed_ascii. }
  destruct (c <? 0x20)%N.
  { by apply wellFormed_app; [apply wellFormed_unicodeEscape|]. }
  destruct (isHighSurrogate c) eqn:Hhigh.
  { destruct s as [|lo s]; [by apply wellFormed_unicodeEscape|].
    destruct (isLowSurrogate lo) eqn:Hlow.
    - apply Forall_cons in Hunits as [_ Hunits]. cbn [length] in Hlen.
      rewrite wellFormed_cons, Hhigh, Hlow. apply IH; [lia|done].
    - by apply wellFormed_app; [apply wellFormed_unicodeEscape|]. }
  destruct (isLowSurrogate c) eqn:Hlow.
  { by apply wellFormed_app; [apply wellFormed_unicodeEscape|]. }
  by rewrite wellFormed_cons, Hhigh, Hlow.
Qed.

Lemma wellFormed_quoteJSONString (s : jsstring) :
  codeUnits s → wellFormed (quoteJSONString s) = true.
Proof.
  intros Hs. unfold quoteJSONString.
  apply wellFormed_app; [done|]. apply wellFormed_app; [|done].
  by apply (wellFormed_escapeJSON_bounded (length s)).
Qed.

Lemma codeUnits_unicodeEscape c :
  (c < 0x10000)%N → codeUnits (unicodeEscape c).
Proof.
  intros Hc. unfold unicodeEscape, codeUnits.
  repeat (apply Forall_cons; split); try done;
    (eapply N.lt_trans; [apply hexDigitLower_ascii; nlia | done]).
Qed.

Lemma codeUnits_escapeJSON_bounded (n : nat) (s : jsstring) :
  length s ≤ n → codeUnits s → codeUnits (escapeJSON s).
Proof.
  revert s. induction n as [|n IH]; intros s Hlen Hunits.
  { destruct s; [done|simpl in Hlen; lia]. }
  destruct s as [|c s]; [done|].
  pose proof Hunits as Hall.
  apply Forall_cons in Hunits as [Hc Hunits]. cbn [length] in Hlen.
  assert (codeUnits (escapeJSON s)) as Hs by (apply IH; [lia|done]).
  rewrite escapeJSON_cons.
  destruct (shortEscape c) as [e|] eqn:Hshort.
  { apply shortEscape_ascii in Hshort.
    apply Forall_cons; split; [done|]. apply Forall_cons; split; [lia|done]. }
  destruct (c <? 0x20)%N.
  { by apply Forall_app; split; [apply codeUnits_unicodeEscape|]. }
  destruct (isHighSurrogate c).
  { destruct s as [|lo s]; [by apply codeUnits_unicodeEscape|].
    destruct (isLowSurrogate lo).
    - apply Forall_cons in Hunits as [Hlo Hunits]. cbn [length] in Hlen.
      apply Forall_cons; split; [done|]. apply Forall_cons; split; [done|].
      apply IH; [lia|done].
    - by apply Forall_app; split; [apply codeUnits_unicodeEscape|]. }
  destruct (isLowSurrogate c).
  { by apply Forall_app; split; [apply codeUnits_unicodeEscape|]. }
  by constructor.
Qed.

Lemma codeUnits_quoteJSONString (s : jsstring) :
  codeUnits s → codeUnits (quoteJSONString s).
Proof.
  intros Hs. unfold quoteJSONString, codeUnits. rewrite !Forall_app.
  split; [by repeat constructor|]. split; [|by repeat constructor].
  by apply (codeUnits_escapeJSON_bounded (length s)).
Qed.

Lemma emittable_app a b : emittable a → emittable b → emittable (a ++ b).
Proof.
  intros [Ha1 Ha2] [Hb1 Hb2]. split.
  - by apply Forall_app.
  - by apply wellFormed_app.
Qed.

Lemma emittable_quote s : codeUnits s → emittable (quoteJSONString s).
Proof.
  split; [by apply codeUnits_quoteJSONString
         |by apply wellFormed_quoteJSONString].
Qed.

Ltac emittable_literal := apply (bool_decide_unpack _); by vm_compute.

Lemma emittable_joinWith glue (pieces : list jsstring) :
  emittable glue → Forall emittable pieces →
  emittable (joinWith glue pieces).
Proof.
  intros Hglue. induction 1 as [|x l Hx Hl IH]; [emittable_literal|].
  destruct l as [|y l]; [done|]. rewrite joinWith_cons2.
  by repeat apply emittable_app.
Qed.

Lemma emittable_serializeObject (fields : list (jsstring * jsstring)) :
  Forall (λ kv, codeUnits (fst kv) ∧ emittable (snd kv)) fields →
  emittable (serializeObject fields).
Proof.
  intros Hfields. unfold serializeObject.
  apply emittable_app; [emittable_literal|].
  apply emittable_app; [|emittable_literal].
  apply emittable_joinWith; [emittable_literal|].
  apply Forall_fmap. eapply Forall_impl; [exact Hfields|].
  intros [k v] [Hk Hv]. cbn [fst snd] in *.
  apply emittable_app; [by apply emittable_quote|].
  apply emittable_app; [emittable_literal | done].
Qed.

Lemma emittable_serializeArray (items : list jsstring) :
  Forall emittable items → emittable (serializeArray items).
Proof.
  intros Hitems. unfold serializeArray.
  apply emittable_app; [emittable_literal|].
  apply emittable_app; [|emittable_literal].
  apply emittable_joinWith; [emittable_literal | done].
Qed.

Lemma codeUnits_literal (s : string) :
  bool_decide (codeUnits (js s)) = true → codeUnits (js s).
Proof. apply bool_decide_eq_true_1. Qed.

Lemma emittable_stringifyPlayer p :
  validPlayer p → emittable (stringifyPlayer p).
Proof.
  intros (Hid & Hname & Hcolor & Hteam). apply emittable_serializeObject.
  repeat (apply Forall_cons; split); try apply Forall_nil; cbn [fst snd];
    try (split; [by apply codeUnits_literal | by apply emittable_quote]).
  - split; [by apply codeUnits_literal|].
    destruct (Player.teamId p); cbn [stringifyNullable];
      [by apply emittable_quote | emittable_literal].
  - done.
Qed.

Lemma emittable_stringifyTeam tm :
  validTeam tm → emittable (stringifyTeam tm).
Proof.
  intros (Hid & Hname & Haccent). apply emittable_serializeObject.
  repeat (apply Forall_cons; split); try apply Forall_nil; cbn [fst snd];
    try (split; [by apply codeUnits_literal | by apply emittable_quote]).
  all: done.
Qed.

Lemma emittable_stringifyPlayers ps :
  Forall validPlayer ps → emittable (stringifyPlayers ps).
Proof.
  intros Hps. apply emittable_serializeArray, Forall_fmap.
  eapply Forall_impl; [exact Hps|]. apply emittable_stringifyPlayer.
Qed.

Lemma emittable_stringifyTeams tms :
  Forall validTeam tms → emittable (stringifyTeams tms).
Proof.
  intros Htms. apply emittable_serializeArray, Forall_fmap.
  eapply Forall_impl; [exact Htms|]. apply emittable_stringifyTeam.
Qed.

(** ** Parsing what [JSON.stringify] wrote *)

Lemma parseValue_S fuel s :
  parseValue (S fuel) s
  = match skipWhitespace s with
    | [] => Throw SyntaxError
    | c :: s1 =>
        if (c =? 0x22)%N then
          r ← parseStringBody s1; Normal (JString r.1, r.2)
        else if (c =? 0x5B)%N then
          match skipWhitespace s1 with
          | d :: s2 =>
              if (d =? 0x5D)%N then Normal (JArray [], s2)
              else parseElements fuel (d :: s2) []
          | [] => Throw SyntaxError
          end
        else if (c =? 0x7B)%N then
          match skipWhitespace s1 with
          | d :: s2 =>
              if (d =? 0x7D)%N then Normal (JObject [], s2)
              else parseMembers fuel (d :: s2) []
          | [] => Throw SyntaxError
          end
        else if startsWith (js "true") (c :: s1)
        then Normal (JBool true, drop 4 (c :: s1))
        else if startsWith (js "false") (c :: s1)
        then Normal (JBool false, drop 5 (c :: s1))
        else if startsWith (js "null") (c :: s1)
        then Normal (JNull, drop 4 (c :: s1))
        else if (c =? 0x2D)%N || isDigit c then
          r ← parseNumber (c :: s1); Normal (JNumber r.1, r.2)
        else Throw SyntaxError
    end.
Proof. done. Qed.

Lemma parseElements_S fuel s items :
  parseElements (S fuel) s items
  = r ← parseValue fuel s;
    match skipWhitespace r.2 with
    | c :: s1 =>
        if (c =? 0x2C)%N then parseElements fuel s1 (items ++ [r.1])
        else if (c =? 0x5D)%N then Normal (JArray (items ++ [r.1]), s1)
        else Throw SyntaxError
    | [] => Throw SyntaxError
    end.
Proof. done. Qed.

Lemma parseMembers_S fuel s fields :
  parseMembers (S fuel) s fields
  = match skipWhitespace s with
    | q :: s1 =>
        if (q =? 0x22)%N then
          key ← parseStringBody s1;
          match skipWhitespace key.2 with
          | colon :: s2 =>
              if (colon =? 0x3A)%N then
                r ← parseValue fuel s2;
                let fields1 := setField key.1 r.1 fields in
                match skipWhitespace r.2 with
                | c :: s3 =>
                    if (c =? 0x2C)%N then parseMembers fuel s3 fields1
                    else if (c =? 0x7D)%N then Normal (JObject fields1, s3)
                    else Throw SyntaxError
                | [] => Throw SyntaxError
                end
              else Throw SyntaxError
          | [] => Throw SyntaxError
          end
        else Throw SyntaxError
    | [] => Throw SyntaxError
    end.
Proof. done. Qed.

Lemma skipWhitespace_visible c s :
  isJsonWhitespace c = false → skipWhitespace (c :: s) = c :: s.
Proof. intros Hc. cbn [skipWhitespace]. by rewrite Hc. Qed.

Lemma quoteJSONString_app s rest :
  quoteJSONString s ++ rest = 0x22%N :: escapeJSON s ++ 0x22%N :: rest.
Proof. unfold quoteJSONString. by rewrite <- !app_assoc. Qed.

Lemma parsesAs_string s :
  codeUnits s → parsesAs 1 (quoteJSONString s) (JString s).
Proof.
  intros Hs fuel rest. cbn [Nat.add]. rewrite parseValue_S, quoteJSONString_app.
  rewrite skipWhitespace_visible by done. cbn [N.eqb Pos.eqb].
  by rewrite parseStringBody_escapeJSON.
Qed.

Lemma parsesAs_null : parsesAs 1 (js "null") JNull.
Proof. intros fuel rest. done. Qed.

Lemma parsesAs_nullable v :
  match v with Some s => codeUnits s | None => True end →
  parsesAs 1 (stringifyNullable v) (nullableJson v).
Proof.
  destruct v as [s|]; intros Hs.
  - by apply parsesAs_string.
  - apply parsesAs_null.
Qed.

Lemma parsesAs_more need extra vt vj :
  parsesAs need vt vj → parsesAs (need + extra) vt vj.
Proof. intros H fuel rest. rewrite <- Nat.add_assoc. apply H. Qed.

(** One member followed by a comma, and the last member of an object. *)
Lemma parseMembers_comma need fuel k vt vj rest fields :
  codeUnits k → parsesAs need vt vj →
  parseMembers (S (need + fuel))
    (quoteJSONString k ++ js ":" ++ vt ++ js "," ++ rest) fields
  = parseMembers (need + fuel) rest (setField k vj fields).
Proof.
  intros Hk Hv. rewrite parseMembers_S, quoteJSONString_app.
  rewrite skipWhitespace_visible by done. cbn [N.eqb Pos.eqb].
  rewrite parseStringBody_escapeJSON by done.
  cbn [mbind Completion_bind fst snd].
  change (js ":" ++ vt ++ js "," ++ rest)
    with (0x3A%N :: vt ++ 0x2C%N :: rest).
  rewrite skipWhitespace_visible by done. cbn [N.eqb Pos.eqb].
  by rewrite Hv.
Qed.

Lemma parseMembers_close need fuel k vt vj rest fields :
  codeUnits k → parsesAs need vt vj →
  parseMembers (S (need + fuel))
    (quoteJSONString k ++ js ":" ++ vt ++ js "}" ++ rest) fields
  = Normal (JObject (setField k vj fields), rest).
Proof.
  intros Hk Hv. rewrite parseMembers_S, quoteJSONString_app.
  rewrite skipWhitespace_visible by done. cbn [N.eqb Pos.eqb].
  rewrite parseStringBody_escapeJSON by done.
  cbn [mbind Completion_bind fst snd].
  change (js ":" ++ vt ++ js "}" ++ rest)
    with (0x3A%N :: vt ++ 0x7D%N :: rest).
  rewrite skipWhitespace_visible by done. cbn [N.eqb Pos.eqb].
  by rewrite Hv.
Qed.

Lemma parseValue_object fuel k rest :
  parseValue (S fuel) (js "{" ++ quoteJSONString k ++ rest)
  = parseMembers fuel (quoteJSONString k ++ rest) [].
Proof.
  rewrite parseValue_S, quoteJSONString_app.
  change (js "{" ++ ?t) with (0x7B%N :: t).
  by rewrite !skipWhitespace_visible by done.
Qed.

Lemma parsesAs_player p :
  validPlayer p → parsesAs 6 (stringifyPlayer p) (playerJson p).
Proof.
  intros (Hid & Hname & Hcolor & Hteam) fuel rest.
  unfold stringifyPlayer, serializeObject.
  cbn [fmap list_fmap joinWith fst snd]. rewrite <- !app_assoc.
  change (6 + fuel) with (S (S (1 + (3 + fuel)))).
  rewrite parseValue_object.
  erewrite (parseMembers_comma 1); [|by apply codeUnits_literal
                                    |by apply parsesAs_string].
  change (1 + (3 + fuel)) with (S (1 + (2 + fuel))).
  erewrite (parseMembers_comma 1); [|by apply codeUnits_literal
                                    |by apply parsesAs_string].
  change (1 + (2 + fuel)) with (S (1 + (1 + fuel))).
  erewrite (parseMembers_comma 1); [|by apply codeUnits_literal
                                    |by apply parsesAs_string].
  change (1 + (1 + fuel)) with (S (1 + fuel)).
  erewrite (parseMembers_close 1); [done|by apply codeUnits_literal|].
  by apply parsesAs_nullable.
Qed.

Lemma parsesAs_team tm :
  validTeam tm → parsesAs 6 (stringifyTeam tm) (teamJson tm).
Proof.
  intros (Hid & Hname & Haccent) fuel rest.
  unfold stringifyTeam, serializeObject.
  cbn [fmap list_fmap joinWith fst snd]. rewrite <- !app_assoc.
  change (6 + fuel) with (S (S (1 + (3 + fuel)))).
  rewrite parseValue_object.
  erewrite (parseMembers_comma 1); [|by apply codeUnits_literal
                                    |by apply parsesAs_string].
  change (1 + (3 + fuel)) with (S (1 + (2 + fuel))).
  erewrite (parseMembers_comma 1); [|by apply codeUnits_literal
                                    |by apply parsesAs_string].
  change (1 + (2 + fuel)) with (S (1 + (1 + fuel))).
  erewrite (parseMembers_close 1); [done|by apply codeUnits_literal|].
  by apply parsesAs_string.
Qed.

Section Arrays.

Context {A : Type} (P : A → Prop) (text : A → jsstring) (json : A → Json).
Hypothesis item_parses : ∀ x, P x → parsesAs 6 (text x) (json x).
Hypothesis item_object : ∀ x, ∃ t, text x = js "{" ++ t ++ js "}".

Lemma parseElements_items (l : list A) (x : A) fuel rest items :
  Forall P (x :: l) →
  parseElements (length l + 7 + fuel)
    (joinWith (js ",") (text <$> x :: l) ++ js "]" ++ rest) items
  = Normal (JArray (items ++ (json <$> x :: l)), rest).
Proof using item_parses.
  revert x items. induction l as [|y l IH]; intros x items Hall;
    apply Forall_cons in Hall as [Hx Hall].
  - cbn [length fmap list_fmap joinWith Nat.add].
    rewrite parseElements_S.
    change (S (S (S (S (S (S fuel)))))) with (6 + fuel).
    by rewrite item_parses.
  - rewrite !fmap_cons, joinWith_cons2, <- !app_assoc.
    change (length (y :: l) + 7 + fuel) with (S (length l + 7 + fuel)).
    rewrite parseElements_S.
    replace (length l + 7 + fuel) with (6 + (length l + 1 + fuel)) by lia.
    rewrite item_parses by done. cbn [mbind Completion_bind fst snd].
    change (js "," ++ ?t) with (0x2C%N :: t).
    rewrite skipWhitespace_visible by done. cbn [N.eqb Pos.eqb].
    replace (6 + (length l + 1 + fuel)) with (length l + 7 + fuel) by lia.
    rewrite <- fmap_cons, IH by done.
    by rewrite <- app_assoc.
Qed.

Lemma length_joinWith (l : list A) :
  2 * length l ≤ length (joinWith (js ",") (text <$> l)).
Proof using item_object.
  assert (∀ x, 2 ≤ length (text x)) as Hitem.
  { intros x. destruct (item_object x) as [t ->].
    rewrite !length_app. change (length (js "{")) with 1.
    change (length (js "}")) with 1. lia. }
  induction l as [|x l IH]; [done|].
  destruct l as [|y l].
  - cbn [fmap list_fmap joinWith length]. specialize (Hitem x). lia.
  - rewrite fmap_cons, fmap_cons, joinWith_cons2, <- fmap_cons, !length_app.
    specialize (Hitem x). cbn [length] in *. lia.
Qed.

Lemma JSON_parse_serializeArray (l : list A) :
  Forall P l →
  JSON_parse (serializeArray (text <$> l)) = Normal (JArray (json <$> l)).
Proof using item_parses item_object.
  intros Hall. unfold JSON_parse, serializeArray.
  destruct l as [|x l]; [done|].
  pose proof (length_joinWith (x :: l)) as Hlen.
  set (joined := joinWith (js ",") (text <$> x :: l)) in *.
  assert (∃ extra, 2 * length (js "[" ++ joined ++ js "]") + 2
                   = S (length l + 7 + extra)) as [extra ->].
  { exists (2 * length joined - length l - 2).
    rewrite !length_app. change (length (js "[")) with 1.
    change (length (js "]")) with 1. cbn [length] in Hlen. lia. }
  rewrite parseValue_S. change (js "[" ++ ?t) with (0x5B%N :: t).
  rewrite skipWhitespace_visible by done. cbn [N.eqb Pos.eqb].
  assert (∃ t, joined = 0x7B%N :: t) as [t Ht].
  { subst joined. destruct (item_object x) as [t Hx].
    destruct l as [|y l].
    - cbn [fmap list_fmap joinWith]. rewrite Hx. by eexists.
    - rewrite !fmap_cons, joinWith_cons2, Hx. by eexists. }
  rewrite Ht. cbn [app]. rewrite skipWhitespace_visible by done.
  cbn [N.eqb Pos.eqb].
  change (0x7B%N :: t ++ js "]") with ((0x7B%N :: t) ++ js "]").
  rewrite <- Ht. subst joined.
  rewrite <- (app_nil_r (js "]")).
  rewrite parseElements_items by done. done.
Qed.

End Arrays.

Lemma JSON_parse_stringifyPlayers (ps : list Player.t) :
  Forall validPlayer ps →
  JSON_parse (stringifyPlayers ps) = Normal (playersJson ps).
Proof.
  apply (JSON_parse_serializeArray validPlayer); [apply parsesAs_player|].
  intros p. unfold stringifyPlayer, serializeObject. by eexists.
Qed.

Lemma JSON_parse_stringifyTeams (tms : list Team.t) :
  Forall validTeam tms →
  JSON_parse (stringifyTeams tms) = Normal (teamsJson tms).
Proof.
  apply (JSON_parse_serializeArray validTeam); [apply parsesAs_team|].
  intros tm. unfold stringifyTeam, serializeObject. by eexists.
Qed.

(** ** The fuel of the JSON parser is never the reason for a failure *)

Lemma skipWhitespace_length s : length (skipWhitespace s) ≤ length s.
Proof.
  induction s as [|c s IH]; [done|]. cbn [skipWhitespace].
  destruct (isJsonWhitespace c); cbn [length]; lia.
Qed.

Lemma parseStringBody_length_bounded (n : nat) s str r :
  length s ≤ n → parseStringBody s = Normal (str, r) → length r < length s.
Proof.
  revert s str r. induction n as [|n IH]; intros s str r Hlen Hparse.
  { destruct s; [done|simpl in Hlen; lia]. }
  destruct s as [|c s]; [done|]. cbn [length] in *.
  rewrite parseStringBody_cons in Hparse.
  destruct (c =? 0x22)%N; [injection Hparse as <- <-; lia|].
  destruct (c =? 0x5C)%N.
  - destruct s as [|e s]; [done|]. cbn [length] in *.
    destruct (e =? 0x75)%N.
    + destruct s as [|h1 [|h2 [|h3 [|h4 s]]]]; try done. cbn [length] in *.
      destruct (hex4 h1 h2 h3 h4); [|done].
      apply bind_Normal_inv in Hparse as ([str' r'] & Hrec & [= <- <-]).
      apply IH in Hrec; [|lia]. cbn [snd]. lia.
    + destruct (unescapeShort e); [|done].
      apply bind_Normal_inv in Hparse as ([str' r'] & Hrec & [= <- <-]).
      apply IH in Hrec; [|lia]. cbn [snd]. lia.
  - destruct (c <? 0x20)%N; [done|].
    apply bind_Normal_inv in Hparse as ([str' r'] & Hrec & [= <- <-]).
    apply IH in Hrec; [|lia]. cbn [snd]. lia.
Qed.

Lemma parseStringBody_length s str r :
  parseStringBody s = Normal (str, r) → length r < length s.
Proof. by apply (parseStringBody_length_bounded (length s)). Qed.

Lemma spanDigits_length s : length (spanDigits s).2 ≤ length s.
Proof.
  induction s as [|c s IH]; [done|]. cbn [spanDigits].
  destruct (isDigit c); [|done].
  destruct (spanDigits s) as [d r]. cbn [snd length] in *. lia.
Qed.

Lemma parseDigits_length s d r :
  parseDigits s = Normal (d, r) → length r < length s.
Proof.
  unfold parseDigits. destruct s as [|c s]; [done|]. cbn [spanDigits].
  destruct (isDigit c); [|done].
  pose proof (spanDigits_length s) as Hlen.
  destruct (spanDigits s) as [d' r']. intros [= <- <-]. cbn [snd length] in *.
  lia.
Qed.

Lemma parseNumber_length s lit r :
  parseNumber s = Normal (lit, r) → length r < length s.
Proof.
  unfold parseNumber.
  set (signed := match s with
                 | c :: s1 => if (c =? 0x2D)%N then ([c], s1) else ([], s)
                 | [] => ([], s)
                 end).
  assert (length signed.2 ≤ length s) as Hsigned.
  { subst signed. destruct s as [|c s]; [done|].
    destruct (c =? 0x2D)%N; cbn [snd length]; lia. }
  destruct signed as [sign s0]. cbn [snd] in Hsigned.
  intros ([int s1] & Hint & Hrest)%bind_Normal_inv.
  assert (length s1 < length s0) as Hs1.
  { destruct s0 as [|c s0]; [done|].
    destruct (c =? 0x30)%N; [injection Hint as <- <-; cbn [length]; lia|].
    destruct (isDigit c); [|done]. by apply parseDigits_length in Hint. }
  apply bind_Normal_inv in Hrest as ([frac s2] & Hfrac & Hrest).
  cbn [fst snd] in *.
  assert (length s2 ≤ length s1) as Hs2.
  { destruct s1 as [|c s1]; [by injection Hfrac as <- <-|].
    destruct (c =? 0x2E)%N; [|by injection Hfrac as <- <-].
    apply bind_Normal_inv in Hfrac as ([d r'] & Hd & [= <- <-]).
    apply parseDigits_length in Hd. cbn [snd length]. lia. }
  apply bind_Normal_inv in Hrest as ([exp s3] & Hexp & [= <- <-]).
  cbn [fst snd] in *.
  assert (length s3 ≤ length s2) as Hs3.
  { destruct s2 as [|c s2]; [by injection Hexp as <- <-|].
    destruct ((c =? 0x65)%N || (c =? 0x45)%N); [|by injection Hexp as <- <-].
    set (esigned := match s2 with
                    | g :: t =>
                        if (g =? 0x2B)%N || (g =? 0x2D)%N
                        then ([g], t) else ([], s2)
                    | [] => ([], s2)
                    end) in Hexp.
    assert (length esigned.2 ≤ length s2) as Hes.
    { subst esigned. destruct s2 as [|g t]; [done|].
      destruct ((g =? 0x2B)%N || (g =? 0x2D)%N); cbn [snd length]; lia. }
    destruct esigned as [esign s2']. cbn [snd] in Hes.
    apply bind_Normal_inv in Hexp as ([d r'] & Hd & [= <- <-]).
    apply parseDigits_length in Hd. cbn [snd length]. lia. }
  lia.
Qed.

Lemma fuelFree_all fuel : fuelFree fuel.
Proof.
  induction fuel as [|fuel (IHv & IHe & IHm)]; [by repeat split|].
  split; [|split].
  - intros s v r. rewrite parseValue_S.
    pose proof (skipWhitespace_length s) as Hws.
    destruct (skipWhitespace s) as [|c s1] eqn:Hs; [done|].
    cbn [length] in Hws.
    destruct (c =? 0x22)%N eqn:Hquote.
    { intros ([str r'] & Hstr & [= <- <-])%bind_Normal_inv. cbn [snd].
      pose proof (parseStringBody_length _ _ _ Hstr) as Hlen.
      split; [lia|]. intros [|more] Hmore; [lia|].
      by rewrite parseValue_S, Hs, Hquote, Hstr. }
    destruct (c =? 0x5B)%N eqn:Hbracket.
    { pose proof (skipWhitespace_length s1) as Hws1.
      destruct (skipWhitespace s1) as [|d s2] eqn:Hs1; [done|].
      cbn [length] in Hws1.
      destruct (d =? 0x5D)%N eqn:Hclose.
      - intros [= <- <-]. split; [lia|]. intros [|more] Hmore; [lia|].
        by rewrite parseValue_S, Hs, Hquote, Hbracket, Hs1, Hclose.
      - intros [Hlen Hfuel]%IHe. cbn [length] in *. split; [lia|].
        intros [|more] Hmore; [lia|].
        rewrite parseValue_S, Hs, Hquote, Hbracket, Hs1, Hclose.
        apply Hfuel. lia. }
    destruct (c =? 0x7B)%N eqn:Hbrace.
    { pose proof (skipWhitespace_length s1) as Hws1.
      destruct (skipWhitespace s1) as [|d s2] eqn:Hs1; [done|].
      cbn [length] in Hws1.
      destruct (d =? 0x7D)%N eqn:Hclose.
      - intros [= <- <-]. split; [lia|]. intros [|more] Hmore; [lia|].
        by rewrite parseValue_S, Hs, Hquote, Hbracket, Hbrace, Hs1, Hclose.
      - intros [Hlen Hfuel]%IHm. cbn [length] in *. split; [lia|].
        intros [|more] Hmore; [lia|].
        rewrite parseValue_S, Hs, Hquote, Hbracket, Hbrace, Hs1, Hclose.
        apply Hfuel. lia. }
    destruct (startsWith (js "true") (c :: s1)) eqn:Htrue.
    { intros [= <- <-]. rewrite length_drop. cbn [length].
      split; [lia|]. intros [|more] Hmore; [lia|].
      by rewrite parseValue_S, Hs, Hquote, Hbracket, Hbrace, Htrue. }
    destruct (startsWith (js "false") (c :: s1)) eqn:Hfalse.
    { intros [= <- <-]. rewrite length_drop. cbn [length].
      split; [lia|]. intros [|more] Hmore; [lia|].
      by rewrite parseValue_S, Hs, Hquote, Hbracket, Hbrace, Htrue, Hfalse. }
    destruct (startsWith (js "null") (c :: s1)) eqn:Hnull.
    { intros [= <- <-]. rewrite length_drop. cbn [length].
      split; [lia|]. intros [|more] Hmore; [lia|].
      by rewrite parseValue_S, Hs, Hquote, Hbracket, Hbrace, Htrue, Hfalse,
        Hnull. }
    destruct ((c =? 0x2D)%N || isDigit c) eqn:Hnum; [|done].
    intros ([lit r'] & Hlit & [= <- <-])%bind_Normal_inv. cbn [snd].
    pose proof (parseNumber_length _ _ _ Hlit) as Hlen. cbn [length] in Hlen.
    split; [lia|]. intros [|more] Hmore; [lia|].
    by rewrite parseValue_S, Hs, Hquote, Hbracket, Hbrace, Htrue, Hfalse,
      Hnull, Hnum, Hlit.
  - intros s items v r. rewrite parseElements_S.
    intros ([v1 r1] & Hv1 & Hrest)%bind_Normal_inv. cbn [fst snd] in Hrest.
    destruct (IHv _ _ _ Hv1) as [Hlen1 Hfuel1].
    pose proof (skipWhitespace_length r1) as Hws.
    destruct (skipWhitespace r1) as [|c s1] eqn:Hr1; [done|].
    cbn [length] in Hws.
    destruct (c =? 0x2C)%N eqn:Hcomma.
    + destruct (IHe _ _ _ _ Hrest) as [Hlen Hfuel]. split; [lia|].
      intros [|more] Hmore; [lia|].
      rewrite parseElements_S, Hfuel1 by lia.
      cbn [mbind Completion_bind fst snd]. rewrite Hr1, Hcomma.
      apply Hfuel. lia.
    + destruct (c =? 0x5D)%N eqn:Hclose; [|done].
      injection Hrest as <- <-. split; [lia|].
      intros [|more] Hmore; [lia|].
      rewrite parseElements_S, Hfuel1 by lia.
      cbn [mbind Completion_bind fst snd]. by rewrite Hr1, Hcomma, Hclose.
  - intros s fields v r. rewrite parseMembers_S.
    pose proof (skipWhitespace_length s) as Hws.
    destruct (skipWhitespace s) as [|q s1] eqn:Hs; [done|].
    cbn [length] in Hws.
    destruct (q =? 0x22)%N eqn:Hquote; [|done].
    intros ([key r0] & Hkey & Hrest)%bind_Normal_inv. cbn [fst snd] in Hrest.
    pose proof (parseStringBody_length _ _ _ Hkey) as Hlen0.
    pose proof (skipWhitespace_length r0) as Hws0.
    destruct (skipWhitespace r0) as [|colon s2] eqn:Hr0; [done|].
    cbn [length] in Hws0.
    destruct (colon =? 0x3A)%N eqn:Hcolon; [|done].
    apply bind_Normal_inv in Hrest as ([v1 r1] & Hv1 & Hrest).
    cbn [fst snd] in Hrest.
    destruct (IHv _ _ _ Hv1) as [Hlen1 Hfuel1].
    pose proof (skipWhitespace_length r1) as Hws1.
    destruct (skipWhitespace r1) as [|c s3] eqn:Hr1; [done|].
    cbn [length] in Hws1.
    destruct (c =? 0x2C)%N eqn:Hcomma.
    + destruct (IHm _ _ _ _ Hrest) as [Hlen Hfuel]. split; [lia|].
      intros [|more] Hmore; [lia|].
      rewrite parseMembers_S, Hs, Hquote, Hkey.
      cbn [mbind Completion_bind fst snd]. rewrite Hr0, Hcolon.
      rewrite Hfuel1 by lia. cbn [mbind Completion_bind fst snd].
      rewrite Hr1, Hcomma. apply Hfuel. lia.
    + destruct (c =? 0x7D)%N eqn:Hclose; [|done].
      injection Hrest as <- <-. split; [lia|].
      intros [|more] Hmore; [lia|].
      rewrite parseMembers_S, Hs, Hquote, Hkey.
      cbn [mbind Completion_bind fst snd]. rewrite Hr0, Hcolon.
      rewrite Hfuel1 by lia. cbn [mbind Completion_bind fst snd].
      by rewrite Hr1, Hcomma, Hclose.
Qed.

(** Whatever some amount of fuel can parse, [JSON_parse] parses. *)
Theorem JSON_parse_fuel (fuel : nat) (text : jsstring) (v : Json)
    (rest : jsstring) :
  parseValue fuel text = Normal (v, rest) →
  skipWhitespace rest = [] →
  JSON_parse text = Normal v.
Proof.
  intros Hparse Hrest. destruct (fuelFree_all fuel) as (Hvalue & _).
  destruct (Hvalue _ _ _ Hparse) as [Hlen Hfuel]. unfold JSON_parse.
  rewrite Hfuel by lia. cbn [mbind Completion_bind fst snd]. by rewrite Hrest.
Qed.

(** ** Writing a cookie *)

Lemma breakAt_found stop x t :
  stop ∉ x → breakAt stop (x ++ stop :: t) = (x, Some t).
Proof.
  induction x as [|c x IH]; intros Hx; cbn [app breakAt].
  - by rewrite bool_decide_eq_true_2.
  - apply not_elem_of_cons in Hx as [Hc Hx].
    rewrite bool_decide_eq_false_2 by done. by rewrite IH.
Qed.

Lemma dropWsp_visible s : Forall (λ c, isWsp c = false) s → dropWsp s = s.
Proof. destruct 1 as [|c s Hc _]; [done|]. cbn [dropWsp]. by rewrite Hc. Qed.

Lemma stripWsp_visible s : Forall (λ c, isWsp c = false) s → stripWsp s = s.
Proof.
  intros Hs. unfold stripWsp. rewrite (dropWsp_visible s) by done.
  rewrite dropWsp_visible by by apply Forall_reverse.
  apply reverse_involutive.
Qed.

(** The attributes the page writes: the path ["/"], and an age that is
    positive. *)
Lemma readAttributes_page :
  readAttributes (Some (js " path=/; max-age=31536000"))
  = mkAttributes None (Some (js "/")) false false.
Proof. by vm_compute. Qed.

(** What an assignment of the page does: nothing when the cookie is too
    large, else it stores a host-only cookie on the path ["/"]. *)
Lemma setCookie_write slot value store :
  slotName slot → Forall cookieSafe value →
  setCookie (slot ++ js "=" ++ value ++ js "; path=/; max-age=31536000")
    store
  = if 4096 <? octetLength slot + octetLength value then store
    else storeCookie (rootCookie slot value) store.
Proof.
  intros (Hne & Hsemi & Heq & Hvis) Hvalue. unfold setCookie.
  replace (slot ++ js "=" ++ value ++ js "; path=/; max-age=31536000")
    with ((slot ++ js "=" ++ value)
            ++ 0x3B%N :: js " path=/; max-age=31536000")
    by by rewrite <- !app_assoc.
  rewrite breakAt_found.
  - cbn [fst snd]. rewrite readAttributes_page.
    change (js "=" ++ value) with (0x3D%N :: value).
    rewrite breakAt_found by done.
    rewrite (stripWsp_visible slot) by done.
    rewrite stripWsp_visible.
    + destruct slot; [done|]. cbn [truthy].
      by destruct (4096 <? _).
    + eapply Forall_impl; [exact Hvalue|]. by intros c [_ Hc].
  - rewrite !not_elem_of_app. split; [done|]. split.
    + by apply (bool_decide_unpack _).
    + intros Hin. by eapply Forall_forall in Hvalue as [Hc _].
Qed.

(** *** The listing after a write over the cookie of the name *)

Lemma lookupCookie_withCookie slot value jar :
  lookupCookie slot (withCookie slot value jar) = Some value.
Proof.
  induction jar as [|[n v] jar IH]; cbn [withCookie lookupCookie].
  - by rewrite bool_decide_eq_true_2.
  - case_bool_decide as Hn; cbn [lookupCookie].
    + by rewrite bool_decide_eq_true_2.
    + by rewrite bool_decide_eq_false_2.
Qed.

Lemma cookiesNamed_cons name nv (jar : list (jsstring * jsstring)) :
  cookiesNamed name (nv :: jar)
  = if decide (nv.1 = name) then nv :: cookiesNamed name jar
    else cookiesNamed name jar.
Proof. unfold cookiesNamed. by rewrite filter_cons. Qed.

Lemma cookiesNamed_app name (jar1 jar2 : list (jsstring * jsstring)) :
  cookiesNamed name (jar1 ++ jar2)
  = cookiesNamed name jar1 ++ cookiesNamed name jar2.
Proof. unfold cookiesNamed. by rewrite filter_app. Qed.

Lemma cookiesNamed_absent name (jar : list (jsstring * jsstring)) :
  name ∉ jar.*1 → cookiesNamed name jar = [].
Proof.
  induction jar as [|[n v] jar IH]; [done|]. rewrite fmap_cons.
  intros [Hn Hjar]%not_elem_of_cons. rewrite cookiesNamed_cons.
  cbn [fst] in *. rewrite decide_False by done. by apply IH.
Qed.

Lemma cookiesNamed_withCookie name value jar :
  length (cookiesNamed name jar) ≤ 1 →
  cookiesNamed name (withCookie name value jar) = [(name, value)].
Proof.
  induction jar as [|[n v] jar IH]; cbn [withCookie].
  - intros _. rewrite cookiesNamed_cons. cbn [fst]. by rewrite decide_True.
  - rewrite cookiesNamed_cons. cbn [fst]. case_bool_decide as Hn.
    + subst n. rewrite decide_True by done. cbn [length]. intros Hlen.
      rewrite cookiesNamed_cons. cbn [fst]. rewrite decide_True by done.
      destruct (cookiesNamed name jar); [done|]. simpl in Hlen. lia.
    + rewrite decide_False by done. intros Hlen.
      rewrite cookiesNamed_cons. cbn [fst]. rewrite decide_False by done.
      by apply IH.
Qed.

Lemma withCookie_absent name value (jar : CookieJar) :
  name ∉ jar.*1 → withCookie name value jar = jar ++ [(name, value)].
Proof.
  induction jar as [|[n v] jar IH]; [done|]. rewrite fmap_cons.
  intros [Hn Hjar]%not_elem_of_cons. cbn [withCookie fst] in *.
  rewrite bool_decide_eq_false_2 by done. by rewrite IH.
Qed.

Lemma withCookie_found name value old (before after : CookieJar) :
  name ∉ before.*1 →
  withCookie name value (before ++ (name, old) :: after)
  = before ++ (name, value) :: after.
Proof.
  induction before as [|[n v] before IH].
  - intros _. cbn [app withCookie]. by rewrite bool_decide_eq_true_2.
  - rewrite fmap_cons. intros [Hn Hbefore]%not_elem_of_cons.
    cbn [app withCookie fst] in *.
    rewrite bool_decide_eq_false_2 by done. by rewrite IH.
Qed.

(** *** Stores *)

Lemma pathMatch_root tail : pathMatch (0x2F%N :: tail) (js "/") = true.
Proof.
  unfold pathMatch. change (js "/") with [0x2F%N]. cbn [startsWith].
  rewrite bool_decide_eq_true_2 by done. cbn [andb].
  apply orb_true_iff. left. apply orb_true_iff. right.
  by apply bool_decide_eq_true_2.
Qed.

Lemma visible_rootCookie tail name value :
  visible (0x2F%N :: tail) (rootCookie name value) = true.
Proof.
  unfold visible, rootCookie. cbn [Cookie.httpOnly Cookie.path negb andb].
  apply pathMatch_root.
Qed.

Lemma sameKey_true a b : sameKey a b = true ↔ cookieKey a = cookieKey b.
Proof.
  unfold sameKey, cookieKey. rewrite bool_decide_eq_true.
  split; [by intros (-> & -> & ->)|]. by intros [= -> -> ->].
Qed.

Lemma sameKey_false a b : sameKey a b = false ↔ cookieKey a ≠ cookieKey b.
Proof.
  rewrite <- sameKey_true. by destruct (sameKey a b).
Qed.

Lemma sameKey_refl a : sameKey a a = true.
Proof. by apply sameKey_true. Qed.

Lemma replaceCookie_None cookie cookies :
  replaceCookie cookie cookies = None
  ↔ Forall (λ old, sameKey old cookie = false) cookies.
Proof.
  induction cookies as [|old cookies IH]; cbn [replaceCookie].
  - split; [by constructor|done].
  - rewrite Forall_cons. destruct (sameKey old cookie).
    + split; [done|]. by intros [? _].
    + split.
      * intros Hnone%fmap_None. split; [done|]. by apply IH.
      * intros [_ Hall]. apply fmap_None. by apply IH.
Qed.

(** A replacement changes the first cookie of the key and nothing else. *)
Lemma replaceCookie_Some cookie cookies cookies' :
  replaceCookie cookie cookies = Some cookies' →
  ∃ before old after,
    cookies = before ++ old :: after ∧
    Forall (λ c, sameKey c cookie = false) before ∧
    sameKey old cookie = true ∧
    cookies' = before ++ (if Cookie.httpOnly old then old else cookie)
                           :: after.
Proof.
  revert cookies'.
  induction cookies as [|old cookies IH]; intros cookies';
    cbn [replaceCookie]; [done|].
  destruct (sameKey old cookie) eqn:Hkey.
  - intros [= <-]. exists [], old, cookies.
    split; [done|]. split; [by constructor|]. split; [done|].
    by destruct (Cookie.httpOnly old).
  - intros (rest & Hrest & ->)%fmap_Some.
    destruct (IH rest Hrest) as (before & old' & after & -> & ? & ? & ->).
    exists (old :: before), old', after.
    split; [done|]. split; [by constructor|]. done.
Qed.

Lemma insertCookie_split cookie cookies :
  ∃ before after,
    cookies = before ++ after ∧
    insertCookie cookie cookies = before ++ cookie :: after.
Proof.
  induction cookies as [|old cookies (before & after & -> & Hin)];
    cbn [insertCookie].
  - by exists [], [].
  - destruct (_ <? _).
    + by exists [], (old :: before ++ after).
    + exists (old :: before), after. by rewrite Hin.
Qed.

(** A cookie on the path ["/"] goes behind all others. *)
Lemma insertCookie_root cookie cookies :
  length (Cookie.path cookie) = 1 →
  Forall wfCookie cookies →
  insertCookie cookie cookies = cookies ++ [cookie].
Proof.
  intros Hlen. induction 1 as [|old cookies (_ & _ & Hpath) _ IH]; [done|].
  cbn [insertCookie]. rewrite Hlen, IH.
  destruct (Cookie.path old); [done|]. done.
Qed.

Lemma listedAt_app request (cookies1 cookies2 : list Cookie.t) :
  listedAt request (cookies1 ++ cookies2)
  = listedAt request cookies1 ++ listedAt request cookies2.
Proof. unfold listedAt. by rewrite filter_app, fmap_app. Qed.

Lemma listedAt_cons request cookie cookies :
  listedAt request (cookie :: cookies)
  = (if visible request cookie then [cookiePair cookie] else [])
    ++ listedAt request cookies.
Proof.
  unfold listedAt. rewrite filter_cons.
  destruct (visible request cookie); [by rewrite decide_True|].
  by rewrite decide_False.
Qed.

Lemma visible_sameKey request old cookie :
  sameKey old cookie = true →
  Cookie.httpOnly old = false → Cookie.httpOnly cookie = false →
  visible request old = visible request cookie.
Proof.
  intros [= _ _ Hpath]%sameKey_true Hold Hnew. unfold visible.
  by rewrite Hold, Hnew, Hpath.
Qed.

(** What a write does to the listing: at one place, a cookie of the
    written name gives way to the written pair, or the pair is added, or
    nothing changes. *)
Lemma listed_storeCookie cookie store :
  Cookie.httpOnly cookie = false →
  ∃ before old new after,
    listed store = before ++ old ++ after ∧
    listed (storeCookie cookie store) = before ++ new ++ after ∧
    Forall (λ nv, nv.1 = Cookie.name cookie) old ∧
    (new = old ∨ new = [cookiePair cookie]).
Proof.
  intros Hscript. unfold listed, storeCookie, requestPath.
  cbn [pathTail held]. set (request := 0x2F%N :: pathTail store).
  destruct (replaceCookie cookie (held store)) as [cookies'|] eqn:Hreplace.
  - apply replaceCookie_Some in Hreplace
      as (before & old & after & -> & _ & Hkey & ->).
    rewrite !listedAt_app, !listedAt_cons.
    exists (listedAt request before).
    destruct (Cookie.httpOnly old) eqn:Hold.
    + eexists [], [], _. rewrite app_nil_l. split; [done|].
      split; [done|]. split; [by constructor|by left].
    + rewrite (visible_sameKey request old cookie) by done.
      destruct (visible request cookie).
      * exists [cookiePair old], [cookiePair cookie], (listedAt request after).
        split; [done|]. split; [done|]. split; [|by right].
        apply Forall_singleton.
        apply sameKey_true in Hkey as [= Hname _ _]. exact Hname.
      * exists [], [], (listedAt request after).
        split; [done|]. split; [done|]. split; [by constructor|by left].
  - destruct (insertCookie_split cookie (held store))
      as (before & after & -> & ->).
    rewrite !listedAt_app, listedAt_cons.
    exists (listedAt request before), [].
    destruct (visible request cookie).
    + exists [cookiePair cookie], (listedAt request after).
      split; [done|]. split; [done|]. split; [by constructor|by right].
    + exists [], (listedAt request after).
      split; [done|]. split; [done|]. split; [by constructor|by left].
Qed.

Lemma listed_storeCookie_keeps cookie store nv :
  Cookie.httpOnly cookie = false →
  nv ∈ listed store → nv.1 ≠ Cookie.name cookie →
  nv ∈ listed (storeCookie cookie store).
Proof.
  intros Hscript Hin Hne.
  destruct (listed_storeCookie cookie store Hscript)
    as (before & old & new & after & Hwas & -> & Hold & _).
  rewrite Hwas in Hin. rewrite !elem_of_app in *.
  destruct Hin as [?|[Hin|?]]; [by left| |by right; right].
  by apply (proj1 (Forall_forall _ _) Hold) in Hin.
Qed.

Lemma filter_none {A} (P : A → Prop) `{!∀ x, Decision (P x)} (l : list A) :
  Forall (λ x, ¬ P x) l → filter P l = [].
Proof.
  induction 1 as [|x l Hx _ IH]; [done|].
  by rewrite filter_cons, decide_False.
Qed.

Lemma filter_storeCookie (P : jsstring * jsstring → Prop)
    `{!∀ nv, Decision (P nv)} cookie store :
  Cookie.httpOnly cookie = false →
  (∀ nv, nv.1 = Cookie.name cookie → ¬ P nv) →
  filter P (listed (storeCookie cookie store)) = filter P (listed store).
Proof.
  intros Hscript Hname.
  change CookieJar with (list (jsstring * jsstring)).
  destruct (listed_storeCookie cookie store Hscript)
    as (before & old & new & after & -> & -> & Hold & Hnew).
  rewrite !filter_app. f_equal.
  assert (filter P old = []) as Hnone.
  { apply filter_none. eapply Forall_impl; [exact Hold|]. apply Hname. }
  rewrite Hnone. f_equal.
  destruct Hnew as [->| ->]; [done|].
  by rewrite filter_cons, decide_False by by apply Hname.
Qed.

Lemma cookiesNamed_storeCookie_ne other cookie store :
  Cookie.httpOnly cookie = false →
  other ≠ Cookie.name cookie →
  cookiesNamed other (listed (storeCookie cookie store))
  = cookiesNamed other (listed store).
Proof.
  intros Hscript Hne. apply filter_storeCookie; [done|].
  intros nv Hname. by rewrite Hname.
Qed.

Lemma existsb_app {A} (f : A → bool) (l1 l2 : list A) :
  existsb f (l1 ++ l2) = existsb f l1 || existsb f l2.
Proof. induction l1 as [|x l1 IH]; [done|]. cbn. by rewrite IH, orb_assoc. Qed.

Lemma existsb_none {A} (f : A → bool) (l : list A) :
  Forall (λ x, f x = false) l → existsb f l = false.
Proof.
  induction 1 as [|x l Hx _ IH]; [done|]. cbn [existsb]. by rewrite Hx, IH.
Qed.

Lemma existsb_some {A} (f : A → bool) (l : list A) x :
  x ∈ l → f x = true → existsb f l = true.
Proof.
  intros Hin Hx. induction l as [|y l IH]; [by apply elem_of_nil in Hin|].
  cbn [existsb]. apply elem_of_cons in Hin as [->|Hin].
  - by rewrite Hx.
  - rewrite IH by done. apply orb_true_r.
Qed.

Lemma existsb_storeCookie (f : jsstring * jsstring → bool) cookie store :
  Cookie.httpOnly cookie = false →
  f (cookiePair cookie) = false →
  Forall (λ nv, nv.1 = Cookie.name cookie → f nv = false) (listed store) →
  existsb f (listed (storeCookie cookie store)) = existsb f (listed store).
Proof.
  intros Hscript Hnew Hlisted.
  destruct (listed_storeCookie cookie store Hscript)
    as (before & old & new & after & Hwas & -> & Hold & Hnew').
  rewrite Hwas in *. rewrite !existsb_app. f_equal.
  apply Forall_app in Hlisted as [_ Hlisted].
  apply Forall_app in Hlisted as [Hlisted _].
  assert (existsb f old = false) as Hnone.
  { apply existsb_none, Forall_forall. intros nv Hnv.
    apply (proj1 (Forall_forall _ _) Hlisted nv Hnv).
    by apply (proj1 (Forall_forall _ _) Hold). }
  rewrite Hnone. f_equal.
  destruct Hnew' as [->| ->]; [done|]. cbn [existsb]. by rewrite Hnew.
Qed.

Lemma Forall_listed_storeCookie (P : jsstring * jsstring → Prop) cookie
    store :
  Cookie.httpOnly cookie = false →
  P (cookiePair cookie) → Forall P (listed store) →
  Forall P (listed (storeCookie cookie store)).
Proof.
  intros Hscript Hnew Hlisted.
  destruct (listed_storeCookie cookie store Hscript)
    as (before & old & new & after & Hwas & -> & _ & Hnew').
  rewrite Hwas in Hlisted. rewrite !Forall_app in *.
  destruct Hlisted as (? & ? & ?). split; [done|]. split; [|done].
  destruct Hnew' as [->| ->]; [done|]. by apply Forall_singleton.
Qed.

Lemma Forall_held_storeCookie (P : Cookie.t → Prop) cookie store :
  P cookie → Forall P (held store) →
  Forall P (held (storeCookie cookie store)).
Proof.
  intros Hnew Hheld. unfold storeCookie. cbn [held].
  destruct (replaceCookie cookie (held store)) as [cookies'|] eqn:Hreplace.
  - apply replaceCookie_Some in Hreplace
      as (before & old & after & Hwas & _ & _ & ->).
    rewrite Hwas in Hheld. rewrite Forall_app, Forall_cons in *.
    destruct Hheld as (? & ? & ?). by destruct (Cookie.httpOnly old).
  - destruct (insertCookie_split cookie (held store))
      as (before & after & Hwas & ->).
    rewrite Hwas in Hheld. apply Forall_app in Hheld as [? ?].
    apply Forall_app. split; [done|]. by apply Forall_cons.
Qed.

Lemma ownSlot_storeCookie slot name value store :
  ownSlot slot store → ownSlot slot (storeCookie (rootCookie name value) store).
Proof. intros Hown. by apply Forall_held_storeCookie. Qed.

Lemma wfCookie_rootCookie name value :
  name ≠ [] → wfPair (name, value) → wfCookie (rootCookie name value).
Proof. by split. Qed.

Lemma wfStore_storeCookie cookie store :
  wfStore store → wfCookie cookie → wfStore (storeCookie cookie store).
Proof.
  intros [Hkeys Hall] Hnew. split; [|by apply Forall_held_storeCookie].
  unfold storeCookie. cbn [held].
  destruct (replaceCookie cookie (held store)) as [cookies'|] eqn:Hreplace.
  - apply replaceCookie_Some in Hreplace
      as (before & old & after & Hwas & _ & Hkey & ->).
    rewrite Hwas in Hkeys. rewrite fmap_app, fmap_cons in *.
    apply sameKey_true in Hkey.
    by destruct (Cookie.httpOnly old); rewrite <- ?Hkey.
  - apply replaceCookie_None in Hreplace.
    destruct (insertCookie_split cookie (held store))
      as (before & after & Hwas & ->).
    rewrite Hwas in Hkeys, Hreplace. rewrite fmap_app, fmap_cons.
    rewrite <- Permutation_middle. apply NoDup_cons. rewrite <- fmap_app.
    split; [|done].
    intros (old & Hkey & Hin)%list_elem_of_fmap.
    apply (proj1 (Forall_forall _ _) Hreplace) in Hin.
    apply sameKey_false in Hin. congruence.
Qed.

(** On a slot of the page's own, the cookies of the name are those of the
    key the page writes. *)
Lemma ownSlot_key name value (cookies : list Cookie.t) :
  Forall (λ cookie,
            Cookie.name cookie = name →
            Cookie.domain cookie = None ∧ Cookie.path cookie = js "/" ∧
            Cookie.httpOnly cookie = false) cookies →
  Forall (λ old, sameKey old (rootCookie name value) = false) cookies →
  Forall (λ cookie, Cookie.name cookie ≠ name) cookies.
Proof.
  intros Hown Hkeys. apply Forall_forall. intros cookie Hin Hname.
  pose proof (proj1 (Forall_forall _ _) Hown _ Hin Hname)
    as (Hdomain & Hpath & _).
  pose proof (proj1 (Forall_forall _ _) Hkeys _ Hin) as Hkey.
  apply sameKey_false in Hkey. apply Hkey. unfold cookieKey.
  by rewrite Hname, Hdomain, Hpath.
Qed.

Lemma listedAt_names request name (cookies : list Cookie.t) :
  Forall (λ cookie, Cookie.name cookie ≠ name) cookies →
  name ∉ (listedAt request cookies).*1.
Proof.
  intros Hall (nv & -> & Hnv)%list_elem_of_fmap.
  apply list_elem_of_fmap in Hnv as (cookie & -> & Hin).
  apply list_elem_of_filter in Hin as [_ Hin].
  by apply (proj1 (Forall_forall _ _) Hall) in Hin.
Qed.

(** The page's write to a slot of its own: the listing gets the written
    pair in the place of the cookie of the name, or behind the others. *)
Lemma listed_storeCookie_own name value store :
  wfStore store → ownSlot name store →
  listed (storeCookie (rootCookie name value) store)
  = withCookie name value (listed store).
Proof.
  intros [_ Hwf] Hown. unfold listed, storeCookie, requestPath, ownSlot in *.
  cbn [pathTail held]. set (request := 0x2F%N :: pathTail store).
  destruct (replaceCookie _ (held store)) as [cookies'|] eqn:Hreplace.
  - apply replaceCookie_Some in Hreplace
      as (before & old & after & Hwas & Hbefore & Hkey & ->).
    rewrite Hwas in *.
    apply Forall_app in Hown as [Hown1 Hown2].
    apply Forall_cons in Hown2 as [Hold _].
    apply sameKey_true in Hkey as [= Hname Hdomain Hpath].
    destruct (Hold Hname) as (_ & _ & Hscript). rewrite Hscript.
    rewrite !listedAt_app, !listedAt_cons.
    assert (visible request old = true) as ->.
    { unfold visible. rewrite Hscript, Hpath. apply pathMatch_root. }
    rewrite (visible_rootCookie (pathTail store)).
    unfold cookiePair. cbn [app rootCookie Cookie.name Cookie.value].
    rewrite Hname. symmetry.
    apply withCookie_found, listedAt_names.
    by apply (ownSlot_key name value).
  - apply replaceCookie_None in Hreplace.
    rewrite insertCookie_root, listedAt_app, listedAt_cons by done.
    rewrite (visible_rootCookie (pathTail store)). symmetry.
    apply withCookie_absent, listedAt_names.
    by apply (ownSlot_key name value).
Qed.

(** A well-formed store lists at most one cookie under a slot of the
    page's own. *)
Lemma cookiesNamed_own name store :
  wfStore store → ownSlot name store →
  length (cookiesNamed name (listed store)) ≤ 1.
Proof.
  intros [Hkeys _] Hown. unfold listed, ownSlot in *.
  generalize (requestPath store). intros request.
  induction Hown as [|cookie cookies Hroot Hown IH]; [simpl; lia|].
  rewrite fmap_cons in Hkeys. apply NoDup_cons in Hkeys as [Hnew Hkeys].
  rewrite listedAt_cons, cookiesNamed_app.
  destruct (decide (Cookie.name cookie = name)) as [Hname|Hname].
  - destruct (Hroot Hname) as (Hdomain & Hpath & _).
    rewrite (cookiesNamed_absent name (listedAt request cookies)).
    { rewrite app_nil_r. destruct (visible request cookie); [|simpl; lia].
      rewrite cookiesNamed_cons. case_decide; simpl; lia. }
    apply listedAt_names, Forall_forall. intros other Hin Hother.
    apply Hnew. apply list_elem_of_fmap. exists other. split; [|done].
    pose proof (proj1 (Forall_forall _ _) Hown _ Hin Hother)
      as (Hdomain' & Hpath' & _). unfold cookieKey.
    by rewrite Hname, Hother, Hdomain, Hdomain', Hpath, Hpath'.
  - assert (cookiesNamed name
              (if visible request cookie then [cookiePair cookie] else [])
            = []) as ->; [|by apply IH].
    destruct (visible request cookie); [|done].
    rewrite cookiesNamed_cons. by rewrite decide_False.
Qed.

Lemma replaceCookie_idem cookie cookies cookies' :
  replaceCookie cookie cookies = Some cookies' →
  replaceCookie cookie cookies' = Some cookies'.
Proof.
  revert cookies'.
  induction cookies as [|old cookies IH]; intros cookies';
    cbn [replaceCookie]; [done|].
  destruct (sameKey old cookie) eqn:Hkey.
  - intros [= <-]. destruct (Cookie.httpOnly old) eqn:Hold;
      cbn [replaceCookie].
    + by rewrite Hkey, Hold.
    + rewrite sameKey_refl. by destruct (Cookie.httpOnly cookie).
  - intros (rest & Hrest & ->)%fmap_Some. cbn [replaceCookie].
    by rewrite Hkey, (IH rest Hrest).
Qed.

Lemma replaceCookie_insertCookie cookie cookies :
  replaceCookie cookie cookies = None →
  replaceCookie cookie (insertCookie cookie cookies)
  = Some (insertCookie cookie cookies).
Proof.
  induction cookies as [|old cookies IH]; cbn [replaceCookie insertCookie].
  - intros _. rewrite sameKey_refl. by destruct (Cookie.httpOnly cookie).
  - destruct (sameKey old cookie) eqn:Hkey; [done|].
    intros Hnone%fmap_None. destruct (_ <? _); cbn [replaceCookie].
    + rewrite sameKey_refl. by destruct (Cookie.httpOnly cookie).
    + by rewrite Hkey, IH.
Qed.

(** Storing the same cookie a second time changes nothing. *)
Lemma storeCookie_idem cookie store :
  storeCookie cookie (storeCookie cookie store) = storeCookie cookie store.
Proof.
  unfold storeCookie. cbn [pathTail held]. f_equal.
  destruct (replaceCookie cookie (held store)) as [cookies'|] eqn:Hreplace.
  - by rewrite (replaceCookie_idem _ _ _ Hreplace).
  - by rewrite replaceCookie_insertCookie.
Qed.

(** ** Saving, then loading *)

Lemma hexDigitUpper_encodedUnit d : encodedUnit (hexDigitUpper d).
Proof.
  split; [apply hexDigitUpper_cookieSafe|].
  unfold hexDigitUpper. case_compare; nlia.
Qed.

Lemma escapeCodePoint_encodedUnit cp : Forall encodedUnit (escapeCodePoint cp).
Proof.
  assert (encodedUnit 0x25%N) as Hpercent.
  { split; [|done]. split; [done|].
    by apply bool_decide_eq_false_2; intros [?|?]. }
  unfold escapeCodePoint, utf8Encode, percentEncode.
  repeat case_compare; cbn [fmap list_fmap mjoin list_join app];
    repeat constructor; done || apply hexDigitUpper_encodedUnit.
Qed.

Lemma encodeURIComponent_units_bounded (n : nat) (s e : jsstring) :
  length s ≤ n → encodeURIComponent s = Normal e → Forall encodedUnit e.
Proof.
  revert s e. induction n as [|n IH]; intros s e Hlen Henc.
  { destruct s; [|simpl in Hlen; lia]. by injection Henc as <-. }
  destruct s as [|c s]; [by injection Henc as <-|].
  cbn [length] in Hlen. rewrite encodeURIComponent_cons in Henc.
  destruct (uriUnreserved c) eqn:Hunreserved.
  { apply bind_Normal_inv in Henc as (r & Hr & [= <-]).
    apply Forall_cons. split; [|apply (IH s); [lia|done]].
    split; [by apply uriUnreserved_cookieSafe|]. by intros ->. }
  destruct (isHighSurrogate c) eqn:Hhigh.
  { destruct s as [|lo s]; [done|].
    destruct (isLowSurrogate lo) eqn:Hlow; [|done].
    apply bind_Normal_inv in Henc as (r & Hr & [= <-]).
    cbn [length] in Hlen. apply Forall_app.
    split; [apply escapeCodePoint_encodedUnit|apply (IH s); [lia|done]]. }
  destruct (isLowSurrogate c) eqn:Hlow; [done|].
  apply bind_Normal_inv in Henc as (r & Hr & [= <-]).
  apply Forall_app.
  split; [apply escapeCodePoint_encodedUnit|apply (IH s); [lia|done]].
Qed.

Lemma encodeURIComponent_units (s e : jsstring) :
  encodeURIComponent s = Normal e → Forall encodedUnit e.
Proof. by apply (encodeURIComponent_units_bounded (length s)). Qed.

Lemma wfStore_listed store : wfStore store → Forall wfPair (listed store).
Proof.
  intros [_ Hall]. unfold listed, listedAt. apply Forall_fmap, Forall_forall.
  intros cookie [_ Hin]%list_elem_of_filter.
  by apply (proj1 (Forall_forall _ _) Hall) in Hin as (_ & ? & _).
Qed.

(** The initializer on a listing with one cookie of the slot. *)
Lemma initialCollection_single (slot : jsstring) (fallback : Json)
    (jar : CookieJar) raw text v :
  0x3D%N ∉ slot → Forall wfPair jar →
  cookiesNamed slot jar = [(slot, raw)] →
  decodeURIComponent raw = Normal text →
  JSON_parse text = Normal v →
  initialCollection slot fallback jar = Normal v.
Proof.
  intros Hslot Hjar Hnamed Hdec Hparse.
  rewrite initialCollection_named, Hnamed by done.
  destruct raw as [|c raw].
  - injection Hdec as <-. done.
  - cbn [truthy]. rewrite Hdec. cbn. by rewrite Hparse.
Qed.

(** An effect on a slot of the page's own, for a text whose cookie the
    browser stores: the listing gets the encoded text under the slot, and
    the initializer reads the value of the text back from it. *)
Lemma persist_then_load (slot text : jsstring) (fallback v : Json)
    (store : CookieStore) :
  slotName slot → wfStore store → ownSlot slot store →
  emittable text → JSON_parse text = Normal v →
  storable slot text →
  ∃ encoded,
    encodeURIComponent text = Normal encoded ∧
    persist slot text store
    = Normal (storeCookie (rootCookie slot encoded) store) ∧
    wfStore (storeCookie (rootCookie slot encoded) store) ∧
    cookiesNamed slot (listed (storeCookie (rootCookie slot encoded) store))
    = [(slot, encoded)] ∧
    initialCollection slot fallback
      (listed (storeCookie (rootCookie slot encoded) store))
    = Normal v.
Proof.
  intros Hslot Hstore Hown [Hunits Hwf] Hparse (encoded & Henc & Hsize).
  destruct (decode_encode text encoded Hunits Henc) as [Hdec Hsafe].
  pose proof Hslot as (Hne & Hsemi & Heq & Hvis).
  assert (0x3B%N ∉ encoded) as Hnosemi.
  { intros Hin. by eapply Forall_forall in Hsafe as [Hc _]. }
  assert (wfStore (storeCookie (rootCookie slot encoded) store)) as Hstore'.
  { by apply wfStore_storeCookie, wfCookie_rootCookie. }
  assert (cookiesNamed slot
            (listed (storeCookie (rootCookie slot encoded) store))
          = [(slot, encoded)]) as Hnamed.
  { rewrite listed_storeCookie_own by done.
    by apply cookiesNamed_withCookie, cookiesNamed_own. }
  exists encoded. split; [done|]. split; [|split; [done|split; [done|]]].
  - unfold persist. rewrite Henc. cbn [mbind Completion_bind].
    rewrite setCookie_write by done.
    by rewrite (proj2 (Nat.ltb_ge _ _) Hsize).
  - eapply initialCollection_single; [done|by apply wfStore_listed|done..].
Qed.

(** An effect whose cookie is too large for the browser leaves the store
    as it was. *)
Lemma persist_too_large (slot text encoded : jsstring)
    (store : CookieStore) :
  slotName slot →
  encodeURIComponent text = Normal encoded →
  4096 < octetLength slot + octetLength encoded →
  persist slot text store = Normal store.
Proof.
  intros Hslot Henc Hsize. unfold persist. rewrite Henc.
  cbn [mbind Completion_bind].
  rewrite setCookie_write; [|done|].
  - by rewrite (proj2 (Nat.ltb_lt _ _) Hsize).
  - eapply Forall_impl; [by apply (encodeURIComponent_units text)|].
    by intros c [? _].
Qed.

Lemma players_slotName : slotName (js "players").
Proof. apply (bool_decide_unpack _). by vm_compute. Qed.

Lemma teams_slotName : slotName (js "teams").
Proof. apply (bool_decide_unpack _). by vm_compute. Qed.

Lemma asPlayers_playersJson ps : asPlayers (playersJson ps) = Some ps.
Proof.
  unfold asPlayers, playersJson. induction ps as [|p ps IH]; [done|].
  rewrite fmap_cons. cbn [mapM]. rewrite IH. by destruct p as [???[?|]].
Qed.

Lemma asTeams_teamsJson tms : asTeams (teamsJson tms) = Some tms.
Proof.
  unfold asTeams, teamsJson. induction tms as [|tm tms IH]; [done|].
  rewrite fmap_cons. cbn [mapM]. rewrite IH. by destruct tm.
Qed.

Lemma seededPlayers_unassigned (rnd : nat → jsstring) :
  length (seededPlayers rnd) = 13 ∧
  Forall (λ p, Player.teamId p = None) (seededPlayers rnd).
Proof. split; [done|]. by repeat constructor. Qed.

(** X24.  Saving both collections and loading them again gives the
    collections back, as the values their types denote, on a store where
    the cookies called [players] and [teams] are the page's own and for
    collections whose cookies are of a size the browser stores; the load
    falls back to the seed (thirteen unassigned players, two teams) when
    the cookie is absent and when its decoded text is not JSON.  A
    collection whose cookie would exceed that size is not saved: the
    effect leaves the store as it was. *)
Theorem persistence_round_trip (rnd : nat → jsstring)
    (ps : list Player.t) (tms : list Team.t) (store : CookieStore)
    (absent corrupt : CookieJar) (raw text : jsstring) (e : JsError) :
  wfStore store →
  ownSlot (js "players") store → ownSlot (js "teams") store →
  Forall validPlayer ps → Forall validTeam tms →
  storable (js "players") (stringifyPlayers ps) →
  storable (js "teams") (stringifyTeams tms) →
  wfJar absent →
  lookupCookie (js "players") absent = None →
  lookupCookie (js "teams") absent = None →
  wfJar corrupt →
  lookupCookie (js "players") corrupt = Some raw →
  decodeURIComponent raw = Normal text →
  JSON_parse text = Throw e →
  (∃ store1 store2,
     persistPlayers ps store = Normal store1 ∧
     persistTeams tms store1 = Normal store2 ∧
     initialPlayers rnd (listed store2) = Normal (playersJson ps) ∧
     initialTeamsState (listed store2) = Normal (teamsJson tms)) ∧
  asPlayers (playersJson ps) = Some ps ∧
  asTeams (teamsJson tms) = Some tms ∧
  initialPlayers rnd absent = Normal (playersJson (seededPlayers rnd)) ∧
  initialTeamsState absent = Normal (teamsJson initialTeams) ∧
  initialPlayers rnd corrupt = Normal (playersJson (seededPlayers rnd)) ∧
  length (seededPlayers rnd) = 13 ∧
  Forall (λ p, Player.teamId p = None) (seededPlayers rnd) ∧
  length initialTeams = 2 ∧
  (∀ (crowd : list Player.t) (other : CookieStore),
     Forall validPlayer crowd →
     ¬ storable (js "players") (stringifyPlayers crowd) →
     persistPlayers crowd other = Normal other).
Proof.
  intros Hstore Hplayers Hteams Hps Htms Hfits1 Hfits2 Habsent Hnoplayers
    Hnoteams Hcorrupt Hraw Hdec Hparse.
  split; [|split; [|split; [|split; [|split; [|split; [|split; [|split]]]]]]].
  - destruct (persist_then_load (js "players") (stringifyPlayers ps)
                (playersJson (seededPlayers rnd)) (playersJson ps) store)
      as (enc1 & Henc1 & Hsave1 & Hwf1 & Hnamed1 & _);
      [apply players_slotName | done | done
      | by apply emittable_stringifyPlayers
      | by apply JSON_parse_stringifyPlayers | done |].
    destruct (persist_then_load (js "teams") (stringifyTeams tms)
                (teamsJson initialTeams) (teamsJson tms)
                (storeCookie (rootCookie (js "players") enc1) store))
      as (enc2 & Henc2 & Hsave2 & Hwf2 & _ & Hload2);
      [apply teams_slotName | done | by apply ownSlot_storeCookie
      | by apply emittable_stringifyTeams
      | by apply JSON_parse_stringifyTeams | done |].
    eexists _, _. split; [exact Hsave1|]. split; [exact Hsave2|].
    split; [|exact Hload2].
    destruct (emittable_stringifyPlayers ps Hps) as [Hunits _].
    destruct (decode_encode _ _ Hunits Henc1) as [Hdec1 _].
    eapply initialCollection_single;
      [apply players_slot_plain | by apply wfStore_listed | | exact Hdec1
      | by apply JSON_parse_stringifyPlayers].
    by rewrite cookiesNamed_storeCookie_ne.
  - apply asPlayers_playersJson.
  - apply asTeams_teamsJson.
  - unfold initialPlayers.
    by rewrite initialCollection_jar, Hnoplayers
      by (apply players_slot_plain || done).
  - unfold initialTeamsState.
    by rewrite initialCollection_jar, Hnoteams
      by (apply teams_slot_plain || done).
  - unfold initialPlayers.
    rewrite initialCollection_jar, Hraw
      by (apply players_slot_plain || done).
    destruct raw as [|c raw]; [done|]. cbn [truthy]. rewrite Hdec.
    cbn [mbind Completion_bind]. by rewrite Hparse.
  - apply seededPlayers_unassigned.
  - apply seededPlayers_unassigned.
  - split; [done|]. intros crowd other Hcrowd Hlarge.
    destruct (emittable_stringifyPlayers crowd Hcrowd) as [_ Hwf].
    destruct (encode_wellFormed _ Hwf) as [encoded Henc].
    apply (persist_too_large _ _ encoded);
      [apply players_slotName | done |].
    apply Nat.nle_gt. intros Hsize. apply Hlarge. by exists encoded.
Qed.

(** C4.  A players cookie whose value is not URI-encoded text: [getCookie]
    throws from [decodeURIComponent] before the initializer enters its
    [try], so no collection is produced, the seed included. *)
Theorem load_malformed_escape_throws (rnd : nat → jsstring) :
  lookupCookie (js "players") malformedJar = Some (js "%") ∧
  decodeURIComponent (js "%") = Throw URIError ∧
  initialPlayers rnd malformedJar = Throw URIError.
Proof. by repeat split. Qed.

(** ** Ids within a session *)

Lemma idsDrawn_seed rnd : idsDrawn rnd (seedState rnd).
Proof.
  split; [done|]. intros p Hp. simpl in Hp.
  apply list_elem_of_lookup in Hp as [i Hi].
  unfold seededPlayers in Hi. rewrite list_lookup_imap in Hi.
  destruct (seedNames !! i) as [name|] eqn:Hname; [|done].
  injection Hi as <-. exists i. split; [|done].
  by apply lookup_lt_Some in Hname.
Qed.

Lemma idsDrawn_dispatch rnd st ev :
  idsDrawn rnd st → idsDrawn rnd (dispatch rnd st ev).
Proof.
  intros [Hcalls Hst]. simpl in Hcalls. destruct ev; simpl; try by split.
  - destruct (decide (trim (playerName st) = [])) as [He|Hne].
    { by rewrite handleCreatePlayer_reject. }
    rewrite handleCreatePlayer_accept by done. split; simpl; [lia|].
    intros p [Hp| ->%list_elem_of_singleton]%elem_of_app.
    + destruct (Hst p Hp) as (k & Hk & Hid). exists k. split; [lia|done].
    + exists (idCalls st). simpl. split; [lia|done].
  - destruct (decide (trim (teamName st) = [])) as [He|Hne].
    { by rewrite handleCreateTeam_reject. }
    rewrite handleCreateTeam_accept by done. split; simpl; [lia|].
    intros p Hp. destruct (Hst p Hp) as (k & Hk & Hid).
    exists k. split; [lia|done].
  - unfold onZone. by destruct (zones st !! zone) as [[??]|].
  - unfold onZone. by destruct (zones st !! zone) as [[??]|].
  - unfold onZone. destruct (zones st !! zone) as [[??]|]; [|done].
    unfold onDrop. destruct (truthy _); [|done]. split; [done|].
    intros p (q & -> & Hq)%list_elem_of_fmap.
    destruct (Hst q Hq) as (k & Hk & Hid). exists k. by case_decide.
  - split; [done|]. intros p [_ Hp]%list_elem_of_filter. by apply Hst.
  - unfold submitPlayerRename. destruct (truthy _); [|done]. split; [done|].
    intros p (q & -> & Hq)%list_elem_of_fmap.
    destruct (Hst q Hq) as (k & Hk & Hid). exists k. by case_decide.
  - split; [done|]. intros p (q & -> & Hq)%list_elem_of_fmap.
    destruct (Hst q Hq) as (k & Hk & Hid). exists k. by case_decide.
  - unfold submitTeamRename. by destruct (truthy _).
  - destruct confirmed; [|done]. split; [done|]. intros p Hp.
    destruct (idsDrawn_seed rnd) as [_ Hseed].
    destruct (Hseed p Hp) as (k & Hk & Hid). exists k.
    split; [|done]. simpl in Hk |- *. lia.
Qed.

Lemma idsDrawn_run rnd evs : idsDrawn rnd (run rnd (seedState rnd) evs).
Proof.
  generalize (idsDrawn_seed rnd). generalize (seedState rnd).
  induction evs as [|ev evs IH]; intros st Hst; [done|].
  rewrite run_cons. by apply IH, idsDrawn_dispatch.
Qed.

(** In a session that started from the seed, and when the random source
    never repeats itself, the id given to a created player differs from
    the id of every player present. *)
Theorem create_player_id_fresh (rnd : nat → jsstring) (evs : list Event)
    (name : jsstring) :
  Inj (=) (=) rnd → trim name ≠ [] →
  let st := run rnd (seedState rnd) evs in
  ∀ p, p ∈ players st → Player.id p ≠ fst (makeId rnd (idCalls st)).
Proof.
  intros Hinj Hname st p Hp.
  destruct (idsDrawn_run rnd evs) as [_ Hdrawn].
  destruct (Hdrawn p Hp) as (k & Hk & ->). simpl.
  intros Heq%Hinj. subst st. lia.
Qed.

(** ** Worked examples *)

(** The scenario of the specification: from the seed, Astra is dropped on
    Team Alpha; the projector then shows Astra alone under [alpha], nobody
    under [bravo] and the other twelve, in alphabetical order, on the
    bench. *)
Example roster_after_move :
  let st := dispatch sampleRnd (seedState sampleRnd)
              (Drop 1 (startDrag (sampleRnd 0) [])) in
  ∃ result,
    roster codeUnitCompare (players st) (teams st) = Normal result ∧
    bucketNames result (js "alpha") = Some [js "Astra"] ∧
    bucketNames result (js "bravo") = Some [] ∧
    bucketNames result (js "bench")
    = Some [ js "Blitz"; js "Cipher"; js "Draco"; js "Echo"; js "Flux";
             js "Gemini"; js "Halo"; js "Ion"; js "Jinx"; js "Kairo";
             js "Luna"; js "Metro" ].
Proof. eexists. split; [by vm_compute|]. by vm_compute. Qed.

Lemma codeUnitCompare_antisym a b :
  (codeUnitCompare a b < 0)%Z ↔ (0 < codeUnitCompare b a)%Z.
Proof.
  revert b. induction a as [|x a IH]; intros [|y b]; cbn [codeUnitCompare];
    try lia.
  rewrite (N.compare_antisym x y).
  destruct (x ?= y)%N; cbn [CompOpp]; [apply IH|lia..].
Qed.

Lemma codeUnitCompare_trans a b c :
  (codeUnitCompare a b ≤ 0)%Z → (codeUnitCompare b c ≤ 0)%Z →
  (codeUnitCompare a c ≤ 0)%Z.
Proof.
  revert b c. induction a as [|x a IH]; intros [|y b] [|z c];
    cbn [codeUnitCompare]; try lia.
  destruct (N.compare_spec x y), (N.compare_spec y z),
    (N.compare_spec x z); try lia.
  apply IH.
Qed.

Lemma codeUnitCompare_consistent : consistentComparator codeUnitCompare.
Proof.
  split; [apply codeUnitCompare_antisym | apply codeUnitCompare_trans].
Qed.


(** ** The theorems at sample inputs *)

Lemma roster_partition_witness :
  ∃ result,
    roster codeUnitCompare (players sampleState) (teams sampleState)
    = Normal result ∧
    allBuckets (own result) ≡ₚ players sampleState.
Proof.
  destruct (roster_partition codeUnitCompare (players sampleState)
              (teams sampleState))
    as (result & Hroster & _ & _ & _ & _ & _ & Hall & _).
  - apply codeUnitCompare_consistent.
  - apply (bool_decide_unpack _). by vm_compute.
  - exists result. split; assumption.
Defined.

Lemma load_without_validation_witness :
  Forall wfPair bareObjectsJar ∧
  initialPlayers sampleRnd bareObjectsJar = Normal (JArray [JObject []]).
Proof.
  assert (Forall wfPair bareObjectsJar) as Hwf.
  { apply (bool_decide_unpack _). by vm_compute. }
  split; [exact Hwf|].
  destruct (load_without_validation sampleRnd bareObjectsJar Hwf)
    as (Hverbatim & _).
  apply (Hverbatim (js "%5B%7B%7D%5D") (js "[{}]"));
    vm_compute; reflexivity.
Defined.

Lemma persistence_round_trip_witness :
  (∃ store1 store2,
     persistPlayers awkwardPlayers (rootStore themeJar) = Normal store1 ∧
     persistTeams initialTeams store1 = Normal store2 ∧
     initialPlayers sampleRnd (listed store2)
     = Normal (playersJson awkwardPlayers) ∧
     initialTeamsState (listed store2) = Normal (teamsJson initialTeams)) ∧
  persistPlayers crowd (rootStore themeJar) = Normal (rootStore themeJar).
Proof.
  destruct (persistence_round_trip sampleRnd awkwardPlayers initialTeams
              (rootStore themeJar) themeJar corruptJar (js "%7B") (js "{")
              SyntaxError)
    as (Hround & _ & _ & _ & _ & _ & _ & _ & _ & Hlarge).
  - apply (bool_decide_unpack _). by vm_compute.
  - apply (bool_decide_unpack _). by vm_compute.
  - apply (bool_decide_unpack _). by vm_compute.
  - apply (bool_decide_unpack _). by vm_compute.
  - apply (bool_decide_unpack _). by vm_compute.
  - eexists. split; [vm_compute; reflexivity|].
    apply Nat.leb_le. vm_compute. reflexivity.
  - eexists. split; [vm_compute; reflexivity|].
    apply Nat.leb_le. vm_compute. reflexivity.
  - apply (bool_decide_unpack _). by vm_compute.
  - vm_compute. reflexivity.
  - vm_compute. reflexivity.
  - apply (bool_decide_unpack _). by vm_compute.
  - vm_compute. reflexivity.
  - vm_compute. reflexivity.
  - vm_compute. reflexivity.
  - split; [exact Hround|]. apply Hlarge.
    + apply (bool_decide_unpack _). by vm_compute.
    + intros (encoded & Henc & Hsize). vm_compute in Henc.
      injection Henc as <-. apply Nat.leb_le in Hsize.
      vm_compute in Hsize. discriminate.
Defined.

(** ** Removing a player, creating and renaming a team *)

Lemma fmap_id_filter (P : Player.t → Prop) `{!∀ p, Decision (P p)}
    (l : list Player.t) :
  (Player.id <$> filter P l) `sublist_of` (Player.id <$> l).
Proof. apply fmap_sublist, sublist_filter. Qed.

Lemma state_eta (st : AppState) :
  mkState (players st) (teams st) (playerName st) (teamName st)
    (hoveredZone st) (idCalls st) = st.
Proof. by destruct st. Qed.


Section MoreHandlers.

Variable rnd : nat → jsstring.

(** X1.  [handleRemovePlayer] keeps the teams, keeps exactly the players
    whose id differs from the given one, in their order, and takes out
    one player when the ids are distinct and the id is present. *)
Theorem remove_player_frame (st : AppState) (playerId : jsstring) :
  let st' := handleRemovePlayer playerId st in
  teams st' = teams st ∧
  (∀ p, p ∈ players st' ↔ p ∈ players st ∧ Player.id p ≠ playerId) ∧
  players st' `sublist_of` players st ∧
  (NoDup (Player.id <$> players st) →
   playerId ∈ Player.id <$> players st →
   S (length (players st')) = length (players st)).
Proof.
  simpl.
  split; [done|]. split.
  { intros p. rewrite list_elem_of_filter. tauto. }
  split; [apply sublist_filter|].
  generalize (players st). clear st. intros l Hnodup Hin.
  induction l as [|q l IH]; [by apply elem_of_nil in Hin|].
  rewrite fmap_cons in Hnodup, Hin. apply NoDup_cons in Hnodup as [Hq Hl].
  rewrite filter_cons. destruct (decide (Player.id q ≠ playerId)) as [Hne|He].
  - cbn [length]. f_equal. apply IH; [done|].
    apply elem_of_cons in Hin as [Heq|Hin]; [by subst|done].
  - apply dec_stable in He. subst playerId. cbn [length]. f_equal.
    f_equal. apply filter_keeps_all. intros x Hx Heq. apply Hq.
    rewrite <- Heq. apply list_elem_of_fmap. by exists x.
Qed.

(** X2.  With a name that trims to a non-empty string, [handleCreateTeam]
    appends one team after the existing ones: its id is the value the next
    [makeId] call returns, its name the trimmed input and its accent the
    palette entry at the previous number of teams modulo eight.  The
    players and the other input are kept, the team input is cleared, and
    when the state has referential integrity and the id is new no player
    is assigned to the created team. *)
Theorem create_team_appends (st : AppState) (name : jsstring) :
  trim name ≠ [] →
  let st' := createTeam rnd name st in
  ∃ created,
    teams st' = teams st ++ [created] ∧
    Team.id created = fst (makeId rnd (idCalls st)) ∧
    idCalls st' = snd (makeId rnd (idCalls st)) ∧
    Team.name created = trim name ∧
    palette !! (length (teams st) mod 8) = Some (Team.accent created) ∧
    players st' = players st ∧
    teamName st' = [] ∧
    playerName st' = playerName st ∧
    (referentialIntegrity st →
     Team.id created ∉ Team.id <$> teams st →
     ∀ p, p ∈ players st' → Player.teamId p ≠ Some (Team.id created)).
Proof.
  intros Hname st'. subst st'. unfold createTeam.
  rewrite handleCreateTeam_accept by done. simpl.
  eexists. split; [done|]. simpl. repeat (split; [done|]). split.
  { unfold paletteColor. change (length palette) with 8.
    assert (length (teams st) mod 8 < length palette) as Hlt.
    { change (length palette) with 8. apply Nat.mod_upper_bound. lia. }
    apply lookup_lt_is_Some in Hlt as [c Hc]. by rewrite Hc. }
  repeat (split; [done|]).
  intros Hst Hnew p Hp Hassigned.
  destruct (Hst p Hp) as [Hnone | (tm & Htm & Hsome)]; [congruence|].
  apply Hnew. apply list_elem_of_fmap. exists tm. split; [congruence|done].
Qed.

Lemma roster_team_ids (localeCompare : jsstring → jsstring → Z)
    (ps : list Player.t) (tms1 tms2 : list Team.t) :
  Team.id <$> tms1 = Team.id <$> tms2 →
  roster localeCompare ps tms1 = roster localeCompare ps tms2.
Proof.
  intros Hids. unfold roster.
  assert (∀ tms o,
            foldl (λ o team, assignEmpty (Team.id team) o) o tms
            = foldl (λ o k, assignEmpty k o) o (Team.id <$> tms)) as Hfold.
  { intros tms. induction tms as [|tm tms IH]; intros o; [done|].
    cbn [foldl fmap list_fmap]. apply IH. }
  by rewrite !Hfold, Hids.
Qed.

(** X3.  Committing a team rename whose text trims to a non-empty string
    replaces the name of the teams with that id by the trimmed text and
    keeps their id and accent, the other teams, the order and the players;
    the grouping the projector computes is the same as before. *)
Theorem rename_team_frame (st : AppState) (teamId editName : jsstring) :
  trim editName ≠ [] →
  let st' := submitTeamRename teamId editName st in
  players st' = players st ∧
  length (teams st') = length (teams st) ∧
  (∀ i tm, teams st !! i = Some tm →
     teams st' !! i =
       Some (if decide (Team.id tm = teamId)
             then Team.mk (Team.id tm) (trim editName) (Team.accent tm)
             else tm)) ∧
  (∀ localeCompare,
     roster localeCompare (players st') (teams st')
     = roster localeCompare (players st) (teams st)).
Proof.
  intros Hname st'. subst st'. unfold submitTeamRename.
  apply truthy_true_iff in Hname. rewrite Hname. simpl.
  split; [done|]. split; [by rewrite length_fmap|]. split.
  - intros i tm Hi. rewrite list_lookup_fmap, Hi. simpl. by case_decide.
  - intros localeCompare. apply roster_team_ids.
    rewrite <- list_fmap_compose. apply list_fmap_ext.
    intros i tm _. simpl. by case_decide.
Qed.


(** X5.  Committing a rename twice with the same text, as a submit
    followed by the loss of focus does, gives the state of committing
    once, for a player and for a team. *)
Theorem rename_commit_idempotent (st : AppState) (id editName : jsstring) :
  submitPlayerRename id editName (submitPlayerRename id editName st)
  = submitPlayerRename id editName st ∧
  submitTeamRename id editName (submitTeamRename id editName st)
  = submitTeamRename id editName st.
Proof.
  unfold submitPlayerRename, submitTeamRename.
  destruct (truthy (trim editName)); [|done].
  unfold handleUpdatePlayerName, handleUpdateTeamName, setPlayers, setTeams.
  cbn [players teams playerName teamName hoveredZone idCalls].
  split; f_equal; rewrite <- list_fmap_compose; apply list_fmap_ext;
    intros i x _; simpl; repeat case_decide; done.
Qed.

(** X6.  Opening the editor of a player and committing the text it shows
    changes nothing, when the ids of the players are distinct and the name
    has nothing to trim; and the same for a team, when the ids of the teams
    are distinct.  Each half holds on its own: the first on a board
    without teams, the second on a board without players. *)
Theorem rename_unchanged_text_noop (st : AppState) :
  (∀ p : Player.t,
     NoDup (Player.id <$> players st) →
     p ∈ players st → trimmedName (Player.name p) →
     submitPlayerRename (Player.id p) (Player.name p) st = st) ∧
  (∀ tm : Team.t,
     NoDup (Team.id <$> teams st) →
     tm ∈ teams st → trimmedName (Team.name tm) →
     submitTeamRename (Team.id tm) (Team.name tm) st = st).
Proof.
  split.
  - intros p Hplayers Hp [Hpne Hptrim].
    unfold submitPlayerRename. rewrite Hptrim.
    apply truthy_true_iff in Hpne. rewrite Hpne.
    unfold handleUpdatePlayerName, setPlayers.
    cbn [players teams playerName teamName hoveredZone idCalls].
    assert ((λ player,
               if decide (Player.id player = Player.id p)
               then Player.with_name player (Player.name p) else player)
            <$> players st = players st) as ->; [|by rewrite state_eta].
    rewrite <- (list_fmap_id (players st)) at 2. apply list_fmap_ext.
    intros i q Hi. simpl. case_decide as Heq; [|done].
    apply list_elem_of_lookup_2 in Hi.
    assert (q = p) as ->; [|by destruct p].
    apply list_elem_of_lookup in Hi as [a Ha], Hp as [b Hb].
    assert (a = b) as ->; [|congruence].
    eapply NoDup_lookup; [exact Hplayers| |];
      rewrite list_lookup_fmap; [rewrite Ha|rewrite Hb]; simpl;
      [by rewrite Heq|done].
  - intros tm Hteams Htm [Htne Httrim].
    unfold submitTeamRename. rewrite Httrim.
    apply truthy_true_iff in Htne. rewrite Htne.
    unfold handleUpdateTeamName, setTeams.
    cbn [players teams playerName teamName hoveredZone idCalls].
    assert ((λ team,
               if decide (Team.id team = Team.id tm)
               then Team.with_name team (Team.name tm) else team)
            <$> teams st = teams st) as ->; [|by rewrite state_eta].
    rewrite <- (list_fmap_id (teams st)) at 2. apply list_fmap_ext.
    intros i q Hi. simpl. case_decide as Heq; [|done].
    apply list_elem_of_lookup_2 in Hi.
    assert (q = tm) as ->; [|by destruct tm].
    apply list_elem_of_lookup in Hi as [a Ha], Htm as [b Hb].
    assert (a = b) as ->; [|congruence].
    eapply NoDup_lookup; [exact Hteams| |];
      rewrite list_lookup_fmap; [rewrite Ha|rewrite Hb]; simpl;
      [by rewrite Heq|done].
Qed.

End MoreHandlers.

(** ** Ids stay distinct *)

Section Ids.

Variable rnd : nat → jsstring.
Hypothesis rnd_fresh : freshSource rnd.

Lemma seededPlayers_ids :
  Player.id <$> seededPlayers rnd = rnd <$> seq 0 (length seedNames).
Proof.
  unfold seededPlayers. rewrite fmap_imap.
  apply (imap_seq_0 seedNames rnd).
Qed.

Lemma idsFromSource_seed : idsFromSource rnd (seedState rnd).
Proof using rnd_fresh.
  destruct rnd_fresh as [Hinj _].
  split; [done|]. cbn [players teams idCalls seedState].
  rewrite seededPlayers_ids. split; [|split; [|split]].
  - apply NoDup_fmap_2; [done|apply NoDup_seq].
  - apply (bool_decide_unpack _). by vm_compute.
  - apply Forall_fmap, Forall_forall. intros k Hk.
    apply elem_of_seq in Hk. exists k. split; [lia|done].
  - apply Forall_forall. intros i Hi. by left.
Qed.

Lemma drawn_mono calls calls' i :
  calls ≤ calls' → drawn rnd calls i → drawn rnd calls' i.
Proof. intros Hle (k & Hk & ->). exists k. split; [lia|done]. Qed.

(** A state whose id lists are sublists of those of a state with the
    property has it too. *)
Lemma idsFromSource_sublist (st st' : AppState) :
  Player.id <$> players st' `sublist_of` Player.id <$> players st →
  Team.id <$> teams st' `sublist_of` Team.id <$> teams st →
  idCalls st' = idCalls st →
  idsFromSource rnd st → idsFromSource rnd st'.
Proof.
  intros Hps Hts Hcalls (Hseed & Hnp & Hnt & Hdp & Hdt).
  unfold idsFromSource. rewrite Hcalls.
  split; [done|]. split; [exact (sublist_NoDup _ _ Hnp Hps)|].
  split; [exact (sublist_NoDup _ _ Hnt Hts)|]. split.
  - apply Forall_forall. intros i Hi.
    apply (proj1 (Forall_forall _ _) Hdp). by eapply elem_of_sublist.
  - apply Forall_forall. intros i Hi.
    apply (proj1 (Forall_forall _ _) Hdt). by eapply elem_of_sublist.
Qed.

Lemma fmap_id_with (f : Player.t → Player.t) (l : list Player.t) :
  (∀ p, Player.id (f p) = Player.id p) →
  Player.id <$> (f <$> l) = Player.id <$> l.
Proof.
  intros Hf. rewrite <- list_fmap_compose. apply list_fmap_ext.
  intros i p _. apply Hf.
Qed.

Lemma fmap_team_id_with (f : Team.t → Team.t) (l : list Team.t) :
  (∀ tm, Team.id (f tm) = Team.id tm) →
  Team.id <$> (f <$> l) = Team.id <$> l.
Proof.
  intros Hf. rewrite <- list_fmap_compose. apply list_fmap_ext.
  intros i tm _. apply Hf.
Qed.

Lemma drawn_fresh calls i : drawn rnd calls i → i ≠ rnd calls.
Proof using rnd_fresh.
  destruct rnd_fresh as [Hinj _].
  intros (k & Hk & ->) Heq. apply Hinj in Heq. lia.
Qed.

Lemma idsFromSource_dispatch st ev :
  idsFromSource rnd st → idsFromSource rnd (dispatch rnd st ev).
Proof using rnd_fresh.
  intros Hst. destruct ev; cbn [dispatch].
  - by apply (idsFromSource_sublist st).
  - (* SubmitPlayerForm *)
    destruct (decide (trim (playerName st) = [])) as [He|Hne].
    { by rewrite handleCreatePlayer_reject. }
    rewrite handleCreatePlayer_accept by done.
    destruct Hst as (Hseed & Hnp & Hnt & Hdp & Hdt).
    split; [cbn [idCalls]; lia|]. cbn [players teams idCalls].
    rewrite fmap_app. cbn [fmap list_fmap Player.id].
    split; [|split; [done|split]].
    + apply NoDup_app. split; [done|]. split; [|apply NoDup_singleton].
      intros i Hi Hnew. apply list_elem_of_singleton in Hnew.
      eapply drawn_fresh; [|exact Hnew].
      by apply (proj1 (Forall_forall _ _) Hdp).
    + apply Forall_app. split.
      * eapply Forall_impl; [exact Hdp|]. intros i. apply drawn_mono. lia.
      * apply Forall_singleton. exists (idCalls st). split; [lia|done].
    + eapply Forall_impl; [exact Hdt|]. intros i [Hi|Hi]; [by left|].
      right. eapply drawn_mono; [|exact Hi]. lia.
  - by apply (idsFromSource_sublist st).
  - (* SubmitTeamForm *)
    destruct (decide (trim (teamName st) = [])) as [He|Hne].
    { by rewrite handleCreateTeam_reject. }
    rewrite handleCreateTeam_accept by done.
    destruct Hst as (Hseed & Hnp & Hnt & Hdp & Hdt).
    split; [cbn [idCalls]; lia|]. cbn [players teams idCalls].
    rewrite fmap_app. cbn [fmap list_fmap Team.id].
    split; [done|]. split; [|split].
    + apply NoDup_app. split; [done|]. split; [|apply NoDup_singleton].
      intros i Hi Hnew. apply list_elem_of_singleton in Hnew. subst i.
      destruct (proj1 (Forall_forall _ _) Hdt _ Hi) as [Hinit|Hdrawn].
      * by apply (proj2 rnd_fresh) in Hinit.
      * by eapply drawn_fresh.
    + eapply Forall_impl; [exact Hdp|]. intros i. apply drawn_mono. lia.
    + apply Forall_app. split.
      * eapply Forall_impl; [exact Hdt|]. intros i [Hi|Hi]; [by left|].
        right. eapply drawn_mono; [|exact Hi]. lia.
      * apply Forall_singleton. right. exists (idCalls st).
        split; [lia|done].
  - (* DragEnter *)
    unfold onZone. destruct (zones st !! zone) as [[??]|]; [|done].
    by apply (idsFromSource_sublist st).
  - (* DragLeave *)
    unfold onZone. destruct (zones st !! zone) as [[??]|]; [|done].
    by apply (idsFromSource_sublist st).
  - (* Drop *)
    unfold onZone. destruct (zones st !! zone) as [[zoneKey teamId]|];
      [|done].
    unfold onDrop. destruct (truthy _); [|done].
    apply (idsFromSource_sublist st); [|done..]. simpl.
    rewrite fmap_id_with; [done|]. intros p. by case_decide.
  - (* ClickRemovePlayer *)
    apply (idsFromSource_sublist st); [|done..]. apply fmap_id_filter.
  - (* SubmitPlayerRename *)
    unfold submitPlayerRename. destruct (truthy _); [|done].
    apply (idsFromSource_sublist st); [|done..]. simpl.
    rewrite fmap_id_with; [done|]. intros p. by case_decide.
  - (* ClickRemoveTeam *)
    apply (idsFromSource_sublist st); [| |done..]; simpl.
    + rewrite fmap_id_with; [done|]. intros p. by case_decide.
    + apply fmap_sublist, sublist_filter.
  - (* SubmitTeamRename *)
    unfold submitTeamRename. destruct (truthy _); [|done].
    apply (idsFromSource_sublist st); [done| |done..]. simpl.
    rewrite fmap_team_id_with; [done|]. intros tm. by case_decide.
  - (* ClickReset *)
    destruct confirmed; [|done].
    destruct Hst as (Hseed & _). destruct idsFromSource_seed
      as (_ & Hnp & Hnt & Hdp & Hdt).
    split; [done|]. cbn [handleReset setTeams setPlayers players teams
                         idCalls seedState] in *.
    split; [done|]. split; [done|]. split.
    + eapply Forall_impl; [exact Hdp|]. intros i. by apply drawn_mono.
    + eapply Forall_impl; [exact Hdt|]. intros i [Hi|Hi]; [by left|].
      right. by eapply drawn_mono.
Qed.

Lemma idsFromSource_run st evs :
  idsFromSource rnd st → idsFromSource rnd (run rnd st evs).
Proof using rnd_fresh.
  revert st. induction evs as [|ev evs IH]; intros st Hst; [done|].
  rewrite run_cons. by apply IH, idsFromSource_dispatch.
Qed.

End Ids.

(** X7.  When the random source never repeats itself and never returns
    the id of a seed team, the ids of the players stay pairwise distinct
    and so do the ids of the teams, after every sequence of events from
    the seed state. *)
Theorem unique_ids_invariant (rnd : nat → jsstring) (evs : list Event) :
  freshSource rnd →
  let st := run rnd (seedState rnd) evs in
  NoDup (Player.id <$> players st) ∧ NoDup (Team.id <$> teams st).
Proof.
  intros Hrnd st.
  destruct (idsFromSource_run rnd Hrnd (seedState rnd) evs
              (idsFromSource_seed rnd Hrnd)) as (_ & Hnp & Hnt & _).
  by split.
Qed.

(** ** Names stay trimmed *)

Lemma trimStart_head c s :
  isWhiteSpace c = false → trimStart (c :: s) = c :: s.
Proof. intros Hc. cbn [trimStart]. by rewrite Hc. Qed.

Lemma trimStart_idem s : trimStart (trimStart s) = trimStart s.
Proof.
  induction s as [|c s IH]; [done|]. cbn [trimStart].
  destruct (isWhiteSpace c) eqn:Hc; [done|]. by apply trimStart_head.
Qed.

Lemma trimStart_snoc s c :
  isWhiteSpace c = false → trimStart (s ++ [c]) = trimStart s ++ [c].
Proof.
  intros Hc. induction s as [|x s IH]; [by apply trimStart_head|].
  change ((x :: s) ++ [c]) with (x :: (s ++ [c])). cbn [trimStart].
  destruct (isWhiteSpace x); [exact IH|done].
Qed.

Lemma trimStart_cases s :
  trimStart s = [] ∨
  ∃ c t, trimStart s = c :: t ∧ isWhiteSpace c = false.
Proof.
  induction s as [|c s IH]; [by left|]. cbn [trimStart].
  destruct (isWhiteSpace c) eqn:Hc; [done|]. right. by exists c, s.
Qed.

Lemma trim_idem s : trim (trim s) = trim s.
Proof.
  unfold trim, trimEnd.
  destruct (trimStart_cases s) as [->|(c & t & -> & Hc)]; [done|].
  cbn [rev]. rewrite trimStart_snoc by done.
  rewrite !rev_unit, trimStart_head by done.
  cbn [rev]. rewrite rev_involutive, trimStart_snoc by done.
  by rewrite trimStart_idem, rev_unit.
Qed.

Lemma Forall_filter_keep {A} (P Q : A → Prop) `{!∀ x, Decision (Q x)}
    (l : list A) :
  Forall P l → Forall P (filter Q l).
Proof.
  intros Hall. apply Forall_forall. intros x Hx.
  apply list_elem_of_filter in Hx as [_ Hx].
  by apply (proj1 (Forall_forall _ _) Hall).
Qed.

Lemma trimmedName_trim s : trim s ≠ [] → trimmedName (trim s).
Proof. intros Hs. split; [done|apply trim_idem]. Qed.

Section Names.

Variable rnd : nat → jsstring.

Lemma namesTrimmed_seed : namesTrimmed (seedState rnd).
Proof.
  split; cbn [players teams seedState].
  - assert (Forall trimmedName (Player.name <$> seededPlayers rnd)) as Hall.
    { unfold seededPlayers. rewrite fmap_imap.
      change (imap _ seedNames) with (imap (const id) seedNames).
      rewrite imap_const, list_fmap_id.
      apply (bool_decide_unpack _). by vm_compute. }
    exact (proj1 (Forall_fmap _ _ _) Hall).
  - apply (bool_decide_unpack _). by vm_compute.
Qed.

Lemma namesTrimmed_dispatch st ev :
  namesTrimmed st → namesTrimmed (dispatch rnd st ev).
Proof.
  intros [Hps Hts]. destruct ev; cbn [dispatch]; try by split.
  - (* SubmitPlayerForm *)
    destruct (decide (trim (playerName st) = [])) as [He|Hne].
    { by rewrite handleCreatePlayer_reject. }
    rewrite handleCreatePlayer_accept by done. split; [|done].
    cbn [players]. apply Forall_app. split; [done|].
    apply Forall_singleton. by apply trimmedName_trim.
  - (* SubmitTeamForm *)
    destruct (decide (trim (teamName st) = [])) as [He|Hne].
    { by rewrite handleCreateTeam_reject. }
    rewrite handleCreateTeam_accept by done. split; [done|].
    cbn [teams]. apply Forall_app. split; [done|].
    apply Forall_singleton. by apply trimmedName_trim.
  - unfold onZone. by destruct (zones st !! zone) as [[??]|].
  - unfold onZone. by destruct (zones st !! zone) as [[??]|].
  - (* Drop *)
    unfold onZone. destruct (zones st !! zone) as [[zoneKey teamId]|];
      [|done].
    unfold onDrop. destruct (truthy _); [|done].
    split; [|done]. simpl. apply Forall_fmap.
    eapply Forall_impl; [exact Hps|]. intros p Hp. simpl. by case_decide.
  - (* ClickRemovePlayer *)
    split; [|done]. simpl. by apply Forall_filter_keep.
  - (* SubmitPlayerRename *)
    unfold submitPlayerRename.
    destruct (truthy (trim editName)) eqn:Hedit; [|done].
    apply truthy_true_iff in Hedit.
    split; [|done]. simpl. apply Forall_fmap.
    eapply Forall_impl; [exact Hps|]. intros p Hp. simpl.
    case_decide; [|done]. by apply trimmedName_trim.
  - (* ClickRemoveTeam *)
    split; simpl.
    + apply Forall_fmap. eapply Forall_impl; [exact Hps|].
      intros p Hp. simpl. by case_decide.
    + by apply Forall_filter_keep.
  - (* SubmitTeamRename *)
    unfold submitTeamRename.
    destruct (truthy (trim editName)) eqn:Hedit; [|done].
    apply truthy_true_iff in Hedit.
    split; [done|]. simpl. apply Forall_fmap.
    eapply Forall_impl; [exact Hts|]. intros tm Htm. simpl.
    case_decide; [|done]. by apply trimmedName_trim.
  - (* ClickReset *)
    destruct confirmed; [|done]. apply namesTrimmed_seed.
Qed.

(** X8.  After every sequence of events from the seed state, the name of
    every player and of every team is non-empty and has no white space at
    either end. *)
Theorem names_trimmed_invariant (evs : list Event) :
  namesTrimmed (run rnd (seedState rnd) evs).
Proof.
  generalize namesTrimmed_seed.
  generalize (seedState rnd). induction evs as [|ev evs IH]; intros st Hst.
  - exact Hst.
  - rewrite run_cons. apply IH. by apply namesTrimmed_dispatch.
Qed.

End Names.

(** ** The hover highlight *)

Section Hover.

Variable rnd : nat → jsstring.

Lemma dispatch_DragEnter st zone zoneKey teamId :
  zones st !! zone = Some (zoneKey, teamId) →
  dispatch rnd st (DragEnter zone) = setHoveredZone (λ _, Some zoneKey) st.
Proof. intros Hz. cbn [dispatch]. unfold onZone. by rewrite Hz. Qed.

Lemma dispatch_DragLeave st zone zoneKey teamId :
  zones st !! zone = Some (zoneKey, teamId) →
  dispatch rnd st (DragLeave zone) = onDragLeave zoneKey st.
Proof. intros Hz. cbn [dispatch]. unfold onZone. by rewrite Hz. Qed.

Lemma dispatch_Drop st zone zoneKey teamId dt :
  zones st !! zone = Some (zoneKey, teamId) →
  dispatch rnd st (Drop zone dt) = onDrop teamId dt st.
Proof. intros Hz. cbn [dispatch]. unfold onZone. by rewrite Hz. Qed.

(** X9.  Entering a rendered zone highlights it and touches neither
    collection, and leaving it clears the highlight; a drop on it that
    carries a player id clears the highlight, and a drop that carries none
    leaves it on.  All of this needs the one zone only, so it holds for
    the bench of a board without teams.  Where a second zone with another
    key is rendered, a leave of the first zone that arrives after the
    entry into the second keeps the second highlighted. *)
Theorem hover_follows_pointer (st : AppState) (a : nat) (ka : jsstring)
    (ta : option jsstring) :
  zones st !! a = Some (ka, ta) →
  let entered := dispatch rnd st (DragEnter a) in
  hoveredZone entered = Some ka ∧
  players entered = players st ∧
  teams entered = teams st ∧
  hoveredZone (run rnd st [DragEnter a; DragLeave a]) = None ∧
  (∀ dt : DataTransfer,
     getData dt (js "playerId") ≠ [] →
     hoveredZone (run rnd st [DragEnter a; Drop a dt]) = None) ∧
  (∀ noId : DataTransfer,
     getData noId (js "playerId") = [] →
     hoveredZone (run rnd st [DragEnter a; Drop a noId]) = Some ka) ∧
  (∀ (b : nat) (kb : jsstring) (tb : option jsstring),
     zones st !! b = Some (kb, tb) → ka ≠ kb →
     hoveredZone (run rnd st [DragEnter a; DragEnter b; DragLeave a])
     = Some kb).
Proof.
  intros Ha entered. subst entered.
  assert (∀ f, zones (setHoveredZone f st) = zones st) as Hzones by done.
  unfold run. cbn [fold_left].
  rewrite !(dispatch_DragEnter st a ka ta) by done.
  split; [done|]. split; [done|]. split; [done|].
  split; [|split; [|split]].
  - rewrite (dispatch_DragLeave _ a ka ta) by by rewrite Hzones.
    cbn [onDragLeave setHoveredZone hoveredZone]. by rewrite decide_True.
  - intros dt Hdt.
    rewrite (dispatch_Drop _ a ka ta) by by rewrite Hzones.
    unfold onDrop. apply truthy_true_iff in Hdt. by rewrite Hdt.
  - intros noId HnoId.
    rewrite (dispatch_Drop _ a ka ta) by by rewrite Hzones.
    unfold onDrop. by rewrite HnoId.
  - intros b kb tb Hb Hne.
    rewrite (dispatch_DragEnter _ b kb tb) by by rewrite Hzones.
    rewrite (dispatch_DragLeave _ a ka ta) by done.
    cbn [onDragLeave setHoveredZone hoveredZone].
    rewrite decide_False by congruence. done.
Qed.

End Hover.

(** ** The theme *)

Lemma startsWith_before needle a c b :
  c ∉ needle → startsWith needle (a ++ c :: b) = startsWith needle a.
Proof.
  revert a. induction needle as [|n needle IH]; intros a Hc; [by destruct a|].
  apply not_elem_of_cons in Hc as [Hn Hc]. destruct a as [|x a].
  - rewrite app_nil_l. cbn [startsWith]. by rewrite bool_decide_eq_false_2.
  - rewrite <- app_comm_cons. cbn [startsWith]. by rewrite IH.
Qed.

Lemma includes_nil needle : needle ≠ [] → includes needle [] = false.
Proof. by destruct needle. Qed.

Lemma includes_cons needle c s :
  includes needle (c :: s) = startsWith needle (c :: s) || includes needle s.
Proof. done. Qed.

(** A match cannot span a code unit the needle does not hold. *)
Lemma includes_app_sep needle a c b :
  c ∉ needle → needle ≠ [] →
  includes needle (a ++ c :: b) = includes needle a || includes needle b.
Proof.
  intros Hc Hne. induction a as [|x a IH].
  - rewrite includes_nil by done. rewrite app_nil_l, includes_cons.
    rewrite <- (app_nil_l (c :: b)) at 1.
    rewrite (startsWith_before needle [] c b) by done.
    by destruct needle.
  - pose proof (startsWith_before needle (x :: a) c b Hc) as Hstart.
    rewrite <- app_comm_cons in *.
    by rewrite !includes_cons, IH, Hstart, orb_assoc.
Qed.

Lemma includes_joinWith needle (texts : list jsstring) :
  0x3B%N ∉ needle → 0x20%N ∉ needle → needle ≠ [] →
  includes needle (joinWith (js "; ") texts) = existsb (includes needle) texts.
Proof.
  intros Hsemi Hspace Hne.
  induction texts as [|x texts IH]; [by apply includes_nil|].
  destruct texts as [|y texts].
  { cbn [joinWith existsb]. by rewrite orb_false_r. }
  rewrite joinWith_cons2.
  change (js "; " ++ ?t) with (0x3B%N :: ([] ++ 0x20%N :: t)).
  rewrite includes_app_sep by done.
  rewrite (includes_app_sep needle [] 0x20%N) by done.
  rewrite includes_nil by done. cbn [orb]. by rewrite IH.
Qed.

Lemma includes_cookieString needle (jar : CookieJar) :
  0x3B%N ∉ needle → 0x20%N ∉ needle → needle ≠ [] →
  includes needle (cookieString jar)
  = existsb (λ nv, includes needle (cookieText nv)) jar.
Proof.
  intros Hsemi Hspace Hne. unfold cookieString.
  rewrite includes_joinWith by done.
  induction jar as [|nv jar IH]; [done|].
  cbn [fmap list_fmap existsb]. by rewrite <- IH.
Qed.

Lemma initialDarkMode_jar (doc : Document.t) :
  initialDarkMode doc
  = existsb (λ nv, includes (js "theme=dark") (cookieText nv))
      (listed (Document.cookie doc)).
Proof.
  apply includes_cookieString; [| |done];
    apply (bool_decide_unpack _); by vm_compute.
Qed.

Lemma setCookie_theme value (store : CookieStore) :
  value = js "dark" ∨ value = js "light" →
  setCookie (js "theme=" ++ value ++ js "; path=/; max-age=31536000") store
  = storeCookie (rootCookie (js "theme") value) store.
Proof.
  intros Hvalue.
  change (js "theme=" ++ value ++ js "; path=/; max-age=31536000")
    with (js "theme" ++ js "=" ++ value ++ js "; path=/; max-age=31536000").
  rewrite setCookie_write.
  - by destruct Hvalue as [-> | ->].
  - apply (bool_decide_unpack _). by vm_compute.
  - destruct Hvalue as [-> | ->]; apply (bool_decide_unpack _);
      by vm_compute.
Qed.

Lemma toggleDarkMode_store (prev : bool) (doc : Document.t) :
  Document.cookie (toggleDarkMode prev doc).2
  = storeCookie
      (rootCookie (js "theme") (if negb prev then js "dark" else js "light"))
      (Document.cookie doc).
Proof.
  unfold toggleDarkMode. destruct prev; cbn [negb snd Document.cookie].
  - apply (setCookie_theme (js "light")). by right.
  - apply (setCookie_theme (js "dark")). by left.
Qed.

Lemma elem_of_withCookie name value (jar : CookieJar) nv :
  nv ∈ withCookie name value jar → nv = (name, value) ∨ nv ∈ jar.
Proof.
  induction jar as [|[n v] jar IH]; cbn [withCookie].
  - intros ->%list_elem_of_singleton. by left.
  - case_bool_decide.
    + intros [->|Hin]%elem_of_cons; [by left|]. right. by right.
    + intros [->|Hin]%elem_of_cons; [right; by left|].
      destruct (IH Hin) as [->|?]; [by left|]. right. by right.
Qed.

Lemma withCookie_elem name value (jar : CookieJar) :
  (name, value) ∈ withCookie name value jar.
Proof.
  induction jar as [|[n v] jar IH]; [by left|]. cbn [withCookie].
  case_bool_decide; [by left|by right].
Qed.

(** X10.  After [toggleDarkMode], a reload reads the value the toggle
    returned as its initial [darkMode], when the store is well formed,
    every cookie called [theme] in it is the page's own (host-only, on the
    path ["/"], open to scripts) and no listed cookie other than [theme]
    contains the text [theme=dark]; the listing then has one cookie
    called [theme], with the value written, and every other cookie as it
    was. *)
Theorem theme_toggle_round_trip (prev : bool) (doc : Document.t) :
  wfStore (Document.cookie doc) →
  ownSlot (js "theme") (Document.cookie doc) →
  themeUnshadowed (listed (Document.cookie doc)) →
  let next := (toggleDarkMode prev doc).1 in
  let doc' := (toggleDarkMode prev doc).2 in
  next = negb prev ∧
  initialDarkMode doc' = next ∧
  cookiesNamed (js "theme") (listed (Document.cookie doc'))
  = [(js "theme", if next then js "dark" else js "light")] ∧
  filter (λ nv, nv.1 ≠ js "theme") (listed (Document.cookie doc'))
  = filter (λ nv, nv.1 ≠ js "theme") (listed (Document.cookie doc)).
Proof.
  intros Hwf Hown Hclean next doc'. subst next doc'.
  assert ((toggleDarkMode prev doc).1 = negb prev) as ->
    by by destruct prev.
  split; [done|]. rewrite initialDarkMode_jar, toggleDarkMode_store.
  set (value := if negb prev then js "dark" else js "light").
  assert (cookiesNamed (js "theme")
            (listed (storeCookie (rootCookie (js "theme") value)
                       (Document.cookie doc)))
          = [(js "theme", value)]) as Hnamed.
  { rewrite listed_storeCookie_own by done.
    by apply cookiesNamed_withCookie, cookiesNamed_own. }
  split; [|split; [done|]].
  - rewrite listed_storeCookie_own in * by done.
    unfold value in *. destruct prev; cbn [negb] in *.
    + apply existsb_none, Forall_forall. intros nv Hin.
      destruct (decide (nv.1 = js "theme")) as [Hname|Hname].
      * assert (nv ∈ cookiesNamed (js "theme")
                       (withCookie (js "theme") (js "light")
                          (listed (Document.cookie doc)))) as Hnv
          by by apply list_elem_of_filter.
        rewrite Hnamed in Hnv. by apply list_elem_of_singleton in Hnv as ->.
      * apply elem_of_withCookie in Hin as [->|Hin]; [done|].
        by apply (proj1 (Forall_forall _ _) Hclean).
    + by apply (existsb_some _ _ (js "theme", js "dark"));
        [apply withCookie_elem|].
  - apply filter_storeCookie; [done|]. intros nv Hname Hne. by apply Hne.
Qed.

(** X11.  The initial [darkMode] is found by a substring search over the
    whole cookie text: when any other listed cookie contains
    [theme=dark], the page starts dark, also right after [toggleDarkMode]
    returned [false] and assigned [theme=light]; on a store where the
    [theme] cookie is the page's own that assignment is stored, and the
    listing has [theme=light]. *)
Theorem theme_substring_capture (doc : Document.t)
    (nv : jsstring * jsstring) :
  nv ∈ listed (Document.cookie doc) →
  nv.1 ≠ js "theme" →
  includes (js "theme=dark") (cookieText nv) = true →
  initialDarkMode doc = true ∧
  (toggleDarkMode true doc).1 = false ∧
  Document.cookie (toggleDarkMode true doc).2
  = setCookie (js "theme=light; path=/; max-age=31536000")
      (Document.cookie doc) ∧
  (wfStore (Document.cookie doc) → ownSlot (js "theme") (Document.cookie doc) →
   lookupCookie (js "theme")
     (listed (Document.cookie (toggleDarkMode true doc).2))
   = Some (js "light")) ∧
  initialDarkMode (toggleDarkMode true doc).2 = true.
Proof.
  intros Hin Hname Hmatch.
  split; [rewrite initialDarkMode_jar; by apply (existsb_some _ _ nv)|].
  split; [done|]. split; [done|].
  rewrite initialDarkMode_jar, toggleDarkMode_store. cbn [negb]. split.
  - intros Hwf Hown. rewrite listed_storeCookie_own by done.
    apply lookupCookie_withCookie.
  - apply (existsb_some _ _ nv); [|done].
    by apply listed_storeCookie_keeps.
Qed.

(** A [theme] cookie that was set for another path is not the cookie the
    toggle writes.  On [twoPathsStore] the toggle to light adds a second
    cookie called [theme]; the first one, on the longer path, is listed
    before it, and a reload starts dark. *)
Example toggle_beside_foreign_theme :
  themeUnshadowed (listed twoPathsStore) ∧
  (toggleDarkMode true (Document.mk twoPathsStore [])).1 = false ∧
  listed
    (Document.cookie (toggleDarkMode true (Document.mk twoPathsStore [])).2)
  = [(js "theme", js "dark"); (js "lang", js "en");
     (js "theme", js "light")] ∧
  initialDarkMode (toggleDarkMode true (Document.mk twoPathsStore [])).2
  = true.
Proof.
  split; [apply (bool_decide_unpack _); by vm_compute|].
  split; [done|]. split; by vm_compute.
Qed.

Lemma classListAdd_idem token tokens :
  classListAdd token (classListAdd token tokens) = classListAdd token tokens.
Proof.
  unfold classListAdd. destruct (decide (token ∈ tokens)) as [Hin|Hin].
  - by rewrite !(bool_decide_eq_true_2 _ Hin).
  - rewrite (bool_decide_eq_false_2 _ Hin).
    rewrite bool_decide_eq_true_2; [done|].
    apply elem_of_app. right. by left.
Qed.

Lemma classListRemove_idem token tokens :
  classListRemove token (classListRemove token tokens)
  = classListRemove token tokens.
Proof.
  unfold classListRemove. apply filter_keeps_all.
  intros t Ht. by apply list_elem_of_filter in Ht as [? _].
Qed.

(** X12.  The writes of the updater of [toggleDarkMode] are idempotent:
    running it a second time on the same previous value leaves the
    document as the first run left it. *)
Theorem toggle_writes_idempotent (prev : bool) (doc : Document.t) :
  toggleDarkMode prev (toggleDarkMode prev doc).2 = toggleDarkMode prev doc.
Proof.
  pose proof (toggleDarkMode_store prev doc) as Hstore.
  pose proof (toggleDarkMode_store prev (toggleDarkMode prev doc).2)
    as Hstore2.
  rewrite Hstore, storeCookie_idem, <- Hstore in Hstore2.
  destruct doc as [store tokens].
  unfold toggleDarkMode in *. destruct prev;
    cbn [negb fst snd Document.cookie Document.classList] in *;
    f_equal; rewrite Hstore2; f_equal;
    [apply classListRemove_idem|apply classListAdd_idem].
Qed.

Lemma elem_of_classListAdd token tokens t :
  t ∈ classListAdd token tokens ↔ t = token ∨ t ∈ tokens.
Proof.
  unfold classListAdd. case_bool_decide as Hin.
  - split; [by right|]. by intros [->|?].
  - rewrite elem_of_app, list_elem_of_singleton. tauto.
Qed.

Lemma elem_of_classListRemove token tokens t :
  t ∈ classListRemove token tokens ↔ t ≠ token ∧ t ∈ tokens.
Proof. unfold classListRemove. by rewrite list_elem_of_filter. Qed.

Lemma clickToggle_darkMode t : darkMode (clickToggle t) = negb (darkMode t).
Proof. unfold clickToggle, toggleDarkMode. by destruct (darkMode t). Qed.

Lemma clickToggle_classList t :
  Document.classList (document (clickToggle t))
  = if negb (darkMode t)
    then classListAdd (js "dark") (Document.classList (document t))
    else classListRemove (js "dark") (Document.classList (document t)).
Proof.
  unfold clickToggle, toggleDarkMode, applyTheme.
  destruct (darkMode t); cbn [negb document Document.classList].
  - apply classListRemove_idem.
  - apply classListAdd_idem.
Qed.

(** X13.  After the first render and any number of clicks on the theme
    button, [darkMode] is the initial value flipped once per click, the
    root element carries the class [dark] exactly when [darkMode] is true,
    and every other class of the root element is as it was. *)
Theorem theme_class_tracks_state (doc : Document.t) (n : nat) :
  let t := Nat.iter n clickToggle (mountTheme doc) in
  darkMode t = xorb (initialDarkMode doc) (Nat.odd n) ∧
  (js "dark" ∈ Document.classList (document t) ↔ darkMode t = true) ∧
  (∀ token, token ≠ js "dark" →
     token ∈ Document.classList (document t)
     ↔ token ∈ Document.classList doc).
Proof.
  intros t. subst t. induction n as [|n (Hdark & Hclass & Hother)].
  - change (Nat.iter 0 clickToggle (mountTheme doc)) with (mountTheme doc).
    unfold mountTheme, applyTheme.
    cbn [darkMode document Document.classList Nat.odd].
    split; [by rewrite xorb_false_r|].
    destruct (initialDarkMode doc).
    + split; [split; [done|]; intros _; apply elem_of_classListAdd;
              by left|].
      intros token Htoken. rewrite elem_of_classListAdd. intuition congruence.
    + split; [rewrite elem_of_classListRemove; intuition congruence|].
      intros token Htoken. rewrite elem_of_classListRemove.
      intuition congruence.
  - change (Nat.iter (S n) clickToggle (mountTheme doc))
      with (clickToggle (Nat.iter n clickToggle (mountTheme doc))).
    set (t := Nat.iter n clickToggle (mountTheme doc)) in *.
    rewrite clickToggle_darkMode, clickToggle_classList, Hdark.
    rewrite Nat.odd_succ, <- Nat.negb_odd.
    split; [by destruct (initialDarkMode doc), (Nat.odd n)|].
    rewrite <- Hdark. destruct (darkMode t); cbn [negb].
    + split; [rewrite elem_of_classListRemove; intuition congruence|].
      intros token Htoken. rewrite elem_of_classListRemove, <- Hother by done.
      intuition congruence.
    + split; [rewrite elem_of_classListAdd; intuition congruence|].
      intros token Htoken. rewrite elem_of_classListAdd, <- Hother by done.
      intuition congruence.
Qed.

(** *** The theme and the collections do not disturb each other *)

Lemma startsWith_elem needle s c :
  startsWith needle s = true → c ∈ needle → c ∈ s.
Proof.
  revert s. induction needle as [|n needle IH]; intros s Hstart Hc;
    [by apply elem_of_nil in Hc|].
  destruct s as [|x s]; [done|]. cbn [startsWith] in Hstart.
  apply andb_true_iff in Hstart as [Hhead Hstart].
  apply bool_decide_eq_true in Hhead as ->.
  apply elem_of_cons in Hc as [->|Hc]; [by left|]. right. by apply IH.
Qed.

Lemma includes_lacking needle s c :
  c ∈ needle → c ∉ s → includes needle s = false.
Proof.
  intros Hc Hs. induction s as [|x s IH].
  { apply includes_nil. intros ->. by apply elem_of_nil in Hc. }
  apply not_elem_of_cons in Hs as [Hx Hs]. rewrite includes_cons, IH by done.
  rewrite orb_false_r. apply not_true_is_false. intros Hstart.
  apply (startsWith_elem _ _ c) in Hstart; [|done].
  by apply elem_of_cons in Hstart as [?|?].
Qed.

Lemma includes_skip n needle c s :
  n ≠ c → includes (n :: needle) (c :: s) = includes (n :: needle) s.
Proof. intros Hne. by rewrite includes_cons, startsWith_head. Qed.

(** The cookie of a collection never reads as [theme=dark]. *)
Lemma includes_theme_slot slot value :
  slot = js "players" ∨ slot = js "teams" →
  0x3D%N ∉ value →
  includes (js "theme=dark") (cookieText (slot, value)) = false.
Proof.
  intros Hslot Hvalue. unfold cookieText. cbn [fst snd].
  assert (includes (js "theme=dark") value = false) as Hrest.
  { apply (includes_lacking _ _ 0x3D%N); [|done].
    apply (bool_decide_unpack _). by vm_compute. }
  change (js "theme=dark")
    with (0x74%N :: [0x68; 0x65; 0x6D; 0x65; 0x3D; 0x64; 0x61; 0x72; 0x6B]%N)
    in *.
  destruct Hslot as [-> | ->].
  - change (js "players" ++ js "=" ++ value)
      with ([0x70; 0x6C; 0x61; 0x79; 0x65; 0x72; 0x73; 0x3D]%N ++ value).
    rewrite <- !app_comm_cons, app_nil_l.
    by rewrite !includes_skip.
  - change (js "teams" ++ js "=" ++ value)
      with ([0x74; 0x65; 0x61; 0x6D; 0x73; 0x3D]%N ++ value).
    rewrite <- !app_comm_cons, app_nil_l.
    rewrite includes_cons. cbn [startsWith].
    rewrite (bool_decide_eq_false_2 (0x68%N = 0x65%N)) by done.
    rewrite andb_false_r. cbn [orb]. by rewrite !includes_skip.
Qed.

(** What an effect does to the store: nothing when the cookie is too
    large, else it stores the encoded text under the slot. *)
Lemma persist_written slot text store store' :
  slotName slot →
  persist slot text store = Normal store' →
  ∃ encoded,
    encodeURIComponent text = Normal encoded ∧
    Forall encodedUnit encoded ∧
    store' = if 4096 <? octetLength slot + octetLength encoded then store
             else storeCookie (rootCookie slot encoded) store.
Proof.
  intros Hslot Hpersist. unfold persist in Hpersist.
  apply bind_Normal_inv in Hpersist as (encoded & Henc & [= <-]).
  exists encoded. split; [done|].
  pose proof (encodeURIComponent_units _ _ Henc) as Hunits.
  split; [done|]. apply setCookie_write; [done|].
  eapply Forall_impl; [exact Hunits|]. by intros c [? _].
Qed.

Lemma encodedUnit_no_equals e : Forall encodedUnit e → 0x3D%N ∉ e.
Proof.
  intros Hall Hin. by apply (proj1 (Forall_forall _ _) Hall) in Hin as [_ ?].
Qed.

Lemma themeUnshadowed_persist slot text store store' :
  slot = js "players" ∨ slot = js "teams" →
  themeUnshadowed (listed store) →
  persist slot text store = Normal store' →
  themeUnshadowed (listed store') ∧
  existsb (λ nv, includes (js "theme=dark") (cookieText nv)) (listed store')
  = existsb (λ nv, includes (js "theme=dark") (cookieText nv))
      (listed store).
Proof.
  intros Hslot Hclean Hpersist.
  assert (slotName slot ∧ slot ≠ js "theme") as [Hname Hne].
  { destruct Hslot as [-> | ->];
      (split; [apply players_slotName || apply teams_slotName|done]). }
  apply persist_written in Hpersist as (encoded & _ & Hunits & ->);
    [|done].
  destruct (4096 <? _); [done|].
  pose proof (includes_theme_slot slot encoded Hslot
                (encodedUnit_no_equals _ Hunits)) as Hfresh.
  split.
  - by apply Forall_listed_storeCookie.
  - apply existsb_storeCookie; [done..|].
    eapply Forall_impl; [exact Hclean|]. intros nv Hnv Heq. apply Hnv.
    cbn [rootCookie Cookie.name] in Heq. by rewrite Heq.
Qed.

(** X14.  The theme and the collections do not disturb each other.  When
    no cookie other than [theme] contains the text [theme=dark], the
    writes of the two persistence effects leave the initial [darkMode] of
    a reload as it was; and [toggleDarkMode] leaves what a reload gets as
    initial players and teams as it was. *)
Theorem theme_and_collections_independent (rnd : nat → jsstring)
    (prev : bool) (doc : Document.t) (ps : list Player.t)
    (tms : list Team.t) (store1 store2 : CookieStore) :
  wfJar (listed (Document.cookie doc)) →
  themeUnshadowed (listed (Document.cookie doc)) →
  persistPlayers ps (Document.cookie doc) = Normal store1 →
  persistTeams tms store1 = Normal store2 →
  initialDarkMode (Document.mk store2 (Document.classList doc))
  = initialDarkMode doc ∧
  initialPlayers rnd (listed (Document.cookie (toggleDarkMode prev doc).2))
  = initialPlayers rnd (listed (Document.cookie doc)) ∧
  initialTeamsState (listed (Document.cookie (toggleDarkMode prev doc).2))
  = initialTeamsState (listed (Document.cookie doc)).
Proof.
  intros [_ Hwf] Hclean Hplayers Hteams.
  destruct (themeUnshadowed_persist _ _ _ _ (or_introl eq_refl) Hclean
              Hplayers) as [Hclean1 Hsame1].
  destruct (themeUnshadowed_persist _ _ _ _ (or_intror eq_refl) Hclean1
              Hteams) as [_ Hsame2].
  split.
  { rewrite !initialDarkMode_jar. cbn [Document.cookie].
    by rewrite Hsame2, Hsame1. }
  rewrite toggleDarkMode_store.
  set (value := if negb prev then js "dark" else js "light").
  assert (Forall wfPair
            (listed (storeCookie (rootCookie (js "theme") value)
                       (Document.cookie doc)))) as Hwf'.
  { apply Forall_listed_storeCookie; [done| |done].
    unfold value. destruct prev; by apply (bool_decide_unpack _). }
  unfold initialPlayers, initialTeamsState.
  rewrite !initialCollection_named
    by (done || by apply (bool_decide_unpack _)).
  by rewrite !cookiesNamed_storeCookie_ne.
Qed.

(** ** The board *)

Lemma mapM_Normal {A B} (f : A → Completion B) (g : A → B) (l : list A) :
  (∀ x, x ∈ l → f x = Normal (g x)) → mapM f l = Normal (g <$> l).
Proof.
  induction l as [|x l IH]; intros Hf; [done|].
  cbn [mapM]. rewrite Hf by left. cbn [mbind Completion_bind].
  rewrite IH by (intros y Hy; apply Hf; by right). done.
Qed.

Lemma join_fmap_Permutation {A B} (f g : A → list B) (l : list A) :
  (∀ x, f x ≡ₚ g x) → mjoin (f <$> l) ≡ₚ mjoin (g <$> l).
Proof.
  intros Hfg. induction l as [|x l IH]; [done|].
  cbn [fmap list_fmap mjoin list_join]. by rewrite Hfg, IH.
Qed.

(** One key among distinct keys: an element added to its bucket is added
    once to the buckets taken together. *)
Lemma join_buckets_cons {K A} `{EqDecision K} (ks : list K) (k0 : K)
    (x : A) (F : K → list A) :
  NoDup ks → k0 ∈ ks →
  mjoin ((λ k, if decide (k0 = k) then x :: F k else F k) <$> ks)
  ≡ₚ x :: mjoin (F <$> ks).
Proof.
  intros Hnodup Hin. induction ks as [|k ks IH];
    [by apply elem_of_nil in Hin|].
  apply NoDup_cons in Hnodup as [Hk Hnodup].
  cbn [fmap list_fmap mjoin list_join].
  destruct (decide (k0 = k)) as [->|Hne].
  - assert ((λ k', if decide (k = k') then x :: F k' else F k') <$> ks
            = F <$> ks) as ->; [|done].
    apply list_fmap_ext. intros i k' Hk'. apply list_elem_of_lookup_2 in Hk'.
    rewrite decide_False; [done|]. by intros <-.
  - apply elem_of_cons in Hin as [?|Hin]; [done|].
    rewrite IH by done. by rewrite Permutation_middle.
Qed.

(** Distinct keys that cover the key of every element partition the
    list. *)
Lemma join_buckets_partition {K A} `{EqDecision K} (key : A → K)
    (ks : list K) (l : list A) :
  NoDup ks → (∀ x, x ∈ l → key x ∈ ks) →
  mjoin ((λ k, filter (λ x, key x = k) l) <$> ks) ≡ₚ l.
Proof.
  intros Hnodup Hcover. induction l as [|x l IH].
  - induction ks as [|k ks IHks]; [done|].
    cbn [fmap list_fmap mjoin list_join app].
    apply IHks; [by apply NoDup_cons in Hnodup as [_ ?]|].
    intros x Hx. by apply elem_of_nil in Hx.
  - etrans; [|apply perm_skip, IH; intros y Hy; apply Hcover; by right].
    rewrite <- (join_buckets_cons ks (key x) x)
      by (done || apply Hcover; left).
    assert ((λ k, filter (λ y, key y = k) (x :: l)) <$> ks
            = (λ k, if decide (key x = k)
                    then x :: filter (λ y, key y = k) l
                    else filter (λ y, key y = k) l) <$> ks) as ->; [|done].
    apply list_fmap_ext. intros i k _. by rewrite filter_cons.
Qed.

Section BoardFacts.

Variable localeCompare : jsstring → jsstring → Z.

Lemma playersProp_column (ps : list Player.t) (tms : list Team.t)
    (st : AppState) (k : jsstring) :
  players st = ps →
  k = benchKey ∨ k ∈ Team.id <$> tms →
  playersProp
    (mkTeamPlayers
       (sort (byName localeCompare)
          <$> foldl appendToBucket (emptyBuckets tms) ps) None) k
  = Normal (bucketFor localeCompare st k).
Proof.
  intros <- Hk. unfold playersProp, bucketFor.
  erewrite getProperty_own; [done|]. cbn [own].
  rewrite lookup_fmap, foldl_appendToBucket_lookup, emptyBuckets_lookup.
  by rewrite bool_decide_eq_true_2.
Qed.

(** On plain keys the render completes, with one column per key. *)
Lemma board_plain (st : AppState) :
  plainKeys (players st) (teams st) →
  board localeCompare st
  = Normal
      (TeamColumn.mk (js "Free Players") (js "Drag into any team")
         (js "#c5c6ce") (bucketFor localeCompare st benchKey)
         (bool_decide (hoveredZone st = Some benchKey))
         (bool_decide (length (bucketFor localeCompare st benchKey) = 0))
       :: ((λ team,
              TeamColumn.mk (Team.name team)
                (numberText
                   (length (bucketFor localeCompare st (Team.id team)))
                 ++ js " player(s)")
                (Team.accent team)
                (bucketFor localeCompare st (Team.id team))
                (bool_decide (hoveredZone st = Some (Team.id team)))
                false) <$> teams st)).
Proof.
  intros Hplain. unfold board. rewrite roster_plain by done.
  cbn [mbind Completion_bind]. unfold benchColumn.
  rewrite (playersProp_column _ _ st) by (done || by left).
  cbn [mbind Completion_bind].
  erewrite mapM_Normal; [done|]. intros team Hteam. unfold teamColumn.
  rewrite (playersProp_column _ _ st); [done..|].
  right. apply list_elem_of_fmap. by exists team.
Qed.

Lemma board_players (st : AppState) cols :
  plainKeys (players st) (teams st) →
  board localeCompare st = Normal cols →
  TeamColumn.players <$> cols
  = bucketFor localeCompare st <$> columnKeys st.
Proof.
  intros Hplain. rewrite board_plain by done. intros [= <-].
  unfold columnKeys. cbn [fmap list_fmap TeamColumn.players]. f_equal.
  rewrite <- !list_fmap_compose. by apply list_fmap_ext.
Qed.

End BoardFacts.

(** X15.  On a state with referential integrity whose keys are plain and
    whose column keys ([bench] and the team ids) are distinct, the render
    completes with one column per key; the columns together show every
    player exactly once; the column of a key holds the players of that
    key, ascending by name; the hint under the bench is shown exactly
    when no player is unassigned; and the live region announces as many
    players as the columns hold. *)
Theorem board_shows_every_player (localeCompare : jsstring → jsstring → Z)
    (st : AppState) :
  consistentComparator localeCompare →
  plainKeys (players st) (teams st) →
  referentialIntegrity st →
  NoDup (columnKeys st) →
  ∃ bench columns,
    board localeCompare st = Normal (bench :: columns) ∧
    length columns = length (teams st) ∧
    mjoin (TeamColumn.players <$> bench :: columns) ≡ₚ players st ∧
    (∀ i key, columnKeys st !! i = Some key →
       ∃ col, (bench :: columns) !! i = Some col ∧
              Sorted (nameOrder localeCompare) (TeamColumn.players col) ∧
              ∀ p, p ∈ TeamColumn.players col
                   ↔ p ∈ players st ∧ bucketOf p = key) ∧
    (∀ p, p ∈ TeamColumn.players bench
          ↔ p ∈ players st ∧ Player.teamId p = None) ∧
    (TeamColumn.children bench = true
     ↔ ∀ p, p ∈ players st → Player.teamId p ≠ None) ∧
    (∀ i tm, teams st !! i = Some tm →
       ∃ col, columns !! i = Some col ∧
              TeamColumn.title col = Team.name tm ∧
              TeamColumn.subtitle col
              = numberText (length (TeamColumn.players col))
                ++ js " player(s)" ∧
              ∀ p, p ∈ TeamColumn.players col
                   ↔ p ∈ players st ∧ Player.teamId p = Some (Team.id tm)) ∧
    liveRegion st
    = numberText
        (sum_list (length <$> (TeamColumn.players <$> bench :: columns)))
      ++ js " players across " ++ numberText (length columns)
      ++ js " team(s)".
Proof.
  intros Hcmp Hplain Hst Hkeys.
  pose proof (board_plain localeCompare st Hplain) as Hboard.
  pose proof (board_players localeCompare st _ Hplain Hboard) as Hcols.
  assert (∀ p, p ∈ players st → bucketOf p ∈ columnKeys st) as Hcover.
  { intros p Hp. unfold bucketOf, columnKeys.
    destruct (Hst p Hp) as [-> | (tm & Htm & ->)]; [by left|].
    right. apply list_elem_of_fmap. by exists tm. }
  assert (∀ p, p ∈ players st →
            bucketOf p = benchKey ↔ Player.teamId p = None) as Hbench.
  { intros p Hp. unfold bucketOf.
    destruct (Hst p Hp) as [-> | (tm & Htm & ->)]; [done|].
    split; [|done]. simpl. intros Heq. exfalso.
    apply NoDup_cons in Hkeys as [Hfresh _]. apply Hfresh.
    rewrite <- Heq. apply list_elem_of_fmap. by exists tm. }
  assert (∀ p key, p ∈ bucketFor localeCompare st key
                   ↔ p ∈ players st ∧ bucketOf p = key) as Hmember.
  { intros p key. unfold bucketFor.
    rewrite elem_of_sort, list_elem_of_filter. tauto. }
  assert (mjoin (bucketFor localeCompare st <$> columnKeys st)
          ≡ₚ players st) as Hperm.
  { etrans; [|by apply (join_buckets_partition bucketOf (columnKeys st))].
    apply join_fmap_Permutation. intros k. apply sort_Permutation. }
  eexists _, _. split; [exact Hboard|].
  split; [by rewrite length_fmap|]. rewrite Hcols.
  split; [done|]. split; [|split; [|split; [|split]]].
  - intros i key Hi.
    assert ((bucketFor localeCompare st <$> columnKeys st) !! i
            = Some (bucketFor localeCompare st key)) as Hcol
      by by rewrite list_lookup_fmap, Hi.
    rewrite <- Hcols, list_lookup_fmap in Hcol.
    apply fmap_Some in Hcol as (col & Hlookup & Hcol).
    exists col. split; [done|]. rewrite <- Hcol.
    split; [|by intros p].
    apply (sort_Sorted (byName localeCompare)).
    intros a b. apply (consistentComparator_total _ Hcmp).
  - intros p. cbn [TeamColumn.players]. rewrite Hmember.
    split; intros [Hp Hkey]; (split; [done|]); by apply Hbench.
  - cbn [TeamColumn.children]. rewrite bool_decide_eq_true. split.
    + intros Hempty p Hp Hnone. apply length_zero_iff_nil in Hempty.
      assert (p ∈ bucketFor localeCompare st benchKey) as Hin
        by (apply Hmember; split; [done|by apply Hbench]).
      rewrite Hempty in Hin. by apply elem_of_nil in Hin.
    + intros Hall. apply length_zero_iff_nil.
      destruct (bucketFor localeCompare st benchKey) as [|p l] eqn:Hl;
        [done|].
      assert (p ∈ bucketFor localeCompare st benchKey) as Hin
        by (rewrite Hl; left).
      apply Hmember in Hin as [Hp Hkey]. apply Hbench in Hkey; [|done].
      by apply Hall in Hp.
  - intros i tm Hi. rewrite list_lookup_fmap, Hi.
    cbn [fmap option_fmap option_map].
    eexists. split; [done|]. cbn [TeamColumn.title TeamColumn.subtitle
                                  TeamColumn.players].
    split; [done|]. split; [done|]. intros p. rewrite Hmember.
    split; intros [Hp Hkey]; (split; [done|]).
    + unfold bucketOf in Hkey. destruct (Player.teamId p) as [t|] eqn:Ht;
        [by simpl in Hkey; subst t|].
      simpl in Hkey. exfalso.
      apply NoDup_cons in Hkeys as [Hfresh _]. apply Hfresh.
      rewrite Hkey. apply list_elem_of_fmap. exists tm. split; [done|].
      by eapply list_elem_of_lookup_2.
    + unfold bucketOf. by rewrite Hkey.
  - unfold liveRegion. rewrite length_fmap.
    by rewrite <- length_join, Hperm.
Qed.

(** X16.  A player whose [teamId] is neither [bench] nor the id of a team
    is grouped by the projector under a bucket of its own, and is shown
    in no column of the board. *)
Theorem dangling_player_hidden (localeCompare : jsstring → jsstring → Z)
    (st : AppState) (p : Player.t) (t : jsstring) :
  plainKeys (players st) (teams st) →
  p ∈ players st →
  Player.teamId p = Some t →
  t ∉ columnKeys st →
  ∃ result cols,
    roster localeCompare (players st) (teams st) = Normal result ∧
    (∃ l, own result !! t = Some l ∧ p ∈ l) ∧
    board localeCompare st = Normal cols ∧
    p ∉ mjoin (TeamColumn.players <$> cols).
Proof.
  intros Hplain Hp Hteam Hkey.
  pose proof (board_plain localeCompare st Hplain) as Hboard.
  pose proof (board_players localeCompare st _ Hplain Hboard) as Hcols.
  eexists _, _. split; [by apply roster_plain|].
  split; [|split; [exact Hboard|]].
  - cbn [own]. rewrite lookup_fmap, foldl_appendToBucket_lookup.
    assert (p ∈ filter (λ q, bucketOf q = t) (players st)) as Hin.
    { apply list_elem_of_filter. split; [|done]. unfold bucketOf.
      by rewrite Hteam. }
    destruct (filter _ (players st)) as [|q qs] eqn:Hfilter;
      [by apply elem_of_nil in Hin|].
    destruct (emptyBuckets (teams st) !! t);
      (eexists; split; [reflexivity|]); apply elem_of_sort.
    + apply elem_of_app. by right.
    + done.
  - rewrite Hcols. intros Hin.
    apply list_elem_of_join in Hin as (l & Hp' & Hl).
    apply list_elem_of_fmap in Hl as (key & -> & Hkey').
    unfold bucketFor in Hp'.
    apply elem_of_sort, list_elem_of_filter in Hp' as [Hbucket _].
    unfold bucketOf in Hbucket. rewrite Hteam in Hbucket.
    simpl in Hbucket. by subst key.
Qed.

(** ** [getCookie]: its contract, and a name that occurs more than once *)

(** X17.  On a listing with one cookie per name, [getCookie] returns [null]
    when no cookie has exactly the given name and when that cookie's
    value is empty, otherwise it decodes the value of that cookie; it
    never returns the empty string. *)
Theorem getCookie_contract (name : jsstring) (jar : CookieJar) :
  0x3D%N ∉ name → wfJar jar →
  (lookupCookie name jar = None →
   getCookie (cookieString jar) name = Normal None) ∧
  (lookupCookie name jar = Some [] →
   getCookie (cookieString jar) name = Normal None) ∧
  (∀ v, lookupCookie name jar = Some v → v ≠ [] →
     getCookie (cookieString jar) name
     = decoded ← decodeURIComponent v; Normal (Some decoded)) ∧
  getCookie (cookieString jar) name ≠ Normal (Some []).
Proof.
  intros Hname Hwf. rewrite getCookie_jar by done.
  split; [by intros ->|]. split; [by intros ->|]. split.
  - intros v -> Hv. apply truthy_true_iff in Hv. by rewrite Hv.
  - destruct (lookupCookie name jar) as [v|]; [|done].
    destruct (truthy v) eqn:Hv; [|done]. apply truthy_true_iff in Hv.
    destruct (decodeURIComponent v) as [decoded|e] eqn:Hdec; [|done].
    cbn [mbind Completion_bind]. intros [= ->].
    by apply (decodeURIComponent_nonempty v []).
Qed.

(** X18.  [getCookie] returns [null] unless exactly one cookie of the
    listing has the given name: when the name occurs twice or more, as with
    cookies of different paths, the text splits into more than two parts,
    and the initializer takes the fallback. *)
Theorem getCookie_duplicate_null (name : jsstring) (fallback : Json)
    (jar : CookieJar) :
  0x3D%N ∉ name →
  Forall wfPair jar →
  length (cookiesNamed name jar) ≠ 1 →
  getCookie (cookieString jar) name = Normal None ∧
  initialCollection name fallback jar = Normal fallback.
Proof.
  intros Hname Hwf Hcount.
  assert (getCookie (cookieString jar) name = Normal None) as Hget.
  { unfold getCookie.
    assert (split (js "; " ++ name ++ js "=")
            = splitFrom (js "; " ++ name ++ js "=") 0 []) as -> by done.
    rewrite bool_decide_eq_false_2; [done|].
    destruct (decide (jar = [])) as [->|Hjar].
    - change (js "; " ++ cookieString []) with [0x3B%N; 0x20%N].
      change (js "; " ++ name ++ js "=")
        with (0x3B%N :: 0x20%N :: name ++ js "=").
      by rewrite splitFrom_no_head_last.
    - rewrite cookieString_entries, splitFrom_count by done. lia. }
  split; [done|]. unfold initialCollection. by rewrite Hget.
Qed.

(** ** A session and its reload *)

Lemma codeUnits_trimStart s : codeUnits s → codeUnits (trimStart s).
Proof.
  unfold codeUnits. induction 1 as [|c s Hc Hs IH]; [by constructor|].
  cbn [trimStart]. destruct (isWhiteSpace c); [done|by constructor].
Qed.

Lemma codeUnits_rev s : codeUnits s → codeUnits (rev s).
Proof.
  unfold codeUnits. rewrite !Forall_forall. intros Hs c Hc. apply Hs.
  apply list_elem_of_In. apply in_rev. by apply list_elem_of_In.
Qed.

Lemma codeUnits_trim s : codeUnits s → codeUnits (trim s).
Proof.
  intros Hs. unfold trim, trimEnd.
  by apply codeUnits_rev, codeUnits_trimStart, codeUnits_rev,
    codeUnits_trimStart.
Qed.

Lemma codeUnits_paletteColor n : codeUnits (paletteColor n).
Proof.
  unfold paletteColor.
  assert (Forall codeUnits palette) as Hall.
  { unfold codeUnits. apply (bool_decide_unpack _). by vm_compute. }
  destruct (palette !! (n mod length palette)) as [c|] eqn:Hc;
    [|by constructor].
  apply list_elem_of_lookup_2 in Hc.
  by apply (proj1 (Forall_forall _ _) Hall).
Qed.

Section SessionFacts.

Variable rnd : nat → jsstring.
Hypothesis rnd_valid : validSource rnd.

Lemma validState_seed_collections :
  Forall validPlayer (seededPlayers rnd) ∧ Forall validTeam initialTeams.
Proof using rnd_valid.
  split.
  - apply Forall_forall. intros p Hp.
    apply list_elem_of_lookup in Hp as [i Hi].
    unfold seededPlayers in Hi. rewrite list_lookup_imap in Hi.
    destruct (seedNames !! i) as [name|] eqn:Hname; [|done].
    injection Hi as <-. split; [apply rnd_valid|].
    split; [|split; [apply codeUnits_paletteColor|done]].
    cbn [Player.name]. apply list_elem_of_lookup_2 in Hname.
    assert (Forall codeUnits seedNames) as Hall.
    { unfold codeUnits. apply (bool_decide_unpack _). by vm_compute. }
    by apply (proj1 (Forall_forall _ _) Hall).
  - unfold validTeam, codeUnits. apply (bool_decide_unpack _). by vm_compute.
Qed.

Ltac closeValid := repeat split; (done || by constructor).

Lemma validState_dispatch st ev :
  validEvent ev → validState st → validState (dispatch rnd st ev).
Proof using rnd_valid.
  intros Hev (Hps & Hts & Hpn & Htn).
  destruct ev; cbn [dispatch validEvent] in *.
  - closeValid.
  - (* SubmitPlayerForm *)
    destruct (decide (trim (playerName st) = [])) as [He|Hne].
    { by rewrite handleCreatePlayer_reject. }
    rewrite handleCreatePlayer_accept by done.
    split; [|closeValid]. cbn [players]. apply Forall_app.
    split; [done|]. apply Forall_singleton.
    split; [apply rnd_valid|].
    split; [by apply codeUnits_trim|].
    split; [apply codeUnits_paletteColor|done].
  - closeValid.
  - (* SubmitTeamForm *)
    destruct (decide (trim (teamName st) = [])) as [He|Hne].
    { by rewrite handleCreateTeam_reject. }
    rewrite handleCreateTeam_accept by done.
    split; [done|]. split; [|closeValid]. cbn [teams].
    apply Forall_app. split; [done|]. apply Forall_singleton.
    split; [apply rnd_valid|].
    split; [by apply codeUnits_trim|apply codeUnits_paletteColor].
  - unfold onZone. by destruct (zones st !! zone) as [[??]|].
  - unfold onZone. by destruct (zones st !! zone) as [[??]|].
  - (* Drop *)
    unfold onZone.
    destruct (zones st !! zone) as [[zoneKey teamId]|] eqn:Hzone;
      [|closeValid].
    unfold onDrop. destruct (truthy _); [|closeValid].
    split; [|closeValid]. simpl. apply Forall_fmap.
    eapply Forall_impl; [exact Hps|]. intros p (Hid & Hname & Hcolor & Hteam).
    simpl. case_decide; [|done]. repeat (split; [done|]). simpl.
    apply zones_lookup in Hzone as [->|(tm & Htm & ->)]; [done|].
    by apply (proj1 (Forall_forall _ _) Hts) in Htm as [? _].
  - (* ClickRemovePlayer *)
    split; [|closeValid]. simpl. by apply Forall_filter_keep.
  - (* SubmitPlayerRename *)
    unfold submitPlayerRename. destruct (truthy _); [|closeValid].
    split; [|closeValid]. simpl. apply Forall_fmap.
    eapply Forall_impl; [exact Hps|]. intros p (Hid & Hname & Hcolor & Hteam).
    simpl. case_decide; [|done]. split; [done|].
    split; [by apply codeUnits_trim|done].
  - (* ClickRemoveTeam *)
    split; [|split; [|done]]; simpl.
    + apply Forall_fmap. eapply Forall_impl; [exact Hps|].
      intros p (Hid & Hname & Hcolor & Hteam). simpl.
      by case_decide.
    + by apply Forall_filter_keep.
  - (* SubmitTeamRename *)
    unfold submitTeamRename. destruct (truthy _); [|closeValid].
    split; [done|]. split; [|done]. simpl. apply Forall_fmap.
    eapply Forall_impl; [exact Hts|]. intros tm (Hid & Hname & Haccent).
    simpl. case_decide; [|done]. split; [done|].
    split; [by apply codeUnits_trim|done].
  - (* ClickReset *)
    destruct confirmed; [|closeValid].
    destruct validState_seed_collections as [Hseed Hteams].
    closeValid.
Qed.

End SessionFacts.

(** An effect on a slot of the page's own, for a text a serializer
    emits: it does not throw, it keeps the store well formed and the
    slots the page's own, the listing holds the encoded text under the
    slot when the browser stores a cookie of that size, and the cookies
    of other names are as they were. *)
Lemma persist_sync (slot text : jsstring) (store : CookieStore) :
  slotName slot → emittable text → wfStore store → ownSlot slot store →
  ∃ store',
    persist slot text store = Normal store' ∧
    wfStore store' ∧
    (∀ other, ownSlot other store → ownSlot other store') ∧
    (∀ encoded,
       encodeURIComponent text = Normal encoded →
       octetLength slot + octetLength encoded ≤ 4096 →
       cookiesNamed slot (listed store') = [(slot, encoded)]) ∧
    (∀ other, other ≠ slot →
       cookiesNamed other (listed store') = cookiesNamed other (listed store)).
Proof.
  intros Hslot [Hunits Hwf] Hstore Hown.
  destruct (encode_wellFormed text Hwf) as [encoded Henc].
  destruct (decode_encode text encoded Hunits Henc) as [_ Hsafe].
  pose proof Hslot as (Hne & Hsemi & Heq & Hvis).
  assert (0x3B%N ∉ encoded) as Hnosemi.
  { intros Hin. by eapply Forall_forall in Hsafe as [Hc _]. }
  unfold persist. rewrite Henc. cbn [mbind Completion_bind].
  rewrite setCookie_write by done.
  destruct (4096 <? octetLength slot + octetLength encoded) eqn:Hsize.
  - exists store. split; [done|]. split; [done|]. split; [done|].
    split; [|done]. intros encoded' [= <-] Hfits.
    apply Nat.ltb_lt in Hsize. lia.
  - eexists. split; [done|].
    split; [by apply wfStore_storeCookie, wfCookie_rootCookie|].
    split; [intros other; apply ownSlot_storeCookie|]. split.
    + intros encoded' [= <-] _. rewrite listed_storeCookie_own by done.
      by apply cookiesNamed_withCookie, cookiesNamed_own.
    + intros other Hother. by apply cookiesNamed_storeCookie_ne.
Qed.

(** What is in sync loads back, as far as the browser stored it. *)
Lemma inSync_load (rnd : nat → jsstring) (p : Page) :
  validState (appState p) → inSync p →
  (storable (js "players") (stringifyPlayers (players (appState p))) →
   initialPlayers rnd (listed (cookies p))
   = Normal (playersJson (players (appState p)))) ∧
  (storable (js "teams") (stringifyTeams (teams (appState p))) →
   initialTeamsState (listed (cookies p))
   = Normal (teamsJson (teams (appState p)))).
Proof.
  intros (Hps & Hts & _) (Hwf & _ & _ & Hplayers & Hteams).
  split.
  - intros (encoded & Henc & Hsize).
    eapply initialCollection_single;
      [apply players_slot_plain | by apply wfStore_listed
      | by apply Hplayers | | by apply JSON_parse_stringifyPlayers].
    eapply decode_encode; [|exact Henc].
    by apply emittable_stringifyPlayers.
  - intros (encoded & Henc & Hsize).
    eapply initialCollection_single;
      [apply teams_slot_plain | by apply wfStore_listed
      | by apply Hteams | | by apply JSON_parse_stringifyTeams].
    eapply decode_encode; [|exact Henc].
    by apply emittable_stringifyTeams.
Qed.

(** The effects after a render keep or restore the synchrony, and touch
    no cookie of another name. *)
Lemma runEffects_inSync (st st' : AppState) (store : CookieStore)
    (playersChanged teamsChanged : bool) :
  validState st' →
  (playersChanged = true ∨
   (players st' = players st ∧ inSync (mkPage st store))) →
  (teamsChanged = true ∨
   (teams st' = teams st ∧ inSync (mkPage st store))) →
  wfStore store →
  ownSlot (js "players") store → ownSlot (js "teams") store →
  ∃ store',
    runEffects playersChanged teamsChanged st' store = Normal store' ∧
    inSync (mkPage st' store') ∧
    ∀ other, other ≠ js "players" → other ≠ js "teams" →
      cookiesNamed other (listed store') = cookiesNamed other (listed store).
Proof.
  intros (Hps & Hts & _) Hplayers Hteams Hwf Hownp Hownt. unfold runEffects.
  assert (∃ store1,
            (if playersChanged then persistPlayers (players st') store
             else Normal store) = Normal store1 ∧
            wfStore store1 ∧
            ownSlot (js "players") store1 ∧ ownSlot (js "teams") store1 ∧
            (∀ encoded,
               encodeURIComponent (stringifyPlayers (players st'))
               = Normal encoded →
               octetLength (js "players") + octetLength encoded ≤ 4096 →
               cookiesNamed (js "players") (listed store1)
               = [(js "players", encoded)]) ∧
            ∀ other, other ≠ js "players" →
              cookiesNamed other (listed store1)
              = cookiesNamed other (listed store))
    as (store1 & -> & Hwf1 & Hownp1 & Hownt1 & Hsyncp & Hother1).
  { destruct playersChanged.
    - destruct (persist_sync (js "players") (stringifyPlayers (players st'))
                  store)
        as (store1 & Hsave & Hwf1 & Hown1 & Hsync1 & Hother1);
        [apply players_slotName | by apply emittable_stringifyPlayers
        | done..|].
      exists store1. split; [exact Hsave|]. split; [done|].
      split; [by apply Hown1|]. split; [by apply Hown1|]. done.
    - destruct Hplayers as [?|[Hsame (_ & _ & _ & Hsyncp & _)]]; [done|].
      cbn [appState cookies] in *. rewrite Hsame. by exists store. }
  cbn [mbind Completion_bind].
  destruct teamsChanged.
  - destruct (persist_sync (js "teams") (stringifyTeams (teams st')) store1)
      as (store2 & Hsave & Hwf2 & Hown2 & Hsync2 & Hother2);
      [apply teams_slotName | by apply emittable_stringifyTeams
      | done..|].
    exists store2. split; [exact Hsave|]. split.
    + split; [done|]. split; [by apply Hown2|]. split; [by apply Hown2|].
      cbn [appState cookies]. split; [|done].
      intros encoded Henc Hsize. rewrite Hother2 by done.
      by apply Hsyncp.
    + intros other Hp Ht. rewrite Hother2 by done. by apply Hother1.
  - destruct Hteams as [?|[Hsame (_ & _ & _ & _ & Hsynct)]]; [done|].
    cbn [appState cookies] in *. exists store1. split; [done|]. split.
    + split; [done|]. split; [done|]. split; [done|].
      cbn [appState cookies]. split; [done|].
      intros encoded Henc Hsize. rewrite Hother1 by done.
      rewrite Hsame in Henc. by apply Hsynct.
    + intros other Hp _. by apply Hother1.
Qed.

Section PlainKeys.

Variable rnd : nat → jsstring.
Hypothesis rnd_plain : plainSource rnd.

Lemma plainKeys_seed : plainKeys (seededPlayers rnd) initialTeams.
Proof.
  split; [apply (bool_decide_unpack _); by vm_compute|].
  apply Forall_forall. intros p Hp.
  apply list_elem_of_lookup in Hp as [i Hi].
  unfold seededPlayers in Hi. rewrite list_lookup_imap in Hi.
  destruct (seedNames !! i); [|done]. injection Hi as <-.
  apply benchKey_plain.
Qed.

(** Every handler keeps the keys plain. *)
Lemma plainKeys_dispatch st ev :
  plainKeys (players st) (teams st) →
  plainKeys (players (dispatch rnd st ev)) (teams (dispatch rnd st ev)).
Proof using rnd_plain.
  intros [Hts Hps]. destruct ev; cbn [dispatch]; try by split.
  - (* SubmitPlayerForm *)
    destruct (decide (trim (playerName st) = [])) as [He|Hne].
    { by rewrite handleCreatePlayer_reject. }
    rewrite handleCreatePlayer_accept by done. split; [done|].
    cbn [players]. apply Forall_app. split; [done|].
    apply Forall_singleton, benchKey_plain.
  - (* SubmitTeamForm *)
    destruct (decide (trim (teamName st) = [])) as [He|Hne].
    { by rewrite handleCreateTeam_reject. }
    rewrite handleCreateTeam_accept by done. split; [|done].
    cbn [teams]. apply Forall_app. split; [done|].
    apply Forall_singleton, rnd_plain.
  - unfold onZone. by destruct (zones st !! zone) as [[??]|].
  - unfold onZone. by destruct (zones st !! zone) as [[??]|].
  - (* Drop *)
    unfold onZone.
    destruct (zones st !! zone) as [[zoneKey teamId]|] eqn:Hzone;
      [|by split].
    unfold onDrop. destruct (truthy _); [|by split].
    split; [done|]. simpl. apply Forall_fmap.
    eapply Forall_impl; [exact Hps|]. intros p Hp. simpl.
    case_decide; [|done]. unfold bucketOf. cbn [Player.teamId].
    apply zones_lookup in Hzone as [->|(tm & Htm & ->)];
      [apply benchKey_plain|].
    by apply (proj1 (Forall_forall _ _) Hts).
  - (* ClickRemovePlayer *)
    split; [done|]. simpl. by apply Forall_filter_keep.
  - (* SubmitPlayerRename *)
    unfold submitPlayerRename. destruct (truthy _); [|by split].
    split; [done|]. simpl. apply Forall_fmap.
    eapply Forall_impl; [exact Hps|]. intros p Hp. simpl. by case_decide.
  - (* ClickRemoveTeam *)
    split; simpl.
    + by apply Forall_filter_keep.
    + apply Forall_fmap. eapply Forall_impl; [exact Hps|].
      intros p Hp. simpl. case_decide; [apply benchKey_plain|done].
  - (* SubmitTeamRename *)
    unfold submitTeamRename. destruct (truthy _); [|by split].
    split; [|done]. simpl. apply Forall_fmap.
    eapply Forall_impl; [exact Hts|]. intros tm Htm. simpl. by case_decide.
  - (* ClickReset *)
    destruct confirmed; [|by split]. apply plainKeys_seed.
Qed.

End PlainKeys.

Section SessionRun.

Variable localeCompare : jsstring → jsstring → Z.
Variable rnd : nat → jsstring.
Hypothesis rnd_valid : validSource rnd.
Hypothesis rnd_plain : plainSource rnd.

Lemma session_inSync (steps : list (Event * bool * bool)) (p : Page) :
  validState (appState p) →
  plainKeys (players (appState p)) (teams (appState p)) →
  inSync p →
  Forall (λ step, validEvent step.1.1) steps →
  effectsSound rnd (appState p) steps →
  ∃ p',
    session localeCompare rnd p steps = Normal p' ∧
    appState p' = run rnd (appState p) ((λ step, step.1.1) <$> steps) ∧
    validState (appState p') ∧ inSync p' ∧
    ∀ other, other ≠ js "players" → other ≠ js "teams" →
      cookiesNamed other (listed (cookies p'))
      = cookiesNamed other (listed (cookies p)).
Proof using rnd_valid rnd_plain.
  revert p. induction steps as [|[[ev pc] tc] steps IH];
    intros p Hvalid Hplain Hsync Hevents Hsound.
  { exists p. do 4 (split; [done|]). done. }
  apply Forall_cons in Hevents as [Hev Hevents]. cbn [fst] in Hev.
  cbn [effectsSound] in Hsound. destruct Hsound as (Hpc & Htc & Hsound).
  pose proof (validState_dispatch rnd rnd_valid _ _ Hev Hvalid) as Hvalid'.
  pose proof (plainKeys_dispatch rnd rnd_plain _ ev Hplain) as Hplain'.
  destruct p as [st store]. cbn [appState cookies] in *.
  destruct (runEffects_inSync st (dispatch rnd st ev) store pc tc)
    as (store' & Hrun & Hsync' & Hother);
    [done| | |apply Hsync..|].
  { destruct pc; [by left|]. right. split; [|done].
    apply dec_stable. intros Hne. by apply Hpc in Hne. }
  { destruct tc; [by left|]. right. split; [|done].
    apply dec_stable. intros Hne. by apply Htc in Hne. }
  destruct (IH (mkPage (dispatch rnd st ev) store'))
    as (p' & Hsession & Happ & Hvalid'' & Hsync'' & Hother'); [done..|].
  exists p'. split.
  { unfold session. cbn [forEachM pageEvent appState cookies].
    unfold commit. rewrite board_plain by done.
    cbn [mbind Completion_bind]. rewrite Hrun. exact Hsession. }
  split; [by rewrite Happ|]. split; [done|]. split; [done|].
  intros other Hp Ht. rewrite Hother' by done. by apply Hother.
Qed.

End SessionRun.

(** X19.  A session keeps the store in step with the state.  Start from
    any state whose strings are sequences of code units and whose keys are
    plain, and from a well-formed store in which the cookies called
    [players] and [teams] are the page's own; let the first render and
    both persistence effects run, then let any events follow, each effect
    running at least when its collection changed.  No render and no
    effect throws.  A reload at the end gets the players of the final
    state as its initial players when their cookie is of a size the
    browser stores, whatever the sizes were in between, and likewise the
    teams; cookies of other names are as they were. *)
Theorem session_survives_reload (localeCompare : jsstring → jsstring → Z)
    (rnd : nat → jsstring) (st0 : AppState) (store0 : CookieStore)
    (steps : list (Event * bool * bool)) :
  validSource rnd → plainSource rnd →
  validState st0 → plainKeys (players st0) (teams st0) →
  wfStore store0 →
  ownSlot (js "players") store0 → ownSlot (js "teams") store0 →
  Forall (λ step, validEvent step.1.1) steps →
  effectsSound rnd st0 steps →
  ∃ p0 p,
    mountPage localeCompare st0 store0 = Normal p0 ∧
    session localeCompare rnd p0 steps = Normal p ∧
    appState p = run rnd st0 ((λ step, step.1.1) <$> steps) ∧
    (storable (js "players") (stringifyPlayers (players (appState p))) →
     initialPlayers rnd (listed (cookies p))
     = Normal (playersJson (players (appState p)))) ∧
    (storable (js "teams") (stringifyTeams (teams (appState p))) →
     initialTeamsState (listed (cookies p))
     = Normal (teamsJson (teams (appState p)))) ∧
    ∀ other, other ≠ js "players" → other ≠ js "teams" →
      cookiesNamed other (listed (cookies p))
      = cookiesNamed other (listed store0).
Proof.
  intros Hrnd Hsource Hvalid Hplain Hwf Hownp Hownt Hevents Hsound.
  destruct (runEffects_inSync st0 st0 store0 true true)
    as (store & Hrun & Hsync & Hother);
    [done|by left|by left|done|done|done|].
  destruct (session_inSync localeCompare rnd Hrnd Hsource steps
              (mkPage st0 store))
    as (p & Hsession & Happ & Hvalid' & Hsync' & Hother'); [done..|].
  exists (mkPage st0 store), p. split.
  { unfold mountPage, commit. rewrite board_plain by done.
    cbn [mbind Completion_bind]. by rewrite Hrun. }
  split; [done|]. split; [done|].
  destruct (inSync_load rnd p Hvalid' Hsync') as [Hplayers Hteams].
  split; [done|]. split; [done|].
  intros other Hp Ht. rewrite Hother' by done. by apply Hother.
Qed.

(** ** Handlers that undo or override each other *)

Section Compose.

Variable rnd : nat → jsstring.

(** X20.  Creating a player and then removing the created player returns
    the player collection to what it was, when the drawn id was not
    already the id of a player; the teams are untouched. *)
Theorem create_then_remove_player (st : AppState) (name : jsstring) :
  trim name ≠ [] →
  rnd (idCalls st) ∉ Player.id <$> players st →
  let created := createPlayer rnd name st in
  let st' := handleRemovePlayer (rnd (idCalls st)) created in
  length (players created) = S (length (players st)) ∧
  players st' = players st ∧
  teams st' = teams st.
Proof.
  intros Hname Hfresh created st'. subst created st'. unfold createPlayer.
  rewrite handleCreatePlayer_accept by done.
  cbn [handleRemovePlayer setPlayers setPlayerName players teams].
  split; [rewrite length_app; cbn [length]; lia|]. split; [|done].
  rewrite filter_app, filter_cons, decide_False by (cbn [Player.id]; tauto).
  rewrite filter_nil, app_nil_r. apply filter_keeps_all.
  intros p Hp Heq. apply Hfresh. rewrite <- Heq.
  apply list_elem_of_fmap. by exists p.
Qed.

(** X21.  Of two drops of the same player the later one decides: the
    result is that of the later drop alone.  Drops of two different
    players give the same state in either order. *)
Theorem drops_compose (st : AppState) (a b : jsstring)
    (t1 t2 : option jsstring) :
  handleDrop a t2 (handleDrop a t1 st) = handleDrop a t2 st ∧
  (a ≠ b →
   handleDrop a t1 (handleDrop b t2 st) = handleDrop b t2 (handleDrop a t1 st)).
Proof.
  unfold handleDrop, setHoveredZone, setPlayers.
  cbn [players teams playerName teamName hoveredZone idCalls].
  split; [|intros Hne]; f_equal; rewrite <- !list_fmap_compose;
    apply list_fmap_ext; intros i p _; unfold Player.with_teamId; simpl;
    repeat (case_decide; simpl in *); done || congruence.
Qed.

End Compose.

(** ** A drop, seen on the board *)

(** The zone of a column has the column's key, and its target is the
    team the key names. *)
Lemma zones_columnKeys (st : AppState) (i : nat) (key : jsstring)
    (target : option jsstring) :
  zones st !! i = Some (key, target) →
  columnKeys st !! i = Some key ∧ default benchKey target = key ∧
  (key = benchKey ∨ key ∈ Team.id <$> teams st).
Proof.
  unfold zones, columnKeys. destruct i as [|i].
  - intros [= <- <-]. split; [done|]. split; [done|by left].
  - rewrite !lookup_cons, !list_lookup_fmap.
    destruct (teams st !! i) as [tm|] eqn:Htm; [|done].
    intros [= <- <-]. split; [done|]. split; [done|]. right.
    apply list_elem_of_fmap. exists tm. split; [done|].
    by eapply list_elem_of_lookup_2.
Qed.

(** X22.  After a drop of a player on a rendered zone, the board shows
    that player, with its new [teamId], in the column of that zone. *)
Theorem dropped_player_shows_in_column
    (localeCompare : jsstring → jsstring → Z) (rnd : nat → jsstring)
    (st : AppState) (i : nat) (key : jsstring) (target : option jsstring)
    (p : Player.t) (dt : DataTransfer) :
  plainKeys (players st) (teams st) →
  zones st !! i = Some (key, target) →
  p ∈ players st →
  getData dt (js "playerId") = Player.id p →
  Player.id p ≠ [] →
  let st' := dispatch rnd st (Drop i dt) in
  ∃ cols col,
    board localeCompare st' = Normal cols ∧
    cols !! i = Some col ∧
    Player.with_teamId p target ∈ TeamColumn.players col ∧
    ∀ q, q ∈ TeamColumn.players col → bucketOf q = key.
Proof.
  intros [Hteams Hplayers] Hzone Hp Hdata Hid st'. subst st'.
  destruct (zones_columnKeys st i key target Hzone) as (Hkey & Htarget & Hin).
  rewrite (dispatch_Drop rnd st i key target) by done.
  unfold onDrop. rewrite Hdata. apply truthy_true_iff in Hid. rewrite Hid.
  set (st' := handleDrop (Player.id p) target st).
  assert (teams st' = teams st) as Hsame by done.
  assert (plainKeys (players st') (teams st')) as Hplain.
  { split; [done|]. cbn [st' handleDrop setHoveredZone setPlayers players].
    apply Forall_fmap. eapply Forall_impl; [exact Hplayers|].
    intros q Hq. simpl. case_decide; [|done].
    unfold bucketOf, Player.with_teamId. cbn [Player.teamId].
    rewrite Htarget. destruct Hin as [->|Hin]; [apply benchKey_plain|].
    apply list_elem_of_fmap in Hin as (tm & -> & Htm).
    by apply (proj1 (Forall_forall _ _) Hteams). }
  pose proof (board_plain localeCompare st' Hplain) as Hboard.
  pose proof (board_players localeCompare st' _ Hplain Hboard) as Hcols.
  assert ((bucketFor localeCompare st' <$> columnKeys st') !! i
          = Some (bucketFor localeCompare st' key)) as Hcol.
  { rewrite list_lookup_fmap. unfold columnKeys. rewrite Hsame.
    fold (columnKeys st). by rewrite Hkey. }
  rewrite <- Hcols, list_lookup_fmap in Hcol.
  apply fmap_Some in Hcol as (col & Hlookup & Hcol).
  eexists _, col. split; [exact Hboard|]. split; [exact Hlookup|].
  rewrite <- Hcol. unfold bucketFor. split.
  - apply elem_of_sort, list_elem_of_filter. split; [done|].
    cbn [st' handleDrop setHoveredZone setPlayers players].
    apply list_elem_of_fmap. exists p. split; [|done].
    by rewrite decide_True.
  - intros q Hq. by apply elem_of_sort, list_elem_of_filter in Hq as [? _].
Qed.

(** ** Equal names keep their order *)

Section Stable.

Variable localeCompare : jsstring → jsstring → Z.
Hypothesis consistent : consistentComparator localeCompare.

Lemma sameName_le z a b :
  sameName localeCompare z a → sameName localeCompare z b →
  (byName localeCompare a b ≤ 0)%Z.
Proof using consistent.
  unfold sameName, byName. intros Ha Hb.
  destruct consistent as [Hanti Htrans].
  apply (Htrans _ (Player.name z)); [lia|].
  pose proof (Hanti (Player.name z) (Player.name b)) as H1.
  pose proof (Hanti (Player.name b) (Player.name z)) as H2.
  lia.
Qed.

Lemma insertSorted_sameName z x l :
  filter (sameName localeCompare z)
    (insertSorted (byName localeCompare) x l)
  = filter (sameName localeCompare z) (x :: l).
Proof using consistent.
  induction l as [|y l IH]; [done|]. cbn [insertSorted].
  destruct (byName localeCompare x y <=? 0)%Z eqn:Hle; [done|].
  apply Z.leb_gt in Hle.
  rewrite filter_cons, IH, !filter_cons.
  destruct (decide (sameName localeCompare z y)) as [Hy|Hy]; [|done].
  destruct (decide (sameName localeCompare z x)) as [Hx|Hx]; [|done].
  pose proof (sameName_le z x y Hx Hy). lia.
Qed.

Lemma sort_sameName z l :
  filter (sameName localeCompare z) (sort (byName localeCompare) l)
  = filter (sameName localeCompare z) l.
Proof using consistent.
  induction l as [|x l IH]; [done|].
  change (sort (byName localeCompare) (x :: l))
    with (insertSorted (byName localeCompare) x
            (sort (byName localeCompare) l)).
  by rewrite insertSorted_sameName, !filter_cons, IH.
Qed.

End Stable.

(** X25.  The projector keeps players with equal names in collection
    order: within every bucket, the players whose names the comparator
    does not tell apart stand in the order they have in the player
    list. *)
Theorem roster_equal_names_keep_order
    (localeCompare : jsstring → jsstring → Z)
    (players : list Player.t) (teams : list Team.t) :
  consistentComparator localeCompare →
  plainKeys players teams →
  ∃ result,
    roster localeCompare players teams = Normal result ∧
    ∀ k l z, own result !! k = Some l →
      filter (sameName localeCompare z) l
      = filter (sameName localeCompare z)
          (filter (λ p, bucketOf p = k) players).
Proof.
  intros Hcmp Hplain. eexists. split; [by apply roster_plain|].
  cbn [own]. intros k l z Hl. apply roster_bucket in Hl as ->.
  by apply sort_sameName.
Qed.

(** ** Handlers, seen on the board *)

Section BoardAfter.

Variable localeCompare : jsstring → jsstring → Z.
Variable rnd : nat → jsstring.

Lemma elem_of_bucketFor st key p :
  p ∈ bucketFor localeCompare st key ↔ p ∈ players st ∧ bucketOf p = key.
Proof.
  unfold bucketFor. rewrite elem_of_sort, list_elem_of_filter. tauto.
Qed.

(** X26.  After [handleRemoveTeam], the board has one column per
    remaining team, every player that was assigned to the removed team
    stands in the bench column, and no column shows a player assigned to
    the removed team. *)
Theorem removed_team_players_on_bench (st : AppState) (teamId : jsstring) :
  plainKeys (players st) (teams st) →
  let st' := handleRemoveTeam teamId st in
  ∃ bench columns,
    board localeCompare st' = Normal (bench :: columns) ∧
    length columns
    = length (filter (λ team, Team.id team ≠ teamId) (teams st)) ∧
    (∀ p, p ∈ players st → Player.teamId p = Some teamId →
       Player.with_teamId p None ∈ TeamColumn.players bench) ∧
    (∀ col q, col ∈ bench :: columns → q ∈ TeamColumn.players col →
       Player.teamId q ≠ Some teamId).
Proof.
  intros [Hteams Hplayers] st'.
  assert (plainKeys (players st') (teams st')) as Hplain.
  { split; simpl.
    - by apply Forall_filter_keep.
    - apply Forall_fmap. eapply Forall_impl; [exact Hplayers|].
      intros p Hp. simpl. case_decide; [apply benchKey_plain|done]. }
  pose proof (board_plain localeCompare st' Hplain) as Hboard.
  pose proof (board_players localeCompare st' _ Hplain Hboard) as Hcols.
  eexists _, _. split; [exact Hboard|]. split; [by rewrite length_fmap|].
  split.
  - intros p Hp Hassigned. cbn [TeamColumn.players].
    apply elem_of_bucketFor. split; [|done]. simpl.
    apply list_elem_of_fmap. exists p. split; [|done].
    by rewrite decide_True.
  - intros col q Hcol Hq Hassigned.
    assert (q ∈ players st') as Hin.
    { apply (list_elem_of_fmap_2 TeamColumn.players) in Hcol.
      rewrite Hcols in Hcol.
      apply list_elem_of_fmap in Hcol as (key & Hkey & _).
      rewrite Hkey in Hq. by apply elem_of_bucketFor in Hq as [? _]. }
    simpl in Hin. apply list_elem_of_fmap in Hin as (q0 & -> & _).
    by case_decide.
Qed.

(** X27.  After a player was created, the board shows the new player in
    the bench column, and the live region counts one player more. *)
Theorem created_player_on_bench (st : AppState) (name : jsstring) :
  plainKeys (players st) (teams st) →
  trim name ≠ [] →
  let st' := createPlayer rnd name st in
  ∃ bench columns,
    board localeCompare st' = Normal (bench :: columns) ∧
    Player.mk (rnd (idCalls st)) (trim name)
      (paletteColor (length (players st))) None
    ∈ TeamColumn.players bench ∧
    liveRegion st'
    = numberText (S (length (players st))) ++ js " players across "
      ++ numberText (length (teams st)) ++ js " team(s)".
Proof.
  intros [Hteams Hplayers] Hname st'. subst st'. unfold createPlayer.
  rewrite handleCreatePlayer_accept by done.
  set (st' := mkState _ _ _ _ _ _).
  assert (plainKeys (players st') (teams st')) as Hplain.
  { split; [done|]. cbn [st' players]. apply Forall_app. split; [done|].
    apply Forall_singleton, benchKey_plain. }
  pose proof (board_plain localeCompare st' Hplain) as Hboard.
  eexists _, _. split; [exact Hboard|]. split.
  - cbn [TeamColumn.players]. apply elem_of_bucketFor. split; [|done].
    cbn [st' players]. apply elem_of_app. right. by left.
  - unfold liveRegion. cbn [st' players teams].
    rewrite length_app. cbn [length]. by rewrite Nat.add_1_r.
Qed.

(** The column at an index is highlighted when the hovered zone is its
    key. *)
Lemma board_hovered (st : AppState) cols i col :
  plainKeys (players st) (teams st) →
  board localeCompare st = Normal cols →
  cols !! i = Some col →
  ∃ key, columnKeys st !! i = Some key ∧
         TeamColumn.hovered col = bool_decide (hoveredZone st = Some key).
Proof.
  intros Hplain. rewrite board_plain by done. intros [= <-].
  unfold columnKeys. destruct i as [|i].
  - intros [= <-]. by exists benchKey.
  - rewrite !lookup_cons, !list_lookup_fmap.
    destruct (teams st !! i) as [tm|]; [|done].
    intros [= <-]. by exists (Team.id tm).
Qed.

(** X28.  While a drag is over a rendered zone, the board highlights the
    column of that zone and no other, when the column keys are
    distinct. *)
Theorem hover_highlights_one_column (st : AppState) (a : nat)
    (zoneKey : jsstring) (target : option jsstring) :
  plainKeys (players st) (teams st) →
  NoDup (columnKeys st) →
  zones st !! a = Some (zoneKey, target) →
  let st' := dispatch rnd st (DragEnter a) in
  ∃ cols,
    board localeCompare st' = Normal cols ∧
    ∀ i col, cols !! i = Some col →
      (TeamColumn.hovered col = true ↔ i = a).
Proof.
  intros Hplain Hnodup Hzone st'. subst st'.
  rewrite (dispatch_DragEnter rnd st a zoneKey target) by done.
  set (st' := setHoveredZone _ st).
  assert (plainKeys (players st') (teams st')) as Hplain' by done.
  destruct (zones_columnKeys st a zoneKey target Hzone) as (Ha & _).
  eexists. split; [by apply board_plain|].
  intros i col Hcol.
  destruct (board_hovered st' _ i col Hplain'
              (board_plain localeCompare st' Hplain') Hcol)
    as (key & Hkey & ->).
  change (columnKeys st') with (columnKeys st) in Hkey.
  cbn [st' setHoveredZone hoveredZone]. rewrite bool_decide_eq_true.
  split.
  - intros [= ->]. by eapply NoDup_lookup.
  - intros ->. congruence.
Qed.

End BoardAfter.

(** ** The further theorems at sample inputs *)

Lemma sampleRnd_fresh : freshSource sampleRnd.
Proof.
  split.
  - intros a b Heq. unfold sampleRnd in Heq. apply app_inv_head in Heq.
    apply (f_equal length) in Heq. by rewrite !length_replicate in Heq.
  - intros k Hk. unfold sampleRnd in Hk.
    apply elem_of_cons in Hk as [Hk|Hk]; [done|].
    apply elem_of_cons in Hk as [Hk|Hk]; [done|].
    by apply elem_of_nil in Hk.
Qed.

Lemma sampleRnd_valid : validSource sampleRnd.
Proof.
  intros k. unfold sampleRnd, codeUnits. apply Forall_app. split.
  - apply (bool_decide_unpack _). by vm_compute.
  - apply Forall_replicate. by vm_compute.
Qed.

Lemma create_player_appends_witness :
  ∃ created,
    players (createPlayer sampleRnd (js "  Solaris ") (seedState sampleRnd))
    = seededPlayers sampleRnd ++ [created] ∧
    Player.name created = js "Solaris" ∧
    palette !! 5 = Some (Player.color created) ∧
    Player.id created ∉ Player.id <$> seededPlayers sampleRnd.
Proof.
  destruct (create_player_appends sampleRnd (seedState sampleRnd)
              (js "  Solaris "))
    as (created & Hplayers & _ & _ & Hname & _ & Hcolor & _ & Hfresh).
  - vm_compute. discriminate.
  - exists created. split; [exact Hplayers|]. split; [exact Hname|].
    split; [exact Hcolor|].
    destruct (Hfresh (proj1 sampleRnd_fresh)) as [_ Hnew]. apply Hnew.
    destruct (idsFromSource_seed sampleRnd sampleRnd_fresh)
      as (_ & _ & _ & Hdrawn & _).
    exact Hdrawn.
Defined.

Lemma integrity_sampleState : referentialIntegrity sampleState.
Proof.
  unfold sampleState, run. cbn [fold_left].
  do 2 apply integrity_dispatch. apply integrity_seed.
Qed.

Lemma create_team_appends_witness :
  ∃ created,
    teams (createTeam sampleRnd (js " Vanguard ") (seedState sampleRnd))
    = initialTeams ++ [created] ∧
    Team.name created = js "Vanguard" ∧
    palette !! 2 = Some (Team.accent created).
Proof.
  destruct (create_team_appends sampleRnd (seedState sampleRnd)
              (js " Vanguard "))
    as (created & Hteams & _ & _ & Hname & Haccent & _).
  - vm_compute. discriminate.
  - exists created. split; [exact Hteams|]. split; [exact Hname|].
    exact Haccent.
Defined.

Lemma rename_team_frame_witness :
  players (submitTeamRename (js "alpha") (js " Reds ") (seedState sampleRnd))
  = seededPlayers sampleRnd ∧
  roster codeUnitCompare
    (players (submitTeamRename (js "alpha") (js " Reds ")
                (seedState sampleRnd)))
    (teams (submitTeamRename (js "alpha") (js " Reds ")
              (seedState sampleRnd)))
  = roster codeUnitCompare (seededPlayers sampleRnd) initialTeams.
Proof.
  destruct (rename_team_frame (seedState sampleRnd) (js "alpha")
              (js " Reds "))
    as (Hplayers & _ & _ & Hroster).
  - vm_compute. discriminate.
  - split; [exact Hplayers|]. apply Hroster.
Defined.


Lemma rename_unchanged_text_noop_witness :
  submitPlayerRename (sampleRnd 0) (js "Astra") teamlessState
  = teamlessState ∧
  submitTeamRename (js "alpha") (js "Team Alpha") (seedState sampleRnd)
  = seedState sampleRnd.
Proof.
  split.
  - apply (proj1 (rename_unchanged_text_noop teamlessState)
             (Player.mk (sampleRnd 0) (js "Astra") (js "#ff7b7b") None));
      apply (bool_decide_unpack _); by vm_compute.
  - apply (proj2 (rename_unchanged_text_noop (seedState sampleRnd))
             (Team.mk (js "alpha") (js "Team Alpha") (js "#ffb347")));
      apply (bool_decide_unpack _); by vm_compute.
Defined.

Lemma unique_ids_invariant_witness :
  NoDup (Player.id
           <$> players
                 (run sampleRnd (seedState sampleRnd)
                    [ TypePlayerName (js "Solaris"); SubmitPlayerForm;
                      ClickReset true; SubmitPlayerForm ])).
Proof.
  destruct (unique_ids_invariant sampleRnd
              [ TypePlayerName (js "Solaris"); SubmitPlayerForm;
                ClickReset true; SubmitPlayerForm ] sampleRnd_fresh)
    as [Hplayers _].
  exact Hplayers.
Defined.

Lemma hover_follows_pointer_witness :
  teams teamlessState = [] ∧
  hoveredZone (dispatch sampleRnd teamlessState (DragEnter 0))
  = Some (js "bench") ∧
  hoveredZone (run sampleRnd teamlessState [DragEnter 0; DragLeave 0])
  = None ∧
  hoveredZone (run sampleRnd teamlessState [DragEnter 0; Drop 0 []])
  = Some (js "bench") ∧
  hoveredZone
    (run sampleRnd (seedState sampleRnd)
       [DragEnter 0; DragEnter 1; DragLeave 0]) = Some (js "alpha").
Proof.
  destruct (hover_follows_pointer sampleRnd teamlessState 0 (js "bench")
              None eq_refl)
    as (Hentered & _ & _ & Hleft & _ & Hstuck & _).
  destruct (hover_follows_pointer sampleRnd (seedState sampleRnd) 0
              (js "bench") None eq_refl)
    as (_ & _ & _ & _ & _ & _ & Hlate).
  split; [reflexivity|]. split; [exact Hentered|]. split; [exact Hleft|].
  split; [exact (Hstuck [] eq_refl)|].
  apply (Hlate 1 (js "alpha") (Some (js "alpha")) eq_refl).
  vm_compute. discriminate.
Defined.

Lemma theme_toggle_round_trip_witness :
  initialDarkMode (toggleDarkMode true themeDocument).2 = false ∧
  initialDarkMode (toggleDarkMode false themeDocument).2 = true.
Proof.
  assert (wfStore (Document.cookie themeDocument)) as Hwf.
  { apply (bool_decide_unpack _). by vm_compute. }
  assert (ownSlot (js "theme") (Document.cookie themeDocument)) as Hown.
  { apply (bool_decide_unpack _). by vm_compute. }
  assert (themeUnshadowed (listed (Document.cookie themeDocument)))
    as Hclean.
  { apply (bool_decide_unpack _). by vm_compute. }
  destruct (theme_toggle_round_trip true themeDocument Hwf Hown Hclean)
    as (_ & Hlight & _).
  destruct (theme_toggle_round_trip false themeDocument Hwf Hown Hclean)
    as (_ & Hdark & _).
  split; [exact Hlight | exact Hdark].
Defined.

Lemma theme_substring_capture_witness :
  (toggleDarkMode true shadowedDocument).1 = false ∧
  lookupCookie (js "theme")
    (listed (Document.cookie (toggleDarkMode true shadowedDocument).2))
  = Some (js "light") ∧
  initialDarkMode (toggleDarkMode true shadowedDocument).2 = true.
Proof.
  destruct (theme_substring_capture shadowedDocument
              (js "mytheme", js "darker"))
    as (_ & Hnext & _ & Hstored & Hreload).
  - apply (bool_decide_unpack _). by vm_compute.
  - vm_compute. discriminate.
  - vm_compute. reflexivity.
  - split; [exact Hnext|]. split; [|exact Hreload].
    apply Hstored; apply (bool_decide_unpack _); by vm_compute.
Defined.

Lemma theme_and_collections_independent_witness :
  initialDarkMode
    (Document.mk
       (rootStore
          (themeJar
             ++ [(js "players", js "%5B%5D"); (js "teams", js "%5B%5D")]))
       [js "app"]) = initialDarkMode themeDocument ∧
  initialPlayers sampleRnd
    (listed (Document.cookie (toggleDarkMode true themeDocument).2))
  = initialPlayers sampleRnd themeJar.
Proof.
  destruct (theme_and_collections_independent sampleRnd true themeDocument
              [] []
              (rootStore (themeJar ++ [(js "players", js "%5B%5D")]))
              (rootStore
                 (themeJar ++ [(js "players", js "%5B%5D");
                               (js "teams", js "%5B%5D")])))
    as (Htheme & Hplayers & _).
  - apply (bool_decide_unpack _). by vm_compute.
  - apply (bool_decide_unpack _). by vm_compute.
  - vm_compute. reflexivity.
  - vm_compute. reflexivity.
  - split; [exact Htheme | exact Hplayers].
Defined.

Lemma board_shows_every_player_witness :
  ∃ bench columns,
    board codeUnitCompare sampleState = Normal (bench :: columns) ∧
    mjoin (TeamColumn.players <$> bench :: columns) ≡ₚ players sampleState.
Proof.
  destruct (board_shows_every_player codeUnitCompare sampleState)
    as (bench & columns & Hboard & _ & Hperm & _).
  - apply codeUnitCompare_consistent.
  - apply (bool_decide_unpack _). by vm_compute.
  - apply integrity_sampleState.
  - apply (bool_decide_unpack _). by vm_compute.
  - exists bench, columns. split; [exact Hboard | exact Hperm].
Defined.

Lemma dangling_player_hidden_witness :
  ∃ cols,
    board codeUnitCompare danglingState = Normal cols ∧
    Player.mk (js "p1") (js "Nova") (js "#ff7b7b") (Some (js "ghost"))
    ∉ mjoin (TeamColumn.players <$> cols).
Proof.
  destruct (dangling_player_hidden codeUnitCompare danglingState
              (Player.mk (js "p1") (js "Nova") (js "#ff7b7b")
                 (Some (js "ghost")))
              (js "ghost"))
    as (result & cols & _ & _ & Hboard & Hhidden).
  - apply (bool_decide_unpack _). by vm_compute.
  - apply (bool_decide_unpack _). by vm_compute.
  - reflexivity.
  - apply (bool_decide_unpack _). by vm_compute.
  - exists cols. split; [exact Hboard | exact Hhidden].
Defined.

Lemma getCookie_contract_witness :
  getCookie (cookieString numberJar) (js "teams") = Normal None ∧
  getCookie (cookieString numberJar) (js "players")
  = decoded ← decodeURIComponent (js "42"); Normal (Some decoded).
Proof.
  destruct (getCookie_contract (js "teams") numberJar) as (Habsent & _).
  { apply (bool_decide_unpack _). by vm_compute. }
  { apply (bool_decide_unpack _). by vm_compute. }
  destruct (getCookie_contract (js "players") numberJar)
    as (_ & _ & Hpresent & _).
  { apply (bool_decide_unpack _). by vm_compute. }
  { apply (bool_decide_unpack _). by vm_compute. }
  split.
  - apply Habsent. reflexivity.
  - apply Hpresent; [reflexivity|]. vm_compute. discriminate.
Defined.

Lemma getCookie_duplicate_null_witness :
  getCookie (cookieString twoPathsJar) (js "players") = Normal None ∧
  initialCollection (js "players") (playersJson (seededPlayers sampleRnd))
    twoPathsJar
  = Normal (playersJson (seededPlayers sampleRnd)).
Proof.
  apply (getCookie_duplicate_null (js "players")
           (playersJson (seededPlayers sampleRnd)) twoPathsJar).
  - apply (bool_decide_unpack _). by vm_compute.
  - unfold wfPair. apply (bool_decide_unpack _). by vm_compute.
  - vm_compute. discriminate.
Defined.

Lemma sampleRnd_plain : plainSource sampleRnd.
Proof.
  intros k Hk. unfold sampleRnd in Hk.
  repeat (apply elem_of_cons in Hk as [Hk|Hk]; [done|]).
  by apply elem_of_nil in Hk.
Qed.

Lemma session_survives_reload_witness :
  ∃ p0 p,
    mountPage codeUnitCompare (seedState sampleRnd) (rootStore themeJar)
    = Normal p0 ∧
    session codeUnitCompare sampleRnd p0 sampleSteps = Normal p ∧
    initialPlayers sampleRnd (listed (cookies p))
    = Normal (playersJson (players (appState p))) ∧
    cookiesNamed (js "theme") (listed (cookies p))
    = [(js "theme", js "dark")].
Proof.
  destruct (session_survives_reload codeUnitCompare sampleRnd
              (seedState sampleRnd) (rootStore themeJar) sampleSteps)
    as (p0 & p & Hmount & Hsession & Hstate & Hplayers & _ & Hother).
  - apply sampleRnd_valid.
  - apply sampleRnd_plain.
  - destruct (validState_seed_collections sampleRnd sampleRnd_valid)
      as [Hps Hts].
    split; [exact Hps|]. split; [exact Hts|]. split; constructor.
  - apply plainKeys_seed.
  - apply (bool_decide_unpack _). by vm_compute.
  - apply (bool_decide_unpack _). by vm_compute.
  - apply (bool_decide_unpack _). by vm_compute.
  - unfold sampleSteps, validEvent, codeUnits.
    repeat (apply Forall_cons; split;
            [try exact I; apply (bool_decide_unpack _); by vm_compute|]).
    apply Forall_nil_2.
  - cbn [effectsSound sampleSteps].
    split; [intros Hchanged; exfalso; apply Hchanged; reflexivity|].
    split; [intros Hchanged; exfalso; apply Hchanged; reflexivity|].
    split; [reflexivity|].
    split; [intros Hchanged; exfalso; apply Hchanged; reflexivity|].
    split; [reflexivity|]. split; [reflexivity|]. exact I.
  - exists p0, p. split; [exact Hmount|]. split; [exact Hsession|]. split.
    + apply Hplayers. rewrite Hstate.
      eexists. split; [vm_compute; reflexivity|].
      apply Nat.leb_le. vm_compute. reflexivity.
    + rewrite Hother; [reflexivity | vm_compute; discriminate
                      | vm_compute; discriminate].
Defined.

Lemma create_then_remove_player_witness :
  players
    (handleRemovePlayer (sampleRnd 13)
       (createPlayer sampleRnd (js "Solaris") (seedState sampleRnd)))
  = seededPlayers sampleRnd.
Proof.
  destruct (create_then_remove_player sampleRnd (seedState sampleRnd)
              (js "Solaris"))
    as (_ & Hplayers & _).
  - vm_compute. discriminate.
  - apply (bool_decide_unpack _). by vm_compute.
  - exact Hplayers.
Defined.

Lemma roster_equal_names_keep_order_witness :
  ∃ result,
    roster codeUnitCompare twinPlayers initialTeams = Normal result ∧
    ∀ l, own result !! benchKey = Some l →
      Player.id
        <$> filter
              (sameName codeUnitCompare
                 (Player.mk (js "p3") (js "Nova") (js "#9ae66e") None)) l
      = [js "p1"; js "p3"].
Proof.
  destruct (roster_equal_names_keep_order codeUnitCompare twinPlayers
              initialTeams)
    as (result & Hroster & Horder).
  - apply codeUnitCompare_consistent.
  - apply (bool_decide_unpack _). by vm_compute.
  - exists result. split; [exact Hroster|]. intros l Hl.
    rewrite (Horder benchKey l _ Hl). vm_compute. reflexivity.
Defined.

Lemma removed_team_players_on_bench_witness :
  ∃ bench columns,
    board codeUnitCompare (handleRemoveTeam (js "alpha") sampleState)
    = Normal (bench :: columns) ∧
    length columns = 1 ∧
    Player.mk (sampleRnd 0) (js "Astra") (js "#ff7b7b") None
    ∈ TeamColumn.players bench.
Proof.
  destruct (removed_team_players_on_bench codeUnitCompare sampleState
              (js "alpha"))
    as (bench & columns & Hboard & Hlength & Hbench & _).
  - apply (bool_decide_unpack _). by vm_compute.
  - exists bench, columns. split; [exact Hboard|]. split; [exact Hlength|].
    apply (Hbench (Player.mk (sampleRnd 0) (js "Astra") (js "#ff7b7b")
                     (Some (js "alpha")))).
    + apply (bool_decide_unpack _). by vm_compute.
    + reflexivity.
Defined.

Lemma created_player_on_bench_witness :
  ∃ bench columns,
    board codeUnitCompare
      (createPlayer sampleRnd (js " Solaris ") (seedState sampleRnd))
    = Normal (bench :: columns) ∧
    Player.mk (sampleRnd 13) (js "Solaris") (js "#ffa6c9") None
    ∈ TeamColumn.players bench.
Proof.
  destruct (created_player_on_bench codeUnitCompare sampleRnd
              (seedState sampleRnd) (js " Solaris "))
    as (bench & columns & Hboard & Hbench & _).
  - apply plainKeys_seed.
  - vm_compute. discriminate.
  - exists bench, columns. split; [exact Hboard | exact Hbench].
Defined.

Lemma hover_highlights_one_column_witness :
  ∃ cols,
    board codeUnitCompare
      (dispatch sampleRnd (seedState sampleRnd) (DragEnter 1))
    = Normal cols ∧
    ∀ i col, cols !! i = Some col →
      (TeamColumn.hovered col = true ↔ i = 1).
Proof.
  apply (hover_highlights_one_column codeUnitCompare sampleRnd
           (seedState sampleRnd) 1 (js "alpha") (Some (js "alpha"))).
  - apply plainKeys_seed.
  - apply (bool_decide_unpack _). by vm_compute.
  - reflexivity.
Defined.

Lemma dropped_player_shows_in_column_witness :
  ∃ cols col,
    board codeUnitCompare
      (dispatch sampleRnd (seedState sampleRnd)
         (Drop 2 (startDrag (sampleRnd 0) []))) = Normal cols ∧
    cols !! 2 = Some col ∧
    Player.mk (sampleRnd 0) (js "Astra") (js "#ff7b7b") (Some (js "bravo"))
    ∈ TeamColumn.players col.
Proof.
  destruct (dropped_player_shows_in_column codeUnitCompare sampleRnd
              (seedState sampleRnd) 2 (js "bravo") (Some (js "bravo"))
              (Player.mk (sampleRnd 0) (js "Astra") (js "#ff7b7b") None)
              (startDrag (sampleRnd 0) []))
    as (cols & col & Hboard & Hcol & Hin & _).
  - apply (bool_decide_unpack _). by vm_compute.
  - reflexivity.
  - apply (bool_decide_unpack _). by vm_compute.
  - reflexivity.
  - vm_compute. discriminate.
  - exists cols, col. split; [exact Hboard|]. split; [exact Hcol|].
    exact Hin.
Defined.
